(** * Wordle: the lexicon engine and the feedback computation

    A shallow embedding of [lexicon.c], [io.c], [history.c] and of the
    seed argument, the start-up, the game loop and the feedback of
    [wordle.c].

    Conventions of the embedding.
    - C integers ([int], [long], [char]) are values of [Z].  Where the
      source relies on the width of a type (the [char] that receives the
      result of [getc], the [long] product in [chooseWord]) the conversion
      or the overflow check is written out.  The target is an LP64 platform
      with a signed [char] (x86-64), the only kind on which the comparison
      [ch == EOF] of [readLine] can ever succeed.  The [long] of [getSeed]
      wraps around, as it does in the compiled code: the function tests
      for the wrapped product.
    - A C string is the list of its characters up to, and without, the
      terminating NUL; reading the string at its length yields NUL.
    - An array is a list; every read and write goes through [aget] and
      [aset], which report an access outside the array.
    - A function that can call [exit], run into undefined behaviour or
      fail to terminate returns a [res]. *)

From Stdlib Require Import ZArith List Bool Lia Permutation Sorted.
From Equations Require Import Equations.
Import ListNotations.
Local Open Scope Z_scope.

(** ** Outcomes of a run *)

(** The three places where the program prints "Invalid word file" and
    exits: in [readLine], at the word limit of [readWords], and in the
    neighbour scan of [sort]. *)
Inductive error : Type :=
| InvalidWordFormat
| CapacityExceeded
| DuplicateWord.

Inductive res (A : Type) : Type :=
| Ok (a : A)          (* normal return *)
| Exit (e : error)    (* exit( EXIT_FAILURE ) *)
| Undefined           (* undefined behaviour: bad index, overflow, n % 0 *)
| Timeout.            (* the model ran out of fuel *)

Arguments Ok {A} a.
Arguments Exit {A} e.
Arguments Undefined {A}.
Arguments Timeout {A}.

Definition bind {A B : Type} (m : res A) (k : A -> res B) : res B :=
  match m with
  | Ok a => k a
  | Exit e => Exit e
  | Undefined => Undefined
  | Timeout => Timeout
  end.

Notation "x <- m ;; k" := (bind m (fun x => k))
  (at level 61, m at next level, right associativity).
Notation "' pat <- m ;; k" := (bind m (fun x => match x with pat => k end))
  (at level 61, pat pattern, m at next level, right associativity).

(** ** Characters, strings and arrays *)

Definition NULL_TERMINATOR : Z := 0.
Definition LOWERCASE_A : Z := 97.
Definition LOWERCASE_Z : Z := 122.
Definition LINE_FEED : Z := 10.
Definition EOF : Z := -1.

Definition WORD_LEN : Z := 5.
Definition WORD_LIMIT : Z := 100000.
Definition MULTIPLIER : Z := 4611686018453.
Definition INITIAL_CAPACITY : Z := 10.

Definition LONG_MAX : Z := 9223372036854775807.
Definition LONG_MIN : Z := -9223372036854775808.

(** A string as the program holds it. *)
Definition word : Type := list Z.

(** [s[i]]: the characters, then the terminator. *)
Definition str_at (s : word) (i : Z) : Z := nth (Z.to_nat i) s NULL_TERMINATOR.

(** Conversion of an [int] to a signed 8-bit [char]. *)
Definition to_char (z : Z) : Z := (z + 128) mod 256 - 128.

(** Conversion to [unsigned char]. *)
Definition to_uchar (z : Z) : Z := z mod 256.

Definition lowercase (c : Z) : Prop := LOWERCASE_A <= c <= LOWERCASE_Z.

(** A Word of the game: [WORD_LEN] lowercase letters. *)
Definition valid_word (w : word) : Prop :=
  Zlength w = WORD_LEN /\ Forall lowercase w.

(** [a[i]], with the index checked against the bounds of the array. *)
Definition aget {A : Type} (a : list A) (i : Z) : res A :=
  if (0 <=? i) && (i <? Zlength a)
  then match nth_error a (Z.to_nat i) with
       | Some x => Ok x
       | None => Undefined
       end
  else Undefined.

Fixpoint replace_nth {A : Type} (n : nat) (a : list A) (x : A) : list A :=
  match a, n with
  | [], _ => []
  | _ :: t, O => x :: t
  | h :: t, S n' => h :: replace_nth n' t x
  end.

(** [a[i] = x], with the index checked against the bounds of the array. *)
Definition aset {A : Type} (a : list A) (i : Z) (x : A) : res (list A) :=
  if (0 <=? i) && (i <? Zlength a)
  then Ok (replace_nth (Z.to_nat i) a x)
  else Undefined.

(** [strcmp]: the difference of the first pair of bytes that differ, read
    as [unsigned char]; callers look at the sign only. *)
Fixpoint strcmp (a b : word) : Z :=
  match a, b with
  | [], [] => 0
  | [], y :: _ => 0 - to_uchar y
  | x :: _, [] => to_uchar x
  | x :: a', y :: b' =>
      if to_uchar x =? to_uchar y then strcmp a' b'
      else to_uchar x - to_uchar y
  end.

(** ** lexicon.c: choosing the target *)

Definition in_long (z : Z) : bool := (LONG_MIN <=? z) && (z <=? LONG_MAX).

(** [a % b] on [long]: truncating remainder, undefined for [b == 0] and
    for [LONG_MIN % -1]. *)
Definition long_rem (a b : Z) : res Z :=
  if b =? 0 then Undefined
  else if (a =? LONG_MIN) && (b =? -1) then Undefined
  else Ok (Z.rem a b).

(** [a * b] on [long]: signed overflow is undefined. *)
Definition long_mul (a b : Z) : res Z :=
  if in_long (a * b) then Ok (a * b) else Undefined.

(** [( seed % wordListLen ) * MULTIPLIER % wordListLen] *)
Definition randomIndex (seed wordListLen : Z) : res Z :=
  r <- long_rem seed wordListLen ;;
  p <- long_mul r MULTIPLIER ;;
  long_rem p wordListLen.

(** The string held by a buffer: its characters up to the first NUL. *)
Fixpoint string_of_buffer (buf : list Z) : word :=
  match buf with
  | [] => []
  | c :: buf' => if c =? NULL_TERMINATOR then [] else c :: string_of_buffer buf'
  end.

(** The copy loop of [chooseWord]: [word[ i ] = chosenWord[ i ]] for
    [i = 0 .. WORD_LEN]. *)
Definition copyWord (chosenWord : word) : word :=
  string_of_buffer
    (map (fun i => str_at chosenWord (Z.of_nat i)) (seq 0 (Z.to_nat (WORD_LEN + 1)))).

Definition chooseWord (seed : Z) (wordList : list word) : res word :=
  randomIndex <- randomIndex seed (Zlength wordList) ;;
  chosenWord <- aget wordList randomIndex ;;
  Ok (copyWord chosenWord).

(** ** io.c: reading one line *)

(** An open file: the bytes not yet read. *)
Definition FILE : Type := list Z.

Definition getc (fp : FILE) : Z * FILE :=
  match fp with
  | [] => (EOF, [])
  | b :: fp' => (b, fp')
  end.

(** [ungetc] pushes the character back as an [unsigned char]. *)
Definition ungetc (ch : Z) (fp : FILE) : FILE := to_uchar ch :: fp.

(** The [for] loop of [readLine]: [k] letters still to read, [str] the
    letters stored so far. *)
Fixpoint readLetters (k : nat) (fp : FILE) (str : word) : res (word * FILE) :=
  match k with
  | O => Ok (str, fp)
  | S k' =>
      let (c, fp) := getc fp in
      let ch := to_char c in
      if (ch <? LOWERCASE_A) || (ch >? LOWERCASE_Z) then Exit InvalidWordFormat
      else readLetters k' fp (str ++ [ch])
  end.

(** [readLine( fp, str, n )]: the flag returned, the string stored in
    [str], and the file afterwards. *)
Definition readLine (fp : FILE) (n : Z) : res (bool * word * FILE) :=
  ' (str, fp) <- readLetters (Z.to_nat n) fp [] ;;
  let (c, fp) := getc fp in
  let ch := to_char c in
  if ch =? EOF then Ok (false, str, fp)
  else if negb (ch =? LINE_FEED) then Exit InvalidWordFormat
  else
    let (c, fp) := getc fp in
    let ch := to_char c in
    if ch =? EOF then Ok (false, str, fp)
    else Ok (true, str, ungetc ch fp).

(** ** lexicon.c: loading *)

(** The [while] loop of [readWords].  [wordList] holds the [wordListLen]
    words stored so far, in an array of [capacity] cells. *)
Fixpoint readWords_loop (fuel : nat) (fp : FILE) (wordList : list word)
    (capacity : Z) : res (list word * Z) :=
  match fuel with
  | O => Timeout
  | S fuel' =>
      ' (getAnotherLine, str, fp) <- readLine fp WORD_LEN ;;
      let wordListLen := Zlength wordList in
      let capacity :=
        if wordListLen =? capacity
        then (if capacity >? Z.quot WORD_LIMIT 2 then WORD_LIMIT else capacity * 2)
        else capacity in
      if wordListLen =? WORD_LIMIT then Exit CapacityExceeded
      else if wordListLen <? capacity then
        let wordList := wordList ++ [str] in
        if getAnotherLine
        then readWords_loop fuel' fp wordList capacity
        else Ok (wordList, capacity)
      else Undefined
  end.

(** [readWords] on the contents of the file: the word list and the
    capacity of its array.  Every pass of the loop consumes input, so the
    length of the file bounds the number of passes. *)
Definition readWords (src : FILE) : res (list word * Z) :=
  readWords_loop (S (length src)) src [] INITIAL_CAPACITY.

(** ** lexicon.c: sorting *)

(** The [while] loop of [merge]; [k] bounds the passes still to run. *)
Fixpoint merge_loop (k : nat) (left : list word) (leftLength : Z)
    (right : list word) (rightLength : Z) (list_ : Datatypes.list word) (n : Z)
    (leftIndex rightIndex : Z) : res (list word) :=
  if leftIndex + rightIndex <? n then
    match k with
    | O => Timeout
    | S k' =>
        takeLeft <-
          (if rightIndex =? rightLength then Ok true
           else if leftIndex <? leftLength then
             l <- aget left leftIndex ;;
             r <- aget right rightIndex ;;
             Ok (strcmp l r <? 0)
           else Ok false) ;;
        if takeLeft : bool then
          x <- aget left leftIndex ;;
          list_ <- aset list_ (leftIndex + rightIndex) x ;;
          merge_loop k' left leftLength right rightLength list_ n
            (leftIndex + 1) rightIndex
        else
          x <- aget right rightIndex ;;
          list_ <- aset list_ (leftIndex + rightIndex) x ;;
          merge_loop k' left leftLength right rightLength list_ n
            leftIndex (rightIndex + 1)
    end
  else Ok list_.

Definition merge (left : list word) (leftLength : Z) (right : list word)
    (rightLength : Z) (list_ : Datatypes.list word) (n : Z) : res (list word) :=
  merge_loop (Z.to_nat n) left leftLength right rightLength list_ n 0 0.

(** The copy loop of [copyArray], from index [i] on, [k] cells to go. *)
Fixpoint copy_loop (k : nat) (origList : list word) (start i : Z)
    : res (list word) :=
  match k with
  | O => Ok []
  | S k' =>
      x <- aget origList (i + start) ;;
      newList <- copy_loop k' origList start (i + 1) ;;
      Ok (x :: newList)
  end.

Definition copyArray (origList : list word) (start end_ : Z) : res (list word) :=
  let newListLen := end_ - start + 1 in
  copy_loop (Z.to_nat newListLen) origList start 0.

Definition leftLength_of (n : Z) : Z := Z.quot n 2.

Definition rightLength_of (n : Z) : Z :=
  if Z.rem n 2 =? 0 then Z.quot n 2 else Z.quot n 2 + 1.

(** [mergeSort( list, n )]; [fuel] bounds the depth of the recursion. *)
Fixpoint mergeSort (fuel : nat) (list_ : Datatypes.list word) (n : Z) : res (list word) :=
  if negb (n =? 1) then
    match fuel with
    | O => Timeout
    | S fuel' =>
        let mid := Z.quot n 2 in
        let leftLength := leftLength_of n in
        let rightLength := rightLength_of n in
        left <- copyArray list_ 0 (mid - 1) ;;
        right <- copyArray list_ mid (n - 1) ;;
        left <- mergeSort fuel' left leftLength ;;
        right <- mergeSort fuel' right rightLength ;;
        merge left leftLength right rightLength list_ n
    end
  else Ok list_.

(** The neighbour scan of [sort], from index [i] on, [k] pairs to go. *)
Fixpoint check_neighbours (k : nat) (wordList : list word) (i : Z) : res unit :=
  match k with
  | O => Ok tt
  | S k' =>
      a <- aget wordList i ;;
      b <- aget wordList (i + 1) ;;
      if strcmp a b =? 0 then Exit DuplicateWord
      else check_neighbours k' wordList (i + 1)
  end.

Definition sort (fuel : nat) (wordList : list word) : res (list word) :=
  let wordListLen := Zlength wordList in
  wordList <- mergeSort fuel wordList wordListLen ;;
  _ <- check_neighbours (Z.to_nat (wordListLen - 1)) wordList 0 ;;
  Ok wordList.

(** ** lexicon.c: membership *)

Equations? binarySearch (wordList : list word) (w : word) (low high : Z)
    : res bool by wf (Z.to_nat (high - low + 1)) lt :=
  binarySearch wordList w low high with Z_gt_dec low high := {
    | left _ := Ok false
    | right _ with aget wordList (Z.quot (low + high) 2) := {
        | Ok x with Z.compare (strcmp x w) 0 := {
            | Eq := Ok true
            | Gt := binarySearch wordList w low (Z.quot (low + high) 2 - 1)
            | Lt := binarySearch wordList w (Z.quot (low + high) 2 + 1) high }
        | Exit e := Exit e
        | Undefined := Undefined
        | Timeout := Timeout } }.
Proof.
  all: pose proof (Z.quot_rem' (low + high) 2);
    pose proof (Z.rem_bound_abs (low + high) 2); lia.
Qed.

Definition inList (w : word) (wordList : list word) : res bool :=
  binarySearch wordList w 0 (Zlength wordList - 1).

(** ** wordle.c: start-up *)

(** The part of [main] between the argument check and the game loop:
    [readWords], [chooseWord], [sort], in the order of the source.  The
    result is the target word and the word list the game loop searches. *)
Definition startup (fuel : nat) (src : FILE) (seed : Z) : res (word * list word) :=
  ' (wordList, _) <- readWords src ;;
  targetWord <- chooseWord seed wordList ;;
  wordList <- sort fuel wordList ;;
  Ok (targetWord, wordList).

(** ** wordle.c: feedback *)

Inductive color : Type := green | yellow | defaultColor.

Definition color_eqb (a b : color) : bool :=
  match a, b with
  | green, green | yellow, yellow | defaultColor, defaultColor => true
  | _, _ => false
  end.

(** What [processWord] writes to the terminal: a colour escape sequence
    ([colorGreen], [colorYellow], [colorDefault]) or one character. *)
Inductive output : Type :=
| Escape (c : color)
| Putc (ch : Z).

(** [if ( currentColor != c ) { colorC(); currentColor = c; }] *)
Definition set_color (currentColor c : color) : list output :=
  if color_eqb currentColor c then [] else [Escape c].

(** [targetLetterUsed]: [WORD_LEN] cells, not initialised when declared. *)
Definition flags : Type := list (option bool).

Definition read_flag (targetLetterUsed : flags) (j : Z) : res bool :=
  cell <- aget targetLetterUsed j ;;
  match cell with
  | Some b => Ok b
  | None => Undefined
  end.

Section ForString.
Context {S : Type} (body : Z -> Z -> S -> res S).

(** [for ( int i = 0; s[ i ]; i++ ) body]: [s] is what is left of the
    string from index [i] on, [body] receives [i] and [s[i]]. *)
Fixpoint for_str (s : word) (i : Z) (st : S) : res S :=
  match s with
  | [] => Ok st
  | c :: s' =>
      if c =? NULL_TERMINATOR then Ok st
      else st <- body i c st ;; for_str s' (i + 1) st
  end.
End ForString.

(** The inner loop of [processWord] for the character [userChar]: [t] is
    what is left of [targetWord] from index [j] on.  The flag returned is
    [charYellowPrinted]. *)
Fixpoint scan_target (userChar : Z) (t : word) (j : Z) (targetLetterUsed : flags)
    : res (flags * bool) :=
  match t with
  | [] => Ok (targetLetterUsed, false)
  | c :: t' =>
      if c =? NULL_TERMINATOR then Ok (targetLetterUsed, false)
      else
        hit <-
          (if userChar =? c then
             used <- read_flag targetLetterUsed j ;; Ok (negb used)
           else Ok false) ;;
        if hit : bool then
          targetLetterUsed <- aset targetLetterUsed j (Some true) ;;
          Ok (targetLetterUsed, true)
        else scan_target userChar t' (j + 1) targetLetterUsed
  end.

(** One pass of the main loop of [processWord]. *)
Definition processLetter (targetWord : word) (i ch : Z)
    (st : flags * color * list output) : res (flags * color * list output) :=
  let '(targetLetterUsed, currentColor, out) := st in
  if ch =? str_at targetWord i then
    Ok (targetLetterUsed, green, out ++ set_color currentColor green ++ [Putc ch])
  else
    ' (targetLetterUsed, charYellowPrinted) <-
      scan_target ch targetWord 0 targetLetterUsed ;;
    if charYellowPrinted : bool then
      Ok (targetLetterUsed, yellow,
          out ++ set_color currentColor yellow ++ [Putc ch])
    else
      Ok (targetLetterUsed, defaultColor,
          out ++ set_color currentColor defaultColor ++ [Putc ch]).

Definition processWord (userWord targetWord : word) : res (list output) :=
  targetLetterUsed <-
    for_str (fun i ch used => aset used i (Some (ch =? str_at targetWord i)))
      userWord 0 (repeat None (Z.to_nat WORD_LEN)) ;;
  ' (_, currentColor, out) <-
    for_str (processLetter targetWord) userWord 0
      (targetLetterUsed, defaultColor, []) ;;
  Ok (out ++ set_color currentColor defaultColor ++ [Putc LINE_FEED]).

(** How the terminal shows the output: every character written, with the
    colour in force when it was written. *)
Fixpoint shown (current : color) (out : list output) : list (Z * color) :=
  match out with
  | [] => []
  | Escape c :: out' => shown c out'
  | Putc ch :: out' => (ch, current) :: shown current out'
  end.

(** ** wordle.c: the seed argument *)

Definition NUMBER_0 : Z := 48.
Definition NUMBER_9 : Z := 57.
Definition BASE_10 : Z := 10.

(** The value that a [long] holds when an operation on [long]s has the
    mathematical result [z].  [getSeed] multiplies and adds without a
    check beforehand and then asks whether the product has gone negative:
    it counts on the wrap-around of the 64-bit two's complement
    arithmetic that the compiled code performs, so that is what these
    operations are given here. *)
Definition to_long (z : Z) : Z := (z - LONG_MIN) mod 2 ^ 64 + LONG_MIN.

(** How [getSeed] ends: it stores a seed, or calls [printUsageError]
    (which exits). *)
Inductive seed_outcome : Type :=
| Seed (seed : Z)
| UsageError.

(** The loop of [getSeed], [str] being what is left of the argument. *)
Fixpoint getSeed_loop (str : word) (seed : Z) : seed_outcome :=
  match str with
  | [] => Seed seed
  | digit :: str' =>
      if digit =? NULL_TERMINATOR then Seed seed
      else if (digit <? NUMBER_0) || (digit >? NUMBER_9) then UsageError
      else
        let seed := to_long (seed * BASE_10) in
        if seed <? 0 then UsageError
        else getSeed_loop str' (to_long (seed + (digit - NUMBER_0)))
  end.

Definition getSeed (str : word) : seed_outcome := getSeed_loop str 0.

(** ** history.c *)

Definition MAX_NUM_GUESSES : Z := 10.
Definition SPACE_CHAR : Z := 32.
Definition INT_MAX : Z := 2147483647.
Definition INT_MIN : Z := -2147483648.

(** The value of an [int] operation: signed overflow is undefined. *)
Definition int_op (z : Z) : res Z :=
  if (INT_MIN <=? z) && (z <=? INT_MAX) then Ok z else Undefined.

(** [while( ch == SPACE_CHAR ) ch = getc( file );], entered with [ch]:
    the first character that is no space, and the file behind it.  At the
    end of the file [getc] yields [EOF], which is no space. *)
Fixpoint skipSpaces (ch : Z) (file : FILE) : Z * FILE :=
  if ch =? SPACE_CHAR then
    match file with
    | [] => (to_char EOF, [])
    | b :: file' => skipSpaces (to_char b) file'
    end
  else (ch, file).

(** The digit loop of [nextInt], entered with [ch]; the character that
    ends the number has been read and is not given back. *)
Fixpoint parseInt (ch : Z) (file : FILE) (returnValue : Z) : res (Z * FILE) :=
  if (ch >=? NUMBER_0) && (ch <=? NUMBER_9) then
    product <- int_op (returnValue * BASE_10) ;;
    returnValue <- int_op (product + (ch - NUMBER_0)) ;;
    match file with
    | [] => Ok (returnValue, [])
    | b :: file' => parseInt (to_char b) file' returnValue
    end
  else Ok (returnValue, file).

Definition nextInt (file : FILE) : res (Z * FILE) :=
  let (c, file) := getc file in
  let (ch, file) := skipSpaces (to_char c) file in
  parseInt ch file 0.

(** [for ( i = 0; i < k; i++ ) scores[ i ] = nextInt( fp );] *)
Fixpoint readScores (k : nat) (fp : FILE) : res (list Z * FILE) :=
  match k with
  | O => Ok ([], fp)
  | S k' =>
      ' (score, fp) <- nextInt fp ;;
      ' (scores, fp) <- readScores k' fp ;;
      Ok (score :: scores, fp)
  end.

(** [scores[ i ]++] *)
Definition incrementScore (scores : list Z) (i : Z) : res (list Z) :=
  score <- aget scores i ;;
  score <- int_op (score + 1) ;;
  aset scores i score.

(** The decimal digits of a number below [10 ^ fuel]. *)
Fixpoint digits_of (fuel : nat) (n : Z) : list Z :=
  match fuel with
  | O => []
  | S fuel' =>
      if n <? BASE_10 then [NUMBER_0 + n]
      else digits_of fuel' (n / BASE_10) ++ [NUMBER_0 + n mod BASE_10]
  end.

(** [printf( "%d", n )] for an [int]. *)
Definition print_d (n : Z) : list Z :=
  if n <? 0 then 45 :: digits_of 10 (- n) else digits_of 10 n.

(** [printf( "%<width>d", n )]: padded with spaces on the left. *)
Definition print_wd (width : nat) (n : Z) : list Z :=
  repeat SPACE_CHAR (width - length (print_d n)) ++ print_d n.

(** The text [fopen]'s replacement for a missing file holds:
    "0 0 0 0 0 0 0 0 0 0". *)
Definition zero_scores : FILE :=
  [48; 32; 48; 32; 48; 32; 48; 32; 48; 32; 48; 32; 48; 32; 48; 32; 48; 32; 48].

(** The first printing loop of [updateScore], from row [i] on, [k] rows
    to go: what goes to [stdout] and what goes to the file. *)
Fixpoint printRows (k : nat) (scores : list Z) (i : Z) : res (list Z * FILE) :=
  match k with
  | O => Ok ([], [])
  | S k' =>
      score <- aget scores i ;;
      ' (out, file) <- printRows k' scores (i + 1) ;;
      Ok (print_wd 2 (i + 1) ++ [32; 32; 58; 32] ++ print_wd 4 score ++ [LINE_FEED] ++ out,
          print_d score ++ [SPACE_CHAR] ++ file)
  end.

(** [updateScore( guessCount )], given the contents of "scores.txt" if the
    file exists: what is printed and the new contents of the file. *)
Definition updateScore (guessCount : Z) (scores_txt : option FILE)
    : res (list Z * FILE) :=
  let fp := match scores_txt with Some f => f | None => zero_scores end in
  ' (scores, _) <- readScores (Z.to_nat MAX_NUM_GUESSES) fp ;;
  scores <-
    (if guessCount <? MAX_NUM_GUESSES
     then incrementScore scores (guessCount - 1)
     else incrementScore scores (MAX_NUM_GUESSES - 1)) ;;
  ' (out, file) <- printRows (Z.to_nat (MAX_NUM_GUESSES - 1)) scores 0 ;;
  last_score <- aget scores (MAX_NUM_GUESSES - 1) ;;
  Ok (out ++ print_wd 2 MAX_NUM_GUESSES ++ [43; 32; 58; 32]
          ++ print_wd 4 last_score ++ [LINE_FEED],
      file ++ print_d last_score ++ [LINE_FEED]).

(** ** wordle.c: the game loop *)

Definition CARRIAGE_RETURN : Z := 13.

(** "quit" *)
Definition quit_command : word := [113; 117; 105; 116].

(** The loop of [main] that reads one line of [stdin] into [userWord]:
    the character that ended the line, the input left, the buffer, the
    number of characters read and the validity flag. *)
Fixpoint readGuess (stdin : FILE) (userWord : list Z) (userWordLen : Z)
    (wordIsValid : bool) : res (Z * FILE * list Z * Z * bool) :=
  match stdin with
  | [] => Ok (to_char EOF, [], userWord, userWordLen, wordIsValid)
  | b :: stdin' =>
      let letter := to_char b in
      if (letter =? LINE_FEED) || (letter =? EOF) || (letter =? CARRIAGE_RETURN)
      then Ok (letter, stdin', userWord, userWordLen, wordIsValid)
      else
        let wordIsValid :=
          if (letter <? LOWERCASE_A) || (letter >? LOWERCASE_Z) then false
          else wordIsValid in
        let userWord :=
          if userWordLen <? WORD_LEN
          then replace_nth (Z.to_nat userWordLen) userWord letter
          else userWord in
        userWordLen <- int_op (userWordLen + 1) ;;
        readGuess stdin' userWord userWordLen wordIsValid
  end.

(** How one pass of the inner loop of [main] ends. *)
Inductive attempt : Type :=
| QuitGame                                  (* "The word was ..."; exit *)
| InvalidGuess (stdin : FILE)               (* "Invalid guess" *)
| ValidGuess (userWord : word) (stdin : FILE).

(** One pass of the inner loop of [main].  [userWord] has [WORD_LEN + 1]
    cells; the program writes the first [WORD_LEN] only, so the last one
    keeps whatever value [last_cell] the stack held. *)
Definition guessAttempt (last_cell : Z) (wordList : list word) (stdin : FILE)
    : res attempt :=
  let userWord := repeat NULL_TERMINATOR (Z.to_nat WORD_LEN) ++ [last_cell] in
  ' (letter, stdin, userWord, userWordLen, wordIsValid) <-
    readGuess stdin userWord 0 true ;;
  let userWord := string_of_buffer userWord in
  if (letter =? EOF) || (strcmp quit_command userWord =? 0) then Ok QuitGame
  else
    let wordIsValid := if negb (userWordLen =? WORD_LEN) then false else wordIsValid in
    wordIsValid <- (if wordIsValid : bool then inList userWord wordList else Ok false) ;;
    if wordIsValid : bool then Ok (ValidGuess userWord stdin)
    else Ok (InvalidGuess stdin).

(** What the game prints. *)
Inductive message : Type :=
| InvalidGuessLine                 (* "Invalid guess" *)
| FeedbackLine (out : list output) (* the output of [processWord] *)
| TheWordWas (targetWord : word)   (* "The word was ..." *)
| SolvedIn (numValidGuesses : Z).  (* "Solved in ... guess(es)" *)

(** The two loops of [main]: the messages printed and, when the word was
    found, the number of valid guesses handed to [updateScore]. *)
Fixpoint play (fuel : nat) (last_cell : Z) (wordList : list word)
    (targetWord : word) (stdin : FILE) (numValidGuesses : Z)
    : res (list message * option Z) :=
  match fuel with
  | O => Timeout
  | S fuel' =>
      a <- guessAttempt last_cell wordList stdin ;;
      match a with
      | QuitGame => Ok ([TheWordWas targetWord], None)
      | InvalidGuess stdin =>
          ' (log, n) <- play fuel' last_cell wordList targetWord stdin numValidGuesses ;;
          Ok (InvalidGuessLine :: log, n)
      | ValidGuess userWord stdin =>
          if strcmp userWord targetWord =? 0 then
            numValidGuesses <- int_op (numValidGuesses + 1) ;;
            Ok ([SolvedIn numValidGuesses], Some numValidGuesses)
          else
            out <- processWord userWord targetWord ;;
            numValidGuesses <- int_op (numValidGuesses + 1) ;;
            ' (log, n) <- play fuel' last_cell wordList targetWord stdin numValidGuesses ;;
            Ok (FeedbackLine out :: log, n)
      end
  end.

(** ** The specification's side *)

Module Spec.

(** Lexicographic order of the character sequences. *)
Fixpoint lex_lt (a b : word) : Prop :=
  match a, b with
  | _, [] => False
  | [], _ :: _ => True
  | x :: a', y :: b' => x < y \/ (x = y /\ lex_lt a' b')
  end.

(** "sorted[i] < sorted[i+1] for all adjacent pairs" *)
Definition strictly_ascending (l : list word) : Prop := Sorted lex_lt l.

(** "index = (seed mod n) * M mod n", over the integers. *)
Definition index (seed n : Z) : Z := ((seed mod n) * MULTIPLIER) mod n.

(** The word source format: each record followed by a line terminator,
    which the final record may omit. *)
Fixpoint render (records : list word) (final_terminator : bool) : FILE :=
  match records with
  | [] => []
  | [r] => r ++ (if final_terminator then [LINE_FEED] else [])
  | r :: rest => r ++ LINE_FEED :: render rest final_terminator
  end.


(** Capacities reached from the initial one by doubling, capped at the
    maximum. *)
Definition grown (k : nat) : Z :=
  Z.min (INITIAL_CAPACITY * 2 ^ Z.of_nat k) WORD_LIMIT.

(** The capacity that holds [n] words: the first of [grown 0],
    [grown 1], ... that is large enough. *)
Definition holds (capacity n : Z) : Prop :=
  exists k : nat,
    capacity = grown k /\ n <= capacity /\ (k = O \/ grown (Nat.pred k) < n).

Inductive PerLetterResult : Type := Correct | Present | Absent.

Definition letter (w : word) (i : nat) : Z := nth i w 0.

(** The Letter-Tie Table and the result under construction. *)
Definition state : Type := (list bool * list (option PerLetterResult))%type.

(** First pass, at position [i]. *)
Definition first_pass_at (guess target : word) (st : state) (i : nat) : state :=
  if letter guess i =? letter target i
  then (replace_nth i (fst st) true, replace_nth i (snd st) (Some Correct))
  else st.

(** The lowest position among [js] that holds [g] and is not claimed. *)
Fixpoint first_unclaimed (g : Z) (target : word) (table : list bool)
    (js : list nat) : option nat :=
  match js with
  | [] => None
  | j :: js' =>
      if (g =? letter target j) && negb (nth j table false) then Some j
      else first_unclaimed g target table js'
  end.

(** Second pass, at position [i]. *)
Definition second_pass_at (guess target : word) (st : state) (i : nat) : state :=
  match nth i (snd st) None with
  | Some Correct => st
  | _ =>
      match first_unclaimed (letter guess i) target (fst st)
              (seq 0 (length target)) with
      | Some j =>
          (replace_nth j (fst st) true, replace_nth i (snd st) (Some Present))
      | None => st
      end
  end.

(** "Any position not resolved by steps 2-3 is Absent." *)
Definition resolved (r : option PerLetterResult) : PerLetterResult :=
  match r with
  | Some x => x
  | None => Absent
  end.

Definition classify (guess target : word) : list PerLetterResult :=
  let L := length target in
  let st0 := (repeat false L, repeat None L) in
  let st1 := fold_left (first_pass_at guess target) (seq 0 L) st0 in
  let st2 := fold_left (second_pass_at guess target) (seq 0 L) st1 in
  map resolved (snd st2).

End Spec.

(** Colours and classifications: green is Correct, yellow is Present, the
    default colour is Absent. *)
Definition color_of (r : Spec.PerLetterResult) : color :=
  match r with
  | Spec.Correct => green
  | Spec.Present => yellow
  | Spec.Absent => defaultColor
  end.

(** ** Auxiliary definitions of the proofs *)

(** Merging two lists by repeated comparison of their heads, the right
    head winning a tie. *)
Fixpoint merged (l : list word) : list word -> list word :=
  fix merged_r (r : list word) : list word :=
    match l, r with
    | [], _ => r
    | _, [] => l
    | a :: l', b :: r' =>
        if strcmp a b <? 0 then a :: merged l' r else b :: merged_r r'
    end.

(** Claiming the first free cell of the table that faces the letter [g]. *)
Fixpoint claim (g : Z) (target : word) (used : list bool) : option (list bool) :=
  match target, used with
  | t :: target', u :: used' =>
      if (g =? t) && negb u then Some (true :: used')
      else option_map (cons u) (claim g target' used')
  | _, _ => None
  end.

(** The classification of the pairs (guess letter, facing target letter)
    that are left, given the table. *)
Fixpoint classify_from (target : word) (pairs : list (Z * Z)) (used : list bool)
    : list Spec.PerLetterResult :=
  match pairs with
  | [] => []
  | (g, t) :: rest =>
      if g =? t then Spec.Correct :: classify_from target rest used
      else
        match claim g target used with
        | Some used' => Spec.Present :: classify_from target rest used'
        | None => Spec.Absent :: classify_from target rest used
        end
  end.

Definition exact_matches (guess target : word) : list bool :=
  map (fun p => fst p =? snd p) (combine guess target).

Definition classification (guess target : word) : list Spec.PerLetterResult :=
  classify_from target (combine guess target) (exact_matches guess target).

(** Number of positions of [guess] that hold [c] and are not Absent. *)
Fixpoint matched (c : Z) (guess : word) (rs : list Spec.PerLetterResult) : Z :=
  match guess, rs with
  | g :: guess', r :: rs' =>
      (if (g =? c) && negb (match r with Spec.Absent => true | _ => false end)
       then 1 else 0) + matched c guess' rs'
  | _, _ => 0
  end.

Definition occurrences (c : Z) (w : word) : Z :=
  Zlength (filter (fun x => x =? c) w).

(** A byte of a file other than 0xFF, the one byte that the [char] of
    [readLine] cannot tell from [EOF]. *)
Definition plain_byte (b : Z) : Prop := 0 <= b < 255.


(** What [readLine] sees of a file: the bytes in front of the first byte
    0xFF, which its [char] cannot tell from [EOF]. *)
Fixpoint seen (src : FILE) : FILE :=
  match src with
  | [] => []
  | b :: src' => if b =? 255 then [] else b :: seen src'
  end.

(** Records each followed by a line feed. *)
Definition lines (records : list word) : FILE :=
  concat (map (fun r => r ++ [LINE_FEED]) records).

(** The order that [merge] maintains: not above. *)
Definition word_le (a b : word) : Prop := ~ Spec.lex_lt b a.

(** Every word of the list is made of lowercase letters. *)
Definition all_letters (l : list word) : Prop := Forall (Forall lowercase) l.

(** The classification that a colour stands for. *)
Definition result_of (c : color) : Spec.PerLetterResult :=
  match c with
  | green => Spec.Correct
  | yellow => Spec.Present
  | defaultColor => Spec.Absent
  end.

(** The per-letter classification read off the terminal: the colours of
    the characters shown, the closing line feed left out. *)
Definition feedback (out : list output) : list Spec.PerLetterResult :=
  map (fun p => result_of (snd p)) (removelast (shown defaultColor out)).

(** The colour in force after some output. *)
Fixpoint color_after (current : color) (out : list output) : color :=
  match out with
  | [] => current
  | Escape c :: out' => color_after c out'
  | Putc _ :: out' => color_after current out'
  end.

(** Number of cells of the table that face the letter [c] and are free. *)
Fixpoint free (c : Z) (target : word) (used : list bool) : Z :=
  match target, used with
  | t :: target', u :: used' =>
      (if (c =? t) && negb u then 1 else 0) + free c target' used'
  | _, _ => 0
  end.

(** Number of pairs in which the guess letter is [c] and is, respectively
    is not, the target letter it faces. *)
Fixpoint exact (c : Z) (pairs : list (Z * Z)) : Z :=
  match pairs with
  | [] => 0
  | (g, t) :: rest => (if (g =? c) && (g =? t) then 1 else 0) + exact c rest
  end.

Fixpoint inexact (c : Z) (pairs : list (Z * Z)) : Z :=
  match pairs with
  | [] => 0
  | (g, t) :: rest => (if (g =? c) && negb (g =? t) then 1 else 0) + inexact c rest
  end.

(** A string without an inner NUL. *)
Definition nonzero (w : word) : Prop := Forall (fun c => c <> NULL_TERMINATOR) w.

(** The results that the first pass leaves: Correct where the letters
    match, nothing elsewhere. *)
Definition correct_marks (matches : list bool) : list (option Spec.PerLetterResult) :=
  map (fun b : bool => if b then Some Spec.Correct else None) matches.

(** A decimal digit. *)
Definition is_digit (c : Z) : Prop := NUMBER_0 <= c <= NUMBER_9.

(** The number that the digits [ds] spell behind the number [v]. *)
Definition decimal_from (v : Z) (ds : list Z) : Z :=
  fold_left (fun v d => v * BASE_10 + (d - NUMBER_0)) ds v.

(** The text that [updateScore] writes for scores that are followed by
    further scores: each number and a space. *)
Definition scores_text (scores : list Z) : FILE :=
  concat (map (fun score => print_d score ++ [SPACE_CHAR]) scores).

(** The bucket of the histogram that counts games of [guessCount]
    guesses. *)
Definition bucket (guessCount : Z) : Z := Z.min guessCount MAX_NUM_GUESSES - 1.

(** A byte that does not end a line of [stdin]. *)
Definition line_byte (b : Z) : Prop :=
  to_char b <> LINE_FEED /\ to_char b <> EOF /\ to_char b <> CARRIAGE_RETURN.

(** A byte typed on a line: not NUL, not 0xFF, not a line terminator. *)
Definition typed (b : Z) : Prop :=
  0 < b < 255 /\ b <> LINE_FEED /\ b <> CARRIAGE_RETURN.


(** A value of a [char] other than NUL. *)
Definition cchar (c : Z) : Prop := -128 <= c <= 127 /\ c <> 0.

(** The buffer [userWord] after the characters [chars] have been read,
    [userWordLen] characters having been read before. *)
Fixpoint typed_into (userWord : list Z) (userWordLen : Z) (chars : list Z) : list Z :=
  match chars with
  | [] => userWord
  | c :: chars' =>
      typed_into
        (if userWordLen <? WORD_LEN
         then replace_nth (Z.to_nat userWordLen) userWord c else userWord)
        (userWordLen + 1) chars'
  end.


Definition is_lowercase (c : Z) : bool :=
  negb ((c <? LOWERCASE_A) || (c >? LOWERCASE_Z)).

(** Number of feedback lines among the messages. *)
Fixpoint feedback_lines (log : list message) : Z :=
  match log with
  | [] => 0
  | FeedbackLine _ :: log' => 1 + feedback_lines log'
  | _ :: log' => feedback_lines log'
  end.

(** A message printed before the game ends: "Invalid guess", or the
    feedback for a word of the list that is not the target. *)
Definition round_message (wordList : list word) (targetWord : word) (m : message)
    : Prop :=
  match m with
  | InvalidGuessLine => True
  | FeedbackLine out =>
      exists w, In w wordList /\ w <> targetWord /\ processWord w targetWord = Ok out
  | _ => False
  end.

Definition is_correct (r : Spec.PerLetterResult) : bool :=
  match r with
  | Spec.Correct => true
  | _ => false
  end.

(** * Proofs *)

(** ** Arrays *)

Lemma Zlength_nat {A : Type} (l : list A) : Zlength l = Z.of_nat (length l).
Proof. apply Zlength_correct. Qed.

(** Lengths as natural numbers, for [lia]. *)
Ltac zlen :=
  rewrite ?Zlength_nat in *;
  repeat (rewrite ?length_app, ?length_cons, ?length_map, ?repeat_length,
            ?length_seq, ?length_firstn, ?length_skipn in *;
          cbn [length] in *).

Lemma aget_nth_error {A : Type} (a : list A) (i : Z) (x : A) :
  aget a i = Ok x <-> 0 <= i < Zlength a /\ nth_error a (Z.to_nat i) = Some x.
Proof.
  unfold aget.
  destruct (0 <=? i) eqn:H0; destruct (i <? Zlength a) eqn:H1; simpl;
    try (split; [discriminate | intros [? _]; lia]).
  destruct (nth_error a (Z.to_nat i)) eqn:E.
  - split; [intros [= ->]; split; [lia | reflexivity] | intros [_ [= ->]]; reflexivity].
  - split; [discriminate | intros [_ ?]; discriminate].
Qed.

Lemma aget_in_range {A : Type} (a : list A) (i : Z) :
  0 <= i < Zlength a -> exists x, aget a i = Ok x.
Proof.
  intros Hi. destruct (nth_error a (Z.to_nat i)) eqn:E.
  - exists a0. apply aget_nth_error. auto.
  - apply nth_error_None in E. rewrite Zlength_nat in Hi. lia.
Qed.

Lemma aget_middle {A : Type} (pre post : list A) (x : A) :
  aget (pre ++ x :: post) (Zlength pre) = Ok x.
Proof.
  apply aget_nth_error. split.
  - zlen. lia.
  - rewrite Zlength_nat, Nat2Z.id, nth_error_app2 by lia.
    rewrite Nat.sub_diag. reflexivity.
Qed.

Lemma replace_nth_middle {A : Type} (pre post : list A) (x y : A) :
  replace_nth (length pre) (pre ++ y :: post) x = pre ++ x :: post.
Proof. induction pre as [|h pre IH]; simpl; [reflexivity | now rewrite IH]. Qed.

Lemma replace_nth_at {A : Type} (n : nat) (pre post : list A) (x y : A) :
  n = length pre -> replace_nth n (pre ++ y :: post) x = pre ++ x :: post.
Proof. intros ->. apply replace_nth_middle. Qed.

Lemma nth_at {A : Type} (n : nat) (pre post : list A) (x d : A) :
  n = length pre -> nth n (pre ++ x :: post) d = x.
Proof. intros ->. apply nth_middle. Qed.

Lemma replace_nth_length {A : Type} (n : nat) (a : list A) (x : A) :
  length (replace_nth n a x) = length a.
Proof.
  revert n. induction a as [|h a IH]; intros [|n]; simpl; auto.
Qed.

Lemma aset_middle {A : Type} (pre post : list A) (x y : A) :
  aset (pre ++ y :: post) (Zlength pre) x = Ok (pre ++ x :: post).
Proof.
  unfold aset.
  replace (0 <=? Zlength pre) with true by (symmetry; apply Z.leb_le; zlen; lia).
  replace (Zlength pre <? Zlength (pre ++ y :: post)) with true
    by (symmetry; apply Z.ltb_lt; zlen; lia).
  simpl. rewrite Zlength_nat, Nat2Z.id, replace_nth_middle. reflexivity.
Qed.

(** ** Characters and [strcmp] *)

Lemma to_char_small (c : Z) : -128 <= c <= 127 -> to_char c = c.
Proof. intros H. unfold to_char. rewrite Z.mod_small; lia. Qed.

Lemma to_uchar_small (c : Z) : 0 <= c <= 255 -> to_uchar c = c.
Proof. intros H. unfold to_uchar. rewrite Z.mod_small; lia. Qed.

Lemma lowercase_uchar (c : Z) : lowercase c -> to_uchar c = c.
Proof. unfold lowercase, LOWERCASE_A, LOWERCASE_Z. intros H. apply to_uchar_small. lia. Qed.

Lemma lowercase_char (c : Z) : lowercase c -> to_char c = c.
Proof. unfold lowercase, LOWERCASE_A, LOWERCASE_Z. intros H. apply to_char_small. lia. Qed.

Lemma valid_word_letters (w : word) : valid_word w -> Forall lowercase w.
Proof. intros [_ H]. exact H. Qed.

(** On words made of letters the sign of [strcmp] is the lexicographic
    order. *)
Lemma strcmp_lt (a b : word) :
  Forall lowercase a -> Forall lowercase b ->
  (strcmp a b < 0 <-> Spec.lex_lt a b).
Proof.
  intros Ha. revert b. induction Ha as [|x a Hx Ha IH]; intros b Hb.
  - destruct Hb as [|y b Hy Hb]; simpl; [lia|].
    rewrite (lowercase_uchar y Hy). unfold lowercase, LOWERCASE_A in Hy.
    split; [trivial | lia].
  - destruct Hb as [|y b Hy Hb]; simpl.
    + rewrite (lowercase_uchar x Hx). unfold lowercase, LOWERCASE_A in Hx. lia.
    + rewrite (lowercase_uchar x Hx), (lowercase_uchar y Hy).
      destruct (x =? y) eqn:E.
      * apply Z.eqb_eq in E. rewrite (IH b Hb). split; [right; auto | intros [?|[_ ?]]; [lia | auto]].
      * apply Z.eqb_neq in E. split; [left; lia | intros [?|[? _]]; lia].
Qed.

Lemma strcmp_eq (a b : word) :
  Forall lowercase a -> Forall lowercase b -> (strcmp a b = 0 <-> a = b).
Proof.
  intros Ha. revert b. induction Ha as [|x a Hx Ha IH]; intros b Hb.
  - destruct Hb as [|y b Hy Hb]; simpl; [tauto|].
    rewrite (lowercase_uchar y Hy). unfold lowercase, LOWERCASE_A in Hy.
    split; [lia | discriminate].
  - destruct Hb as [|y b Hy Hb]; simpl.
    + rewrite (lowercase_uchar x Hx). unfold lowercase, LOWERCASE_A in Hx.
      split; [lia | discriminate].
    + rewrite (lowercase_uchar x Hx), (lowercase_uchar y Hy).
      destruct (x =? y) eqn:E.
      * apply Z.eqb_eq in E. subst y. rewrite (IH b Hb).
        split; [intros ->; reflexivity | intros [= ->]; reflexivity].
      * apply Z.eqb_neq in E. split; [lia | intros [= ? _]; contradiction].
Qed.

Lemma strcmp_gt (a b : word) :
  Forall lowercase a -> Forall lowercase b ->
  (strcmp a b > 0 <-> Spec.lex_lt b a).
Proof.
  intros Ha. revert b. induction Ha as [|x a Hx Ha IH]; intros b Hb.
  - destruct Hb as [|y b Hy Hb]; simpl; [lia|].
    rewrite (lowercase_uchar y Hy). unfold lowercase, LOWERCASE_A in Hy. lia.
  - destruct Hb as [|y b Hy Hb]; simpl.
    + rewrite (lowercase_uchar x Hx). unfold lowercase, LOWERCASE_A in Hx.
      split; [trivial | lia].
    + rewrite (lowercase_uchar x Hx), (lowercase_uchar y Hy).
      destruct (x =? y) eqn:E.
      * apply Z.eqb_eq in E. rewrite (IH b Hb). split; [right; auto | intros [?|[_ ?]]; [lia | auto]].
      * apply Z.eqb_neq in E. split; [left; lia | intros [?|[? _]]; lia].
Qed.

Lemma lex_lt_irrefl (a : word) : ~ Spec.lex_lt a a.
Proof. induction a as [|x a IH]; simpl; [tauto | intros [?|[_ ?]]; [lia | auto]]. Qed.

Lemma lex_lt_trans (a b c : word) :
  Spec.lex_lt a b -> Spec.lex_lt b c -> Spec.lex_lt a c.
Proof.
  revert b c. induction a as [|x a IH]; intros [|y b] [|z c]; simpl; try tauto.
  intros [H1|[H1 H1']] [H2|[H2 H2']]; try (left; lia).
  right. split; [lia | eauto].
Qed.

Lemma lex_lt_total (a b : word) : Spec.lex_lt a b \/ a = b \/ Spec.lex_lt b a.
Proof.
  revert b. induction a as [|x a IH]; intros [|y b]; simpl; auto.
  destruct (Z.lt_trichotomy x y) as [H|[H|H]]; auto.
  subst y. destruct (IH b) as [H|[H|H]]; auto. subst b. auto.
Qed.

(** ** Choosing the target *)

Lemma copyWord_valid (w : word) : valid_word w -> copyWord w = w.
Proof.
  intros [Hlen Hall]. unfold WORD_LEN in Hlen. zlen.
  destruct w as [|a [|b [|c [|d [|e [|f w]]]]]]; simpl in Hlen; try lia.
  repeat match goal with
         | H : Forall _ (_ :: _) |- _ => inversion H; subst; clear H
         end.
  unfold lowercase, LOWERCASE_A, LOWERCASE_Z in *.
  unfold copyWord, str_at. simpl.
  repeat match goal with
         | |- context [?x =? NULL_TERMINATOR] =>
             replace (x =? NULL_TERMINATOR) with false
               by (symmetry; apply Z.eqb_neq; unfold NULL_TERMINATOR; lia)
         end.
  reflexivity.
Qed.

(** For a word count within the limit and a non-negative seed the three
    [long] operations of [chooseWord] are defined and exact. *)
Lemma randomIndex_exact (seed n : Z) :
  1 <= n <= WORD_LIMIT -> 0 <= seed <= LONG_MAX ->
  randomIndex seed n = Ok (Spec.index seed n) /\
  long_mul (seed mod n) MULTIPLIER = Ok (seed mod n * MULTIPLIER) /\
  0 <= Spec.index seed n < n.
Proof.
  unfold WORD_LIMIT, LONG_MAX. intros Hn Hs.
  assert (Hr : 0 <= seed mod n < n) by (apply Z.mod_pos_bound; lia).
  assert (Hm : long_mul (seed mod n) MULTIPLIER = Ok (seed mod n * MULTIPLIER)).
  { unfold long_mul, in_long, LONG_MIN, LONG_MAX, MULTIPLIER.
    replace (_ && _) with true; [reflexivity|].
    symmetry. apply andb_true_iff. split; apply Z.leb_le; nia. }
  split; [|split; [exact Hm | apply Z.mod_pos_bound; lia]].
  unfold randomIndex, long_rem.
  replace (n =? 0) with false by (symmetry; apply Z.eqb_neq; lia).
  replace (n =? -1) with false by (symmetry; apply Z.eqb_neq; lia).
  rewrite andb_false_r. simpl.
  rewrite Z.rem_mod_nonneg by lia. rewrite Hm. simpl.
  replace (seed mod n * MULTIPLIER =? LONG_MIN) with false
    by (symmetry; apply Z.eqb_neq; unfold LONG_MIN, MULTIPLIER; nia).
  simpl. rewrite Z.rem_mod_nonneg by (unfold MULTIPLIER; nia). reflexivity.
Qed.

Lemma chooseWord_at (seed : Z) (wordList : list word) :
  1 <= Zlength wordList <= WORD_LIMIT -> 0 <= seed <= LONG_MAX ->
  Forall valid_word wordList ->
  exists w,
    nth_error wordList (Z.to_nat (Spec.index seed (Zlength wordList))) = Some w /\
    chooseWord seed wordList = Ok w.
Proof.
  intros Hn Hs Hv.
  destruct (randomIndex_exact seed _ Hn Hs) as (Hi & _ & Hb).
  destruct (aget_in_range wordList _ Hb) as [w Hw].
  exists w. pose proof Hw as Hw'. apply aget_nth_error in Hw' as [_ Hnth].
  split; [exact Hnth|].
  unfold chooseWord. rewrite Hi. simpl. rewrite Hw. simpl.
  rewrite copyWord_valid; [reflexivity|].
  apply nth_error_In in Hnth. rewrite Forall_forall in Hv. auto.
Qed.

(** C4.  For a lexicon of [n] words, [1 <= n <= 100000], all of them Words,
    and a non-negative seed, [chooseWord] returns the word at index
    [(seed mod n) * 4611686018453 mod n]: the product computed on [long]
    is the exact one (no overflow), the index lies in [[0, n)], seed 0 and
    a lexicon of one word select index 0, and the outcome is a function of
    seed and lexicon. *)
Theorem chooseWord_exact_index (seed : Z) (wordList : list word) :
  1 <= Zlength wordList <= 100000 -> 0 <= seed <= LONG_MAX ->
  Forall valid_word wordList ->
  let n := Zlength wordList in
  let i := (seed mod n) * 4611686018453 mod n in
  randomIndex seed n = Ok i /\
  long_mul (seed mod n) MULTIPLIER = Ok (seed mod n * 4611686018453) /\
  LONG_MIN <= seed mod n * 4611686018453 <= LONG_MAX /\
  0 <= i < n /\
  (exists w, nth_error wordList (Z.to_nat i) = Some w /\
             chooseWord seed wordList = Ok w) /\
  chooseWord 0 wordList = Ok (nth 0 wordList []) /\
  (n = 1 -> chooseWord seed wordList = Ok (nth 0 wordList [])) /\
  (forall w1 w2, chooseWord seed wordList = Ok w1 ->
                 chooseWord seed wordList = Ok w2 -> w1 = w2).
Proof.
  intros Hn Hs Hv n i.
  destruct (randomIndex_exact seed n Hn Hs) as (Hi & Hm & Hb).
  assert (Hr : 0 <= seed mod n < n) by (apply Z.mod_pos_bound; lia).
  split; [exact Hi|]. split; [exact Hm|].
  split; [unfold LONG_MIN, LONG_MAX; nia|]. split; [exact Hb|].
  split; [exact (chooseWord_at seed wordList Hn Hs Hv)|].
  assert (H0 : forall s, 0 <= s <= LONG_MAX -> Spec.index s n = 0 ->
                         chooseWord s wordList = Ok (nth 0 wordList [])).
  { intros s Hs' Hz. destruct (chooseWord_at s wordList Hn Hs' Hv) as (w & Hw & ->).
    fold n in Hw. rewrite Hz in Hw. simpl in Hw.
    destruct wordList; simpl in *; congruence. }
  split; [|split].
  - apply H0; [unfold LONG_MAX; lia|]. unfold Spec.index.
    rewrite Zmod_0_l. reflexivity.
  - intros H1. apply H0; [exact Hs|]. unfold Spec.index. rewrite H1.
    rewrite !Z.mod_1_r. reflexivity.
  - intros w1 w2 H1 H2. congruence.
Qed.

Lemma chooseWord_exact_index_witness :
  chooseWord 7 [[97;112;112;108;101]; [98;97;107;101;114]; [99;97;110;100;121]]
  = Ok [99;97;110;100;121].
Proof.
  destruct (chooseWord_exact_index 7
              [[97;112;112;108;101]; [98;97;107;101;114]; [99;97;110;100;121]])
    as (_ & _ & _ & _ & (w & Hw & Hc) & _).
  - vm_compute. split; discriminate.
  - vm_compute. split; discriminate.
  - repeat constructor; vm_compute; discriminate.
  - vm_compute in Hw. injection Hw as <-. exact Hc.
Defined.

(** ** Reading one line *)

Lemma plain_byte_lowercase (b : Z) :
  plain_byte b -> lowercase (to_char b) -> to_char b = b.
Proof.
  unfold plain_byte, lowercase, LOWERCASE_A, LOWERCASE_Z, to_char. intros Hb Hl.
  destruct (Z_lt_dec b 128).
  - rewrite Z.mod_small in * by lia. lia.
  - replace (b + 128) with ((b - 128) + 1 * 256) in * by lia.
    rewrite Z.mod_add in * by lia. rewrite Z.mod_small in * by lia. lia.
Qed.

Lemma plain_byte_char (b : Z) :
  plain_byte b ->
  to_char b <> EOF /\ to_uchar (to_char b) = b /\ (to_char b = LINE_FEED -> b = LINE_FEED).
Proof.
  unfold plain_byte, EOF, LINE_FEED, to_char, to_uchar. intros Hb.
  destruct (Z_lt_dec b 128).
  - rewrite (Z.mod_small (b + 128)) by lia.
    replace (b + 128 - 128) with b by lia. rewrite Z.mod_small by lia. lia.
  - replace (b + 128) with ((b - 128) + 1 * 256) by lia.
    rewrite Z.mod_add by lia. rewrite (Z.mod_small (b - 128)) by lia.
    replace (b - 128 - 128) with (b + (-1) * 256) by lia.
    rewrite Z.mod_add by lia. rewrite Z.mod_small by lia. lia.
Qed.

Lemma lowercase_plain (c : Z) : lowercase c -> plain_byte c.
Proof. unfold lowercase, plain_byte, LOWERCASE_A, LOWERCASE_Z. lia. Qed.

Lemma not_letter (ch : Z) :
  (ch <? LOWERCASE_A) || (ch >? LOWERCASE_Z) = false <-> lowercase ch.
Proof.
  unfold lowercase. rewrite orb_false_iff, Z.ltb_ge, Z.gtb_ltb, Z.ltb_ge. tauto.
Qed.

Lemma readLetters_letters (w rest str : word) :
  Forall lowercase w ->
  readLetters (length w) (w ++ rest) str = Ok (str ++ w, rest).
Proof.
  intros Hw. revert str. induction Hw as [|c w Hc Hw IH]; intros str; simpl.
  - now rewrite app_nil_r.
  - rewrite (lowercase_char c Hc). apply not_letter in Hc. rewrite Hc.
    rewrite IH, <- app_assoc. reflexivity.
Qed.

Lemma readLetters_inv (k : nat) (fp fp' : FILE) (str s : word) :
  readLetters k fp str = Ok (s, fp') ->
  exists cs, fp = cs ++ fp' /\ length cs = k /\ s = str ++ map to_char cs /\
             Forall lowercase (map to_char cs).
Proof.
  revert fp str. induction k as [|k IH]; intros fp str; simpl.
  - intros [= <- <-]. exists []. simpl. now rewrite app_nil_r.
  - destruct fp as [|c fp]; simpl.
    + vm_compute. discriminate.
    + destruct (_ || _) eqn:E; [discriminate|]. apply not_letter in E.
      intros H. apply IH in H as (cs & -> & <- & -> & Hall).
      exists (c :: cs). simpl. rewrite <- app_assoc. auto.
Qed.

Lemma readLetters_total (k : nat) (fp : FILE) (str : word) :
  (exists r, readLetters k fp str = Ok r) \/
  readLetters k fp str = Exit InvalidWordFormat.
Proof.
  revert fp str. induction k as [|k IH]; intros fp str; simpl; eauto.
  destruct (getc fp) as [c fp']. destruct (_ || _); auto.
Qed.

Lemma valid_word_length (w : word) : valid_word w -> length w = Z.to_nat WORD_LEN.
Proof. intros [H _]. zlen. lia. Qed.

Lemma readLine_total (fp : FILE) (n : Z) :
  (exists r, readLine fp n = Ok r) \/ readLine fp n = Exit InvalidWordFormat.
Proof.
  unfold readLine.
  destruct (readLetters_total (Z.to_nat n) fp []) as [[[str fp1] ->]| ->]; simpl; auto.
  destruct (getc fp1) as [c fp2]. destruct (_ =? EOF); eauto.
  destruct (negb _); auto.
  destruct (getc fp2) as [c' fp3]. destruct (_ =? EOF); eauto.
Qed.

(** What a successful [readLine] has read. *)
Lemma readLine_inv (fp fp' : FILE) (b : bool) (str : word) :
  readLine fp WORD_LEN = Ok (b, str, fp') ->
  valid_word str /\ (length fp' < length fp)%nat /\
  (Forall plain_byte fp ->
   (b = true /\ fp = str ++ LINE_FEED :: fp' /\ fp' <> []) \/
   (b = false /\ (fp = str \/ fp = str ++ [LINE_FEED]))).
Proof.
  unfold readLine.
  destruct (readLetters (Z.to_nat WORD_LEN) fp []) as [[s fp1]| | |] eqn:E;
    simpl; try discriminate.
  apply readLetters_inv in E as (cs & -> & Hlen & -> & Hall). simpl.
  assert (Hv : valid_word (map to_char cs)).
  { split; [|exact Hall]. zlen. rewrite Hlen. reflexivity. }
  change (Z.to_nat WORD_LEN) with 5%nat in Hlen.
  assert (Hcs : Forall plain_byte (cs ++ fp1) -> map to_char cs = cs).
  { intros Hp. apply Forall_app in Hp as [Hp _]. clear Hlen Hv.
    induction cs as [|c cs IH]; simpl in *; [reflexivity|].
    inversion Hall; subst. inversion Hp; subst.
    rewrite plain_byte_lowercase, IH; auto. }
  destruct fp1 as [|t fp2]; simpl.
  - change (to_char EOF =? EOF) with true. cbv iota.
    intros [= <- <- <-]. split; [exact Hv|]. split; [zlen; simpl; lia|].
    intros Hp. right. split; [reflexivity|]. left. rewrite app_nil_r in *.
    symmetry; auto.
  - destruct (to_char t =? EOF) eqn:Et.
    + intros [= <- <- <-]. split; [exact Hv|]. split; [zlen; simpl; lia|].
      intros Hp. exfalso. apply Forall_app in Hp as [_ Hp]. inversion Hp; subst.
      apply Z.eqb_eq in Et. destruct (plain_byte_char t) as [? _]; auto.
    + destruct (to_char t =? LINE_FEED) eqn:Enl; simpl; [|discriminate].
      apply Z.eqb_eq in Enl.
      destruct fp2 as [|u fp3]; simpl.
      * change (to_char EOF =? EOF) with true. cbv iota.
        intros [= <- <- <-]. split; [exact Hv|]. split; [zlen; simpl; lia|].
        intros Hp. right. split; [reflexivity|]. right.
        rewrite (Hcs Hp). apply Forall_app in Hp as [_ Hp]. inversion Hp; subst.
        destruct (plain_byte_char t) as (_ & _ & Ht); auto. now rewrite Ht.
      * destruct (to_char u =? EOF) eqn:Eu.
        -- intros [= <- <- <-]. split; [exact Hv|]. split; [zlen; simpl; lia|].
           intros Hp. exfalso. apply Forall_app in Hp as [_ Hp].
           inversion Hp as [|? ? _ Hp']; subst. inversion Hp'; subst.
           apply Z.eqb_eq in Eu. destruct (plain_byte_char u) as [? _]; auto.
        -- intros [= <- <- <-]. split; [exact Hv|].
           split; [unfold ungetc; zlen; simpl; lia|].
           intros Hp. left. split; [reflexivity|]. rewrite (Hcs Hp).
           apply Forall_app in Hp as [_ Hp].
           inversion Hp as [|? ? Ht Hp']; subst. inversion Hp' as [|? ? Hu _]; subst.
           destruct (plain_byte_char t Ht) as (_ & _ & Ht').
           destruct (plain_byte_char u Hu) as (_ & Hu' & _).
           unfold ungetc. rewrite Hu', Ht' by assumption.
           split; [reflexivity | discriminate].
Qed.

(** Reading a well-formed record. *)
Lemma readLine_record (w : word) :
  valid_word w ->
  readLine w WORD_LEN = Ok (false, w, []) /\
  readLine (w ++ [LINE_FEED]) WORD_LEN = Ok (false, w, []) /\
  (forall u rest, plain_byte u ->
     readLine (w ++ LINE_FEED :: u :: rest) WORD_LEN = Ok (true, w, u :: rest)).
Proof.
  intros Hv. pose proof (valid_word_length w Hv) as Hlen. destruct Hv as [_ Hall].
  unfold readLine. rewrite <- Hlen. split; [|split].
  - rewrite <- (app_nil_r w) at 2. rewrite readLetters_letters by assumption.
    reflexivity.
  - rewrite readLetters_letters by assumption. reflexivity.
  - intros u rest Hu. rewrite readLetters_letters by assumption. simpl.
    destruct (plain_byte_char u Hu) as (Hne & Huc & _).
    change (to_char LINE_FEED =? EOF) with false.
    change (to_char LINE_FEED =? LINE_FEED) with true. simpl.
    replace (to_char u =? EOF) with false by (symmetry; now apply Z.eqb_neq).
    unfold ungetc. now rewrite Huc.
Qed.

(** ** Loading the word list *)

Lemma grown_bounds (k : nat) : INITIAL_CAPACITY <= Spec.grown k <= WORD_LIMIT.
Proof.
  unfold Spec.grown, INITIAL_CAPACITY, WORD_LIMIT.
  assert (0 < 2 ^ Z.of_nat k) by (apply Z.pow_pos_nonneg; lia). lia.
Qed.

Lemma holds_bounds (capacity n : Z) :
  Spec.holds capacity n -> n <= capacity <= WORD_LIMIT.
Proof. intros (k & -> & H & _). pose proof (grown_bounds k). lia. Qed.

(** One pass of the capacity update of [readWords]. *)
Lemma grow_step (capacity len : Z) :
  Spec.holds capacity len -> len <> WORD_LIMIT ->
  let capacity' :=
    if len =? capacity
    then (if capacity >? Z.quot WORD_LIMIT 2 then WORD_LIMIT else capacity * 2)
    else capacity in
  len < capacity' /\ Spec.holds capacity' (len + 1).
Proof.
  intros (k & -> & Hle & Hk) Hne.
  change (Z.quot WORD_LIMIT 2) with 50000.
  assert (Hp : 0 < 2 ^ Z.of_nat k) by (apply Z.pow_pos_nonneg; lia).
  assert (Hs : Spec.grown (S k) = Z.min (INITIAL_CAPACITY * (2 * 2 ^ Z.of_nat k)) WORD_LIMIT).
  { unfold Spec.grown. rewrite Nat2Z.inj_succ, Z.pow_succ_r by lia. reflexivity. }
  destruct (Z.eqb_spec len (Spec.grown k)) as [E|E]; cbv zeta.
  - assert (Hcap : (if Spec.grown k >? 50000 then WORD_LIMIT else Spec.grown k * 2)
                   = Spec.grown (S k)).
    { rewrite Hs. rewrite Z.gtb_ltb. unfold Spec.grown, INITIAL_CAPACITY, WORD_LIMIT in *.
      destruct (Z.ltb_spec 50000 (Z.min (10 * 2 ^ Z.of_nat k) 100000)); lia. }
    rewrite Hcap. split.
    + rewrite Hs. unfold Spec.grown, INITIAL_CAPACITY, WORD_LIMIT in *. lia.
    + exists (S k). split; [reflexivity|]. split.
      * rewrite Hs. unfold Spec.grown, INITIAL_CAPACITY, WORD_LIMIT in *. lia.
      * right. simpl Nat.pred. lia.
  - split; [lia|]. exists k. split; [reflexivity|]. split; [lia|].
    destruct Hk as [?|?]; [left; assumption | right; lia].
Qed.

Lemma render_cons (w : word) (ws : list word) (t : bool) :
  ws <> [] -> Spec.render (w :: ws) t = w ++ LINE_FEED :: Spec.render ws t.
Proof. destruct ws; [congruence | reflexivity]. Qed.

Lemma render_starts (ws : list word) (t : bool) :
  ws <> [] -> Forall valid_word ws ->
  exists u rest, plain_byte u /\ Spec.render ws t = u :: rest.
Proof.
  intros Hne Hv. destruct ws as [|w ws]; [congruence|].
  inversion Hv as [|? ? Hw _]; subst.
  pose proof (valid_word_length w Hw) as Hlen. destruct Hw as [_ Hall].
  destruct w as [|u w]; [discriminate|]. inversion Hall; subst.
  exists u. destruct ws; simpl; eauto using lowercase_plain.
Qed.

Lemma render_length (ws : list word) (t : bool) :
  Forall valid_word ws -> (length ws <= length (Spec.render ws t))%nat.
Proof.
  induction 1 as [|w ws Hw Hws IH]; [simpl; lia|].
  pose proof (valid_word_length w Hw) as Hlen.
  change (Z.to_nat WORD_LEN) with 5%nat in Hlen.
  destruct ws as [|w' ws].
  - simpl. zlen. lia.
  - rewrite render_cons by discriminate. zlen. lia.
Qed.

(** The loop of [readWords] on a well-formed source. *)
Lemma readWords_loop_render (ws : list word) (t : bool) :
  ws <> [] -> Forall valid_word ws ->
  forall (fuel : nat) (acc : list word) (capacity : Z),
    (length ws <= fuel)%nat -> Spec.holds capacity (Zlength acc) ->
    (Zlength acc + Zlength ws <= WORD_LIMIT ->
     exists capacity',
       readWords_loop fuel (Spec.render ws t) acc capacity = Ok (acc ++ ws, capacity') /\
       Spec.holds capacity' (Zlength acc + Zlength ws)) /\
    (Zlength acc + Zlength ws > WORD_LIMIT ->
     readWords_loop fuel (Spec.render ws t) acc capacity = Exit CapacityExceeded).
Proof.
  intros Hne Hv. induction Hv as [|w ws Hw Hws IH]; [congruence|].
  intros fuel acc capacity Hfuel Hinv.
  destruct fuel as [|fuel]; [simpl in Hfuel; lia|].
  destruct (readLine_record w Hw) as (R1 & R2 & R3).
  pose proof (holds_bounds _ _ Hinv) as Hb.
  destruct ws as [|w' ws].
  - (* the last record *)
    assert (Hr : readLine (Spec.render [w] t) WORD_LEN = Ok (false, w, [])).
    { destruct t; simpl; [exact R2 | now rewrite app_nil_r]. }
    cbn [readWords_loop]. rewrite Hr. cbn [bind].
    destruct (Z.eqb_spec (Zlength acc) WORD_LIMIT) as [E|E].
    + split; [zlen; simpl; lia | reflexivity].
    + destruct (grow_step _ _ Hinv E) as [Hlt Hh]. cbv zeta in Hlt, Hh.
      apply Z.ltb_lt in Hlt. rewrite Hlt.
      split; [|zlen; simpl in *; lia].
      intros _. eexists. split; [reflexivity|].
      replace (Zlength [w]) with 1 by reflexivity. exact Hh.
  - (* a record followed by others *)
    destruct (render_starts (w' :: ws) t) as (u & rest & Hu & Hrest);
      [discriminate | assumption |].
    rewrite render_cons by discriminate.
    cbn [readWords_loop]. rewrite Hrest, (R3 u rest Hu), <- Hrest. cbn [bind].
    destruct (Z.eqb_spec (Zlength acc) WORD_LIMIT) as [E|E].
    + split; [zlen; simpl; lia | reflexivity].
    + destruct (grow_step _ _ Hinv E) as [Hlt Hh]. cbv zeta in Hlt, Hh.
      apply Z.ltb_lt in Hlt. rewrite Hlt.
      assert (Hinv' : Spec.holds
                (if Zlength acc =? capacity
                 then if capacity >? Z.quot WORD_LIMIT 2 then WORD_LIMIT else capacity * 2
                 else capacity) (Zlength (acc ++ [w]))).
      { replace (Zlength (acc ++ [w])) with (Zlength acc + 1) by (zlen; simpl; lia).
        exact Hh. }
      destruct (IH ltac:(discriminate) fuel (acc ++ [w]) _
                  ltac:(simpl in *; lia) Hinv') as [IH1 IH2].
      replace (Zlength (acc ++ [w]) + Zlength (w' :: ws))
        with (Zlength acc + Zlength (w :: w' :: ws)) in * by (zlen; simpl; lia).
      rewrite <- app_assoc in IH1. exact (conj IH1 IH2).
Qed.

(** The loop of [readWords] on any input: it stops, and when it returns
    it has stored Words only. *)
Lemma readWords_loop_cases (fuel : nat) :
  forall (fp : FILE) (acc : list word) (capacity : Z),
    (length fp < fuel)%nat -> Spec.holds capacity (Zlength acc) ->
    (exists ws capacity',
       readWords_loop fuel fp acc capacity = Ok (acc ++ ws, capacity') /\
       ws <> [] /\ Forall valid_word ws /\
       Spec.holds capacity' (Zlength (acc ++ ws)) /\
       (Forall plain_byte fp -> exists t, fp = Spec.render ws t)) \/
    readWords_loop fuel fp acc capacity = Exit InvalidWordFormat \/
    (readWords_loop fuel fp acc capacity = Exit CapacityExceeded /\
     exists ws rest,
       Zlength (acc ++ ws) = WORD_LIMIT /\ Forall valid_word ws /\
       (Forall plain_byte fp -> fp = lines ws ++ rest)).
Proof.
  induction fuel as [|fuel IH]; intros fp acc capacity Hfuel Hinv; [lia|].
  cbn [readWords_loop].
  destruct (readLine_total fp WORD_LEN) as [[[[b str] fp'] Hr]|Hr];
    rewrite Hr; cbn [bind]; [|auto].
  apply readLine_inv in Hr as (Hstr & Hlen & Hsrc).
  destruct (Z.eqb_spec (Zlength acc) WORD_LIMIT) as [E|E].
  { right. right. split; [reflexivity|]. exists [], fp.
    rewrite app_nil_r. auto. }
  destruct (grow_step _ _ Hinv E) as [Hlt Hh]. cbv zeta in Hlt, Hh.
  apply Z.ltb_lt in Hlt. rewrite Hlt.
  replace (Zlength acc + 1) with (Zlength (acc ++ [str])) in Hh by (zlen; simpl; lia).
  destruct b.
  - destruct (IH fp' (acc ++ [str]) _ ltac:(lia) Hh)
      as [(ws & capacity' & Hrun & Hne & Hv & Hh' & Hsrc')
         |[Hrun|(Hrun & ws & rest & Hlim & Hv & Hsrc')]]; auto.
    2:{ right. right. split; [exact Hrun|]. exists (str :: ws), rest.
        rewrite <- app_assoc in Hlim. split; [exact Hlim|]. split; [auto|].
        intros Hp. destruct (Hsrc Hp) as [(_ & -> & _)|[? _]]; [|discriminate].
        apply Forall_app in Hp as [_ Hp]. inversion Hp; subst.
        rewrite (Hsrc' ltac:(assumption)). unfold lines. simpl.
        rewrite <- !app_assoc. reflexivity. }
    left. exists (str :: ws), capacity'. rewrite <- app_assoc in Hrun, Hh'.
    split; [exact Hrun|]. split; [discriminate|]. split; [auto|].
    split; [exact Hh'|].
    intros Hp. destruct (Hsrc Hp) as [(_ & -> & _)|[? _]]; [|discriminate].
    apply Forall_app in Hp as [_ Hp]. inversion Hp; subst.
    destruct (Hsrc' ltac:(assumption)) as [t ->]. exists t.
    now rewrite render_cons.
  - left. exists [str]. eexists. split; [reflexivity|]. split; [discriminate|].
    split; [auto|]. split; [exact Hh|].
    intros Hp. destruct (Hsrc Hp) as [[? _]|(_ & [->| ->])]; [discriminate| |].
    + exists false. simpl. now rewrite app_nil_r.
    + exists true. reflexivity.
Qed.

Lemma holds_initial : Spec.holds INITIAL_CAPACITY (Zlength (@nil word)).
Proof. exists O. split; [reflexivity|]. split; [vm_compute; discriminate | auto]. Qed.

(** [readWords] on any input. *)
Lemma readWords_cases (src : FILE) :
  (exists ws capacity,
     readWords src = Ok (ws, capacity) /\ ws <> [] /\ Forall valid_word ws /\
     Spec.holds capacity (Zlength ws) /\
     (Forall plain_byte src -> exists t, src = Spec.render ws t)) \/
  readWords src = Exit InvalidWordFormat \/
  (readWords src = Exit CapacityExceeded /\
   exists ws rest,
     Zlength ws = WORD_LIMIT /\ Forall valid_word ws /\
     (Forall plain_byte src -> src = lines ws ++ rest)).
Proof.
  exact (readWords_loop_cases (S (length src)) src [] INITIAL_CAPACITY
           (Nat.lt_succ_diag_r _) holds_initial).
Qed.

(** [readWords] on a well-formed source. *)
Lemma readWords_render (ws : list word) (t : bool) :
  ws <> [] -> Forall valid_word ws ->
  (Zlength ws <= WORD_LIMIT ->
   exists capacity,
     readWords (Spec.render ws t) = Ok (ws, capacity) /\
     Spec.holds capacity (Zlength ws)) /\
  (Zlength ws > WORD_LIMIT ->
   readWords (Spec.render ws t) = Exit CapacityExceeded).
Proof.
  intros Hne Hv.
  pose proof (render_length ws t Hv) as Hlen.
  exact (readWords_loop_render ws t Hne Hv (S (length (Spec.render ws t))) []
           INITIAL_CAPACITY ltac:(lia) holds_initial).
Qed.

Lemma readWords_nonempty (src : FILE) (ws : list word) (capacity : Z) :
  readWords src = Ok (ws, capacity) ->
  1 <= Zlength ws <= WORD_LIMIT /\ Forall valid_word ws /\
  Spec.holds capacity (Zlength ws).
Proof.
  intros H.
  destruct (readWords_cases src) as [(ws' & c' & H' & Hne & Hv & Hh & _)|[H'|[H' _]]];
    rewrite H' in H; try discriminate.
  injection H as <- <-. pose proof (holds_bounds _ _ Hh).
  destruct ws'; [congruence|]. zlen. simpl in *. split; [lia | auto].
Qed.


Lemma valid_repeat (w : word) (n : nat) : valid_word w -> Forall valid_word (repeat w n).
Proof. intros Hw. apply Forall_forall. intros x Hx. apply repeat_spec in Hx. now subst. Qed.

Lemma valid_apple : valid_word [97; 112; 112; 108; 101].
Proof. split; [reflexivity|]. repeat constructor; vm_compute; discriminate. Qed.

(** C10, as the code has it.  An empty source is rejected: the first
    character read is [EOF], which is no letter.  A successful load holds
    between 1 and 100000 words, so that for every seed that is not
    negative the index computed by [chooseWord] is defined, lies inside
    the word list, and the word there is returned.  (Nothing keeps a
    negative seed from [chooseWord], and for one the index can lie in
    front of the word list.) *)
Theorem readWords_at_least_one_word :
  fst (getc []) = EOF /\ ~ lowercase (to_char EOF) /\
  readWords [] = Exit InvalidWordFormat /\
  forall (src : FILE) (wordList : list word) (capacity : Z),
    readWords src = Ok (wordList, capacity) ->
    1 <= Zlength wordList <= 100000 /\
    forall seed, 0 <= seed <= LONG_MAX ->
      exists i w,
        randomIndex seed (Zlength wordList) = Ok i /\ 0 <= i < Zlength wordList /\
        aget wordList i = Ok w /\ chooseWord seed wordList = Ok w.
Proof.
  split; [reflexivity|]. split; [vm_compute; intros [H _]; apply H; reflexivity|].
  split; [reflexivity|].
  intros src wordList capacity H.
  apply readWords_nonempty in H as (Hn & Hv & _). split; [exact Hn|].
  intros seed Hs.
  destruct (randomIndex_exact seed _ Hn Hs) as (Hi & _ & Hb).
  destruct (chooseWord_at seed wordList Hn Hs Hv) as (w & Hw & Hc).
  exists (Spec.index seed (Zlength wordList)), w.
  repeat split; try assumption; try lia.
  apply aget_nth_error. auto.
Qed.

Lemma readWords_at_least_one_word_witness :
  1 <= Zlength [[97; 112; 112; 108; 101]; [98; 97; 107; 101; 114]] <= 100000 /\
  exists i w,
    randomIndex 7 (Zlength [[97; 112; 112; 108; 101]; [98; 97; 107; 101; 114]]) = Ok i /\
    0 <= i < Zlength [[97; 112; 112; 108; 101]; [98; 97; 107; 101; 114]] /\
    aget [[97; 112; 112; 108; 101]; [98; 97; 107; 101; 114]] i = Ok w /\
    chooseWord 7 [[97; 112; 112; 108; 101]; [98; 97; 107; 101; 114]] = Ok w.
Proof.
  destruct readWords_at_least_one_word as (_ & _ & _ & H).
  destruct (H [97; 112; 112; 108; 101; 10; 98; 97; 107; 101; 114]
              [[97; 112; 112; 108; 101]; [98; 97; 107; 101; 114]] 10 eq_refl)
    as [Hn Hseed].
  split; [exact Hn|]. apply Hseed. vm_compute. split; discriminate.
Defined.

(** C10 as stated, for every seed, fails for a negative one: after the
    load of two words, the seed -1 gives the index -1, and [chooseWord]
    reads in front of the word list. *)
Lemma readWords_at_least_one_word_counterexample :
  readWords [97; 112; 112; 108; 101; 10; 98; 97; 107; 101; 114]
  = Ok ([[97; 112; 112; 108; 101]; [98; 97; 107; 101; 114]], 10) /\
  randomIndex (-1) (Zlength [[97; 112; 112; 108; 101]; [98; 97; 107; 101; 114]])
  = Ok (-1) /\
  chooseWord (-1) [[97; 112; 112; 108; 101]; [98; 97; 107; 101; 114]] = Undefined.
Proof. split; [reflexivity|]. split; reflexivity. Qed.

(** C8.  On a source of well-formed records [readWords] exits at the word
    limit exactly when there are more than 100000 records; up to 100000
    records are all loaded, into an array whose capacity is the first of
    10, 20, 40, ... (doubling, capped at 100000) that holds them; 100000
    records load with capacity 100000. *)
Theorem readWords_capacity (records : list word) (final_terminator : bool) :
  Forall valid_word records ->
  let src := Spec.render records final_terminator in
  (readWords src = Exit CapacityExceeded <-> Zlength records > 100000) /\
  (1 <= Zlength records <= 100000 ->
   exists capacity,
     readWords src = Ok (records, capacity) /\
     Spec.holds capacity (Zlength records)) /\
  (Zlength records = 100000 -> readWords src = Ok (records, 100000)).
Proof.
  intros Hv src. subst src.
  destruct records as [|r records].
  { simpl. split; [split; [discriminate | zlen; simpl; lia]|].
    split; intros H; zlen; simpl in H; lia. }
  destruct (readWords_render (r :: records) final_terminator
              ltac:(discriminate) Hv) as [Hok Hce].
  change WORD_LIMIT with 100000 in Hok, Hce.
  split; [split|split].
  - intros H. destruct (Z_le_gt_dec (Zlength (r :: records)) 100000) as [Hle|]; [|assumption].
    destruct (Hok Hle) as (c & Hc & _). congruence.
  - exact Hce.
  - intros [_ H]. exact (Hok H).
  - intros H. destruct (Hok ltac:(lia)) as (c & Hc & Hh).
    apply holds_bounds in Hh. change WORD_LIMIT with 100000 in Hh.
    replace c with 100000 in Hc by lia. exact Hc.
Qed.

Lemma readWords_capacity_witness :
  exists capacity,
    readWords (Spec.render (repeat [97; 112; 112; 108; 101] 11) true)
    = Ok (repeat [97; 112; 112; 108; 101] 11, capacity) /\
    Spec.holds capacity 11 /\ capacity = 20.
Proof.
  destruct (readWords_capacity (repeat [97; 112; 112; 108; 101] 11) true) as (_ & H & _).
  - apply valid_repeat, valid_apple.
  - destruct H as (capacity & Hrun & Hh); [vm_compute; split; discriminate|].
    exists capacity. split; [exact Hrun|]. split; [exact Hh|].
    assert (E : readWords (Spec.render (repeat [97; 112; 112; 108; 101] 11) true)
                = Ok (repeat [97; 112; 112; 108; 101] 11, 20)) by reflexivity.
    rewrite E in Hrun. now injection Hrun.
Defined.

(** *** The byte 0xFF *)



Lemma seen_length (src : FILE) : (length (seen src) <= length src)%nat.
Proof.
  induction src as [|b src IH]; [simpl; lia|]. cbn [seen].
  destruct (b =? 255); simpl; lia.
Qed.





(** *** The word limit *)










(** ** Sorting *)

Lemma Zlength_snoc {A : Type} (l : list A) (x : A) : Zlength (l ++ [x]) = Zlength l + 1.
Proof. zlen. lia. Qed.

Lemma snoc_app {A : Type} (l r : list A) (x : A) : (l ++ [x]) ++ r = l ++ x :: r.
Proof. now rewrite <- app_assoc. Qed.

Lemma copy_loop_segment (seg : list word) :
  forall (pre post : list word) (start i : Z),
    i + start = Zlength pre ->
    copy_loop (length seg) (pre ++ seg ++ post) start i = Ok seg.
Proof.
  induction seg as [|x seg IH]; intros pre post start i Hi; [reflexivity|].
  cbn [length copy_loop]. rewrite Hi. cbn [app]. rewrite aget_middle. cbn [bind].
  rewrite <- snoc_app, IH by (rewrite Zlength_snoc; lia). reflexivity.
Qed.

Lemma copyArray_segment (pre seg post : list word) :
  copyArray (pre ++ seg ++ post) (Zlength pre) (Zlength pre + Zlength seg - 1) = Ok seg.
Proof.
  unfold copyArray.
  replace (Z.to_nat (Zlength pre + Zlength seg - 1 - Zlength pre + 1)) with (length seg)
    by (zlen; lia).
  apply copy_loop_segment. lia.
Qed.

Lemma merged_nil_r (l : list word) : merged l [] = l.
Proof. destruct l; reflexivity. Qed.

Lemma merged_nil_l (r : list word) : merged [] r = r.
Proof. destruct r; reflexivity. Qed.

Lemma merged_cons (a b : word) (l r : list word) :
  merged (a :: l) (b :: r) =
  if strcmp a b <? 0 then a :: merged l (b :: r) else b :: merged (a :: l) r.
Proof. reflexivity. Qed.

(** The loop of [merge] writes the merge of what is left of the halves
    behind what it has written so far. *)
Lemma merge_loop_merged (k : nat) :
  forall (ls rs lp rp done todo : list word) (ll rl n : Z),
    ll = Zlength (lp ++ ls) -> rl = Zlength (rp ++ rs) ->
    n = Zlength (done ++ todo) ->
    Zlength lp + Zlength rp = Zlength done ->
    length todo = (length ls + length rs)%nat -> (length todo <= k)%nat ->
    merge_loop k (lp ++ ls) ll (rp ++ rs) rl (done ++ todo) n (Zlength lp) (Zlength rp)
    = Ok (done ++ merged ls rs).
Proof.
  induction k as [|k IH]; intros ls rs lp rp done todo ll rl n Hll Hrl Hn Hd Ht Hk.
  - destruct todo; [|simpl in Hk; lia]. destruct ls; [|simpl in Ht; lia].
    destruct rs; [|simpl in Ht; lia]. cbn [merge_loop].
    replace (Zlength lp + Zlength rp <? n) with false
      by (symmetry; apply Z.ltb_ge; subst n; zlen; lia).
    reflexivity.
  - cbn [merge_loop]. destruct todo as [|y todo].
    { destruct ls; [|simpl in Ht; lia]. destruct rs; [|simpl in Ht; lia].
      replace (Zlength lp + Zlength rp <? n) with false
        by (symmetry; apply Z.ltb_ge; subst n; zlen; lia).
      reflexivity. }
    replace (Zlength lp + Zlength rp <? n) with true
      by (symmetry; apply Z.ltb_lt; subst n; zlen; lia).
    assert (Hstep_l : forall a ls',
      ls = a :: ls' ->
      (x <- aget (lp ++ ls) (Zlength lp) ;;
       list_ <- aset (done ++ y :: todo) (Zlength lp + Zlength rp) x ;;
       merge_loop k (lp ++ ls) ll (rp ++ rs) rl list_ n (Zlength lp + 1) (Zlength rp))
      = Ok (done ++ a :: merged ls' rs)).
    { intros a ls' ->. rewrite aget_middle. cbn [bind].
      rewrite Hd, aset_middle. cbn [bind].
      rewrite <- (snoc_app lp), <- (snoc_app done), <- (Zlength_snoc lp a).
      rewrite (IH ls' rs (lp ++ [a]) rp (done ++ [a]) todo ll rl n); trivial.
      - now rewrite snoc_app.
      - now rewrite snoc_app.
      - subst n. zlen. lia.
      - rewrite !Zlength_snoc. lia.
      - simpl in Ht. lia.
      - simpl in Hk. lia. }
    assert (Hstep_r : forall b rs',
      rs = b :: rs' ->
      (x <- aget (rp ++ rs) (Zlength rp) ;;
       list_ <- aset (done ++ y :: todo) (Zlength lp + Zlength rp) x ;;
       merge_loop k (lp ++ ls) ll (rp ++ rs) rl list_ n (Zlength lp) (Zlength rp + 1))
      = Ok (done ++ b :: merged ls rs')).
    { intros b rs' ->. rewrite aget_middle. cbn [bind].
      rewrite Hd, aset_middle. cbn [bind].
      rewrite <- (snoc_app rp), <- (snoc_app done), <- (Zlength_snoc rp b).
      rewrite (IH ls rs' lp (rp ++ [b]) (done ++ [b]) todo ll rl n); trivial.
      - now rewrite snoc_app.
      - now rewrite snoc_app.
      - subst n. zlen. lia.
      - rewrite !Zlength_snoc. lia.
      - simpl in Ht. lia.
      - simpl in Hk. lia. }
    destruct rs as [|b rs'].
    + replace (Zlength rp =? rl) with true
        by (symmetry; apply Z.eqb_eq; subst rl; now rewrite app_nil_r).
      cbn [bind]. destruct ls as [|a ls']; [simpl in Ht; lia|].
      rewrite (Hstep_l a ls' eq_refl). now rewrite merged_nil_r.
    + replace (Zlength rp =? rl) with false
        by (symmetry; apply Z.eqb_neq; subst rl; zlen; lia).
      destruct ls as [|a ls'].
      * replace (Zlength lp <? ll) with false
          by (symmetry; apply Z.ltb_ge; subst ll; zlen; lia).
        cbn [bind]. rewrite (Hstep_r b rs' eq_refl), !merged_nil_l. reflexivity.
      * replace (Zlength lp <? ll) with true
          by (symmetry; apply Z.ltb_lt; subst ll; zlen; lia).
        pose proof (Hstep_l a ls' eq_refl) as HL.
        pose proof (Hstep_r b rs' eq_refl) as HR.
        rewrite !aget_middle in *. cbn [bind] in *. rewrite merged_cons.
        destruct (strcmp a b <? 0); assumption.
Qed.

Lemma merge_merged (left right list_ : list word) :
  length list_ = (length left + length right)%nat ->
  merge left (Zlength left) right (Zlength right) list_ (Zlength list_)
  = Ok (merged left right).
Proof.
  intros H. unfold merge.
  exact (merge_loop_merged (Z.to_nat (Zlength list_)) left right [] [] [] list_
           _ _ _ eq_refl eq_refl eq_refl eq_refl H ltac:(zlen; lia)).
Qed.

Lemma merged_perm (l r : list word) : Permutation (l ++ r) (merged l r).
Proof.
  revert r. induction l as [|a l IHl]; intros r.
  - now rewrite merged_nil_l.
  - induction r as [|b r IHr].
    + now rewrite merged_nil_r, app_nil_r.
    + rewrite merged_cons. destruct (strcmp a b <? 0).
      * simpl. constructor. apply IHl.
      * etransitivity; [|constructor; exact IHr].
        symmetry. apply (Permutation_middle (a :: l) r b).
Qed.

Lemma merged_HdRel (x : word) (l r : list word) :
  HdRel word_le x l -> HdRel word_le x r -> HdRel word_le x (merged l r).
Proof.
  intros Hl Hr. destruct l as [|a l]; [now rewrite merged_nil_l|].
  destruct r as [|b r]; [now rewrite merged_nil_r|].
  rewrite merged_cons. inversion Hl; inversion Hr; subst.
  destruct (strcmp a b <? 0); constructor; assumption.
Qed.

Lemma merged_sorted (l r : list word) :
  all_letters l -> all_letters r ->
  Sorted word_le l -> Sorted word_le r -> Sorted word_le (merged l r).
Proof.
  intros Hal Har Hl. revert Hal r Har.
  induction Hl as [|a l Hl IHl Ha]; intros Hal r Har Hr.
  - now rewrite merged_nil_l.
  - induction Hr as [|b r Hr IHr Hb].
    + rewrite merged_nil_r. constructor; assumption.
    + inversion Hal as [|? ? Hla Hal']; subst. inversion Har as [|? ? Hlb Har']; subst.
      rewrite merged_cons. destruct (Z.ltb_spec (strcmp a b) 0) as [Hlt|Hge].
      * constructor; [apply IHl; auto|].
        apply merged_HdRel; [exact Ha|]. constructor.
        apply strcmp_lt in Hlt; trivial. intros Hba.
        exact (lex_lt_irrefl a (lex_lt_trans _ _ _ Hlt Hba)).
      * constructor; [apply IHr; auto|].
        apply merged_HdRel; [|exact Hb]. constructor.
        intros Hab. apply strcmp_lt in Hab; trivial. lia.
Qed.

Lemma halves (n : Z) :
  2 <= n ->
  1 <= leftLength_of n < n /\ 1 <= rightLength_of n < n /\
  leftLength_of n + rightLength_of n = n /\
  leftLength_of n = n / 2 /\ rightLength_of n = n - n / 2.
Proof.
  intros Hn. unfold leftLength_of, rightLength_of.
  rewrite Z.quot_div_nonneg, Z.rem_mod_nonneg by lia.
  destruct (Z.eqb_spec (n mod 2) 0); Z.div_mod_to_equations; lia.
Qed.

Lemma mergeSort_empty (fuel : nat) (list_ : list word) :
  mergeSort fuel list_ 0 = Timeout.
Proof.
  revert list_. induction fuel as [|fuel IH]; intros list_; [reflexivity|].
  cbn [mergeSort]. change (negb (0 =? 1)) with true. cbv iota.
  change (copyArray list_ 0 (Z.quot 0 2 - 1)) with (@Ok (list word) []).
  change (copyArray list_ (Z.quot 0 2) (0 - 1)) with (@Ok (list word) []).
  cbn [bind]. change (leftLength_of 0) with 0. now rewrite IH.
Qed.

(** [mergeSort] returns on every non-empty list, with the words permuted
    and, when they are made of letters, in ascending order. *)
Lemma mergeSort_sorted (fuel : nat) :
  forall l : list word,
    (1 <= length l <= fuel)%nat ->
    exists l',
      mergeSort fuel l (Zlength l) = Ok l' /\ Permutation l l' /\
      (all_letters l -> Sorted word_le l').
Proof.
  induction fuel as [|fuel IH]; intros l Hlen; [lia|].
  cbn [mergeSort]. destruct (Z.eqb_spec (Zlength l) 1) as [E|E]; cbn [negb].
  - exists l. split; [reflexivity|]. split; [reflexivity|]. intros _.
    destruct l as [|x [|y l]]; try (zlen; simpl in E; lia). repeat constructor.
  - assert (Hn : 2 <= Zlength l) by (zlen; lia).
    destruct (halves _ Hn) as (Hl & Hr & Hsum & Hdiv & _).
    set (m := Z.to_nat (leftLength_of (Zlength l))).
    assert (Hm : (1 <= m < length l)%nat) by (unfold m; zlen; lia).
    pose proof (firstn_skipn m l) as Hsplit.
    assert (HL : Zlength (firstn m l) = leftLength_of (Zlength l)).
    { rewrite Zlength_nat, length_firstn. unfold m. zlen. lia. }
    assert (HR : Zlength (skipn m l) = rightLength_of (Zlength l)).
    { rewrite Zlength_nat, length_skipn. unfold m. zlen. lia. }
    assert (C1 : copyArray l 0 (Z.quot (Zlength l) 2 - 1) = Ok (firstn m l)).
    { pose proof (copyArray_segment [] (firstn m l) (skipn m l)) as H.
      cbn [app] in H. rewrite Hsplit, HL in H. exact H. }
    assert (C2 : copyArray l (Z.quot (Zlength l) 2) (Zlength l - 1) = Ok (skipn m l)).
    { pose proof (copyArray_segment (firstn m l) (skipn m l) []) as H.
      rewrite app_nil_r, Hsplit, HL, HR in H.
      replace (leftLength_of (Zlength l) + rightLength_of (Zlength l) - 1)
        with (Zlength l - 1) in H by lia.
      exact H. }
    rewrite C1, C2. cbn [bind].
    destruct (IH (firstn m l)) as (l1 & R1 & P1 & S1);
      [rewrite length_firstn; lia|].
    destruct (IH (skipn m l)) as (l2 & R2 & P2 & S2);
      [rewrite length_skipn; lia|].
    rewrite HL in R1. rewrite HR in R2. rewrite R1, R2. cbn [bind].
    assert (HL1 : Zlength l1 = leftLength_of (Zlength l)).
    { rewrite <- HL, !Zlength_nat. f_equal. symmetry. now apply Permutation_length. }
    assert (HR2 : Zlength l2 = rightLength_of (Zlength l)).
    { rewrite <- HR, !Zlength_nat. f_equal. symmetry. now apply Permutation_length. }
    rewrite <- HL1, <- HR2, merge_merged by (zlen; lia).
    exists (merged l1 l2). split; [reflexivity|].
    assert (P : Permutation l (l1 ++ l2)).
    { rewrite <- Hsplit at 1. now apply Permutation_app. }
    split; [etransitivity; [exact P | apply merged_perm]|].
    intros Hall. unfold all_letters in *. rewrite <- Hsplit in Hall.
    apply Forall_app in Hall as [Ha1 Ha2].
    apply merged_sorted; unfold all_letters.
    + eapply Permutation_Forall; eassumption.
    + eapply Permutation_Forall; eassumption.
    + apply S1, Ha1.
    + apply S2, Ha2.
Qed.

Lemma check_neighbours_cases (rest : list word) :
  forall (pre : list word) (x : word),
    (check_neighbours (length rest) (pre ++ x :: rest) (Zlength pre) = Ok tt /\
     Sorted (fun a b => strcmp a b <> 0) (x :: rest)) \/
    (check_neighbours (length rest) (pre ++ x :: rest) (Zlength pre) = Exit DuplicateWord /\
     exists l1 a b l2, x :: rest = l1 ++ a :: b :: l2 /\ strcmp a b = 0).
Proof.
  induction rest as [|y rest IH]; intros pre x.
  - left. split; [reflexivity | repeat constructor].
  - cbn [length check_neighbours]. rewrite aget_middle. cbn [bind].
    rewrite <- (Zlength_snoc pre x), <- snoc_app, aget_middle. cbn [bind].
    destruct (Z.eqb_spec (strcmp x y) 0) as [E|E].
    + right. split; [reflexivity|]. exists [], x, y, rest. auto.
    + destruct (IH (pre ++ [x]) y) as [[Hrun Hs]|(Hrun & l1 & a & b & l2 & Heq & Hab)].
      * left. split; [exact Hrun|]. constructor; [exact Hs | constructor; exact E].
      * right. split; [exact Hrun|]. exists (x :: l1), a, b, l2.
        split; [simpl; now rewrite Heq | exact Hab].
Qed.

Lemma Sorted_strict (l : list word) :
  all_letters l -> Sorted word_le l -> Sorted (fun a b => strcmp a b <> 0) l ->
  Sorted Spec.lex_lt l.
Proof.
  intros Hall Hle. induction Hle as [|a l Hle IH Ha]; intros Hne; [constructor|].
  inversion Hall as [|? ? Hla Hall']; subst. inversion Hne as [|? ? Hne' Hb]; subst.
  constructor; [auto|].
  destruct l as [|b l]; constructor.
  inversion Ha as [|? ? Hab]; subst. inversion Hb as [|? ? Hneq]; subst.
  inversion Hall' as [|? ? Hlb _]; subst.
  destruct (lex_lt_total a b) as [H|[H|H]]; [exact H | | contradiction].
  subst b. exfalso. apply Hneq. now apply strcmp_eq.
Qed.

Lemma ascending_NoDup (l : list word) : Sorted Spec.lex_lt l -> NoDup l.
Proof.
  intros Hs. apply Sorted_StronglySorted in Hs; [|exact lex_lt_trans].
  induction Hs as [|a l Hs IH Ha]; constructor; [|exact IH].
  intros Hin. rewrite Forall_forall in Ha. exact (lex_lt_irrefl a (Ha a Hin)).
Qed.

Lemma valid_all_letters (l : list word) : Forall valid_word l -> all_letters l.
Proof. unfold all_letters. apply Forall_impl. exact valid_word_letters. Qed.

(** [sort] on a non-empty list of Words. *)
Lemma sort_cases (fuel : nat) (wordList : list word) :
  wordList <> [] -> Forall valid_word wordList -> (length wordList <= fuel)%nat ->
  (exists sorted,
     sort fuel wordList = Ok sorted /\ Permutation wordList sorted /\
     Sorted Spec.lex_lt sorted /\ NoDup wordList) \/
  (sort fuel wordList = Exit DuplicateWord /\ ~ NoDup wordList).
Proof.
  intros Hne Hv Hfuel. apply valid_all_letters in Hv.
  destruct (mergeSort_sorted fuel wordList) as (s & Hrun & Hperm & Hs).
  { destruct wordList; [congruence | simpl in *; lia]. }
  specialize (Hs Hv). unfold sort. rewrite Hrun. cbn [bind].
  assert (Hvs : all_letters s) by (eapply Permutation_Forall; eassumption).
  destruct s as [|x rest].
  { apply Permutation_sym, Permutation_nil in Hperm. congruence. }
  replace (Z.to_nat (Zlength wordList - 1)) with (length rest).
  2:{ apply Permutation_length in Hperm. zlen. simpl in Hperm. lia. }
  destruct (check_neighbours_cases rest [] x)
    as [[Hc Hneq]|(Hc & l1 & a & b & l2 & Heq & Hab)];
    cbn [app] in Hc; change (Zlength (@nil word)) with 0 in Hc; rewrite Hc; cbn [bind].
  - left. exists (x :: rest). pose proof (Sorted_strict _ Hvs Hs Hneq) as Hlt.
    repeat split; trivial.
    eapply Permutation_NoDup; [symmetry; exact Hperm | now apply ascending_NoDup].
  - right. split; [reflexivity|]. intros Hnd.
    apply (Permutation_NoDup Hperm) in Hnd. rewrite Heq in Hnd, Hvs.
    apply Forall_app in Hvs as [_ Hvs].
    inversion Hvs as [|? ? Hla Hvs']; subst. inversion Hvs' as [|? ? Hlb _]; subst.
    apply strcmp_eq in Hab; trivial. subst b.
    apply NoDup_remove_2 in Hnd. apply Hnd. apply in_or_app. right. now left.
Qed.

(** C5.  On a non-empty list of Words [sort] exits with the duplicate
    error exactly when two of the words are identical; otherwise it
    returns, and what it returns is a permutation of the words in which
    every word is strictly below its successor. *)
Theorem sort_strictly_ascending (fuel : nat) (wordList : list word) :
  1 <= Zlength wordList -> Forall valid_word wordList ->
  (length wordList <= fuel)%nat ->
  (sort fuel wordList = Exit DuplicateWord <-> ~ NoDup wordList) /\
  (forall sorted, sort fuel wordList = Ok sorted ->
     Permutation wordList sorted /\ Spec.strictly_ascending sorted) /\
  (NoDup wordList -> exists sorted, sort fuel wordList = Ok sorted).
Proof.
  intros Hn Hv Hfuel.
  assert (Hne : wordList <> []) by (intros ->; zlen; simpl in Hn; lia).
  destruct (sort_cases fuel wordList Hne Hv Hfuel)
    as [(s & Hrun & Hperm & Hs & Hnd)|[Hrun Hnd]]; rewrite Hrun.
  - split; [split; [discriminate | contradiction]|].
    split; [intros ? [= <-]; auto | eauto].
  - split; [tauto|]. split; [discriminate | contradiction].
Qed.

Lemma sort_strictly_ascending_witness :
  sort 2 [[98; 97; 107; 101; 114]; [97; 112; 112; 108; 101]]
  = Ok [[97; 112; 112; 108; 101]; [98; 97; 107; 101; 114]].
Proof.
  destruct (sort_strictly_ascending 2
              [[98; 97; 107; 101; 114]; [97; 112; 112; 108; 101]]) as (_ & _ & H).
  - vm_compute. discriminate.
  - repeat constructor; vm_compute; discriminate.
  - simpl. lia.
  - reflexivity.
Defined.

(** C9.  For [n >= 2] the two halves that [mergeSort] recurses on have
    sizes [n / 2] and [n - n / 2], both at least 1 and below [n]; so
    [mergeSort] returns on every list of length [n >= 1], and [sort]
    finishes (normally or by the duplicate exit) on every word list that
    [readWords] delivers.  For [n = 0] the halves have size 0 again and
    [mergeSort] never returns. *)
Theorem mergeSort_terminates :
  (forall n, 2 <= n ->
     leftLength_of n = n / 2 /\ rightLength_of n = n - n / 2 /\
     1 <= leftLength_of n < n /\ 1 <= rightLength_of n < n) /\
  (forall (fuel : nat) (list_ : list word),
     1 <= Zlength list_ -> (length list_ <= fuel)%nat ->
     exists sorted, mergeSort fuel list_ (Zlength list_) = Ok sorted) /\
  (forall (src : FILE) (wordList : list word) (capacity : Z) (fuel : nat),
     readWords src = Ok (wordList, capacity) -> (length wordList <= fuel)%nat ->
     sort fuel wordList = Exit DuplicateWord \/
     exists sorted, sort fuel wordList = Ok sorted) /\
  (leftLength_of 0 = 0 /\ rightLength_of 0 = 0) /\
  (forall (fuel : nat) (list_ : list word), mergeSort fuel list_ 0 = Timeout).
Proof.
  split; [|split; [|split; [|split]]].
  - intros n Hn. destruct (halves n Hn) as (? & ? & ? & ? & ?). auto.
  - intros fuel l Hn Hfuel.
    destruct (mergeSort_sorted fuel l) as (s & Hs & _); [zlen; lia | eauto].
  - intros src wordList capacity fuel Hload Hfuel.
    apply readWords_nonempty in Hload as (Hn & Hv & _).
    assert (Hne : wordList <> []) by (intros ->; zlen; simpl in Hn; lia).
    destruct (sort_cases fuel wordList Hne Hv Hfuel) as [(s & Hs & _)|[Hs _]]; eauto.
  - split; reflexivity.
  - exact mergeSort_empty.
Qed.

Lemma mergeSort_terminates_witness :
  exists sorted,
    mergeSort 3 [[98]; [99]; [97]] (Zlength [[98]; [99]; [97]]) = Ok sorted.
Proof.
  destruct mergeSort_terminates as (_ & H & _).
  apply H; [vm_compute; discriminate | simpl; lia].
Defined.

(** ** Membership *)

(** The body of [binarySearch], as the source has it. *)
Lemma binarySearch_body (wordList : list word) (w : word) (low high : Z) :
  binarySearch wordList w low high =
  if low >? high then Ok false
  else
    let mid := Z.quot (low + high) 2 in
    x <- aget wordList mid ;;
    let result := strcmp x w in
    if result =? 0 then Ok true
    else if result >? 0 then binarySearch wordList w low (mid - 1)
    else binarySearch wordList w (mid + 1) high.
Proof.
  simp binarySearch. destruct (Z_gt_dec low high) as [H|H]; simpl.
  - apply Z.gtb_gt in H. now rewrite H.
  - assert (H' : (low >? high) = false) by (rewrite Z.gtb_ltb; apply Z.ltb_ge; lia).
    rewrite H'. cbv zeta.
    destruct (aget wordList (Z.quot (low + high) 2)) as [x| | |]; simpl; trivial.
    rewrite Z.gtb_ltb.
    destruct (Z.compare_spec (strcmp x w) 0) as [E|E|E]; simpl.
    + rewrite E. reflexivity.
    + replace (strcmp x w =? 0) with false by (symmetry; apply Z.eqb_neq; lia).
      replace (0 <? strcmp x w) with false by (symmetry; apply Z.ltb_ge; lia).
      reflexivity.
    + replace (strcmp x w =? 0) with false by (symmetry; apply Z.eqb_neq; lia).
      replace (0 <? strcmp x w) with true by (symmetry; apply Z.ltb_lt; lia).
      reflexivity.
Qed.

Lemma StronglySorted_nth_error {A : Type} (R : A -> A -> Prop) (l : list A) :
  StronglySorted R l ->
  forall (i j : nat) (x y : A),
    nth_error l i = Some x -> nth_error l j = Some y -> (i < j)%nat -> R x y.
Proof.
  induction 1 as [|a l Hs IH Ha]; intros i j x y Hi Hj Hlt.
  - destruct i; discriminate.
  - destruct j as [|j]; [lia|]. simpl in Hj. destruct i as [|i]; simpl in Hi.
    + injection Hi as <-. rewrite Forall_forall in Ha. apply Ha.
      eapply nth_error_In; eassumption.
    + eapply IH; eauto. lia.
Qed.

(** The search between [low] and [high], when every word before [low] is
    below [w] and every word after [high] is above it. *)
Lemma binarySearch_range (wordList : list word) (w : word) :
  all_letters wordList -> Forall lowercase w -> StronglySorted Spec.lex_lt wordList ->
  forall (m : nat) (low high : Z),
    (Z.to_nat (high - low + 1) <= m)%nat ->
    0 <= low -> high < Zlength wordList ->
    (forall i x, 0 <= i < low -> nth_error wordList (Z.to_nat i) = Some x ->
                 Spec.lex_lt x w) ->
    (forall i x, high < i -> nth_error wordList (Z.to_nat i) = Some x ->
                 Spec.lex_lt w x) ->
    (binarySearch wordList w low high = Ok true /\ In w wordList) \/
    (binarySearch wordList w low high = Ok false /\ ~ In w wordList).
Proof.
  intros Hall Hw Hs. induction m as [|m IH]; intros low high Hm Hlow Hhigh Hbelow Habove;
    rewrite binarySearch_body.
  - replace (low >? high) with true by (symmetry; apply Z.gtb_gt; lia).
    right. split; [reflexivity|]. intros Hin.
    apply In_nth_error in Hin as [i Hi].
    destruct (Z_lt_dec (Z.of_nat i) low).
    + apply (lex_lt_irrefl w). apply (Hbelow (Z.of_nat i)); [lia|].
      now rewrite Nat2Z.id.
    + apply (lex_lt_irrefl w). apply (Habove (Z.of_nat i)); [lia|].
      now rewrite Nat2Z.id.
  - destruct (Z.gtb_spec low high) as [Hgt|Hle].
    + right. split; [reflexivity|]. intros Hin.
      apply In_nth_error in Hin as [i Hi].
      destruct (Z_lt_dec (Z.of_nat i) low).
      * apply (lex_lt_irrefl w). apply (Hbelow (Z.of_nat i)); [lia|].
        now rewrite Nat2Z.id.
      * apply (lex_lt_irrefl w). apply (Habove (Z.of_nat i)); [lia|].
        now rewrite Nat2Z.id.
    + cbv zeta. rewrite Z.quot_div_nonneg by lia.
      set (mid := (low + high) / 2).
      assert (Hmid : low <= mid <= high) by (unfold mid; Z.div_mod_to_equations; lia).
      destruct (aget_in_range wordList mid ltac:(lia)) as [x Hx].
      rewrite Hx. cbn [bind].
      apply aget_nth_error in Hx as [_ Hx].
      assert (Hlx : Forall lowercase x).
      { unfold all_letters in Hall. rewrite Forall_forall in Hall.
        apply Hall. eapply nth_error_In; eassumption. }
      destruct (Z.eqb_spec (strcmp x w) 0) as [E|E].
      * left. split; [reflexivity|]. apply strcmp_eq in E; trivial. subst x.
        eapply nth_error_In; eassumption.
      * destruct (Z.gtb_spec (strcmp x w) 0) as [Hgt|Hng].
        -- assert (Hwx : Spec.lex_lt w x) by (apply strcmp_gt; trivial; lia).
           apply IH; try lia; [exact Hbelow|].
           intros i y Hi Hy. destruct (Z.eq_dec i mid) as [->|Hne].
           ++ congruence.
           ++ apply (lex_lt_trans w x y Hwx).
              apply (StronglySorted_nth_error _ _ Hs (Z.to_nat mid) (Z.to_nat i)); trivial.
              lia.
        -- assert (Hxw : Spec.lex_lt x w) by (apply strcmp_lt; trivial; lia).
           apply IH; try lia; [|exact Habove].
           intros i y Hi Hy. destruct (Z.eq_dec i mid) as [->|Hne].
           ++ congruence.
           ++ apply (lex_lt_trans y x w); [|exact Hxw].
              apply (StronglySorted_nth_error _ _ Hs (Z.to_nat i) (Z.to_nat mid)); trivial.
              lia.
Qed.

Lemma inList_cases (w : word) (wordList : list word) :
  Sorted Spec.lex_lt wordList -> Forall valid_word wordList -> valid_word w ->
  (inList w wordList = Ok true /\ In w wordList) \/
  (inList w wordList = Ok false /\ ~ In w wordList).
Proof.
  intros Hs Hv Hw. unfold inList.
  apply (binarySearch_range wordList w (valid_all_letters _ Hv) (valid_word_letters _ Hw)
           (Sorted_StronglySorted lex_lt_trans Hs)
           (Z.to_nat (Zlength wordList - 1 - 0 + 1))); try lia.
  intros i x Hi Hx. exfalso.
  assert (nth_error wordList (Z.to_nat i) <> None) by congruence.
  apply nth_error_Some in H. zlen. lia.
Qed.

Lemma StronglySorted_app_rel {A : Type} (R : A -> A -> Prop) (l1 l2 : list A) :
  StronglySorted R (l1 ++ l2) ->
  forall x y, In x l1 -> In y l2 -> R x y.
Proof.
  induction l1 as [|a l1 IH]; intros Hs x y Hx Hy; [contradiction|].
  simpl in Hs. inversion Hs as [|? ? Hs' Ha]; subst.
  destruct Hx as [<-|Hx]; [|now apply IH].
  rewrite Forall_forall in Ha. apply Ha, in_or_app. now right.
Qed.

Lemma between_absent (front back : list word) (a b w : word) :
  Sorted Spec.lex_lt (front ++ a :: b :: back) ->
  Spec.lex_lt a w -> Spec.lex_lt w b -> ~ In w (front ++ a :: b :: back).
Proof.
  intros Hs Ha Hb Hin.
  apply Sorted_StronglySorted in Hs; [|exact lex_lt_trans].
  apply in_app_or in Hin as [Hin|[<-|[<-|Hin]]].
  - apply (lex_lt_irrefl w), (lex_lt_trans w a w); [|exact Ha].
    apply (StronglySorted_app_rel _ _ _ Hs); [exact Hin | now left].
  - exact (lex_lt_irrefl _ Ha).
  - exact (lex_lt_irrefl _ Hb).
  - apply (lex_lt_irrefl w), (lex_lt_trans w b w); [exact Hb|].
    replace (front ++ a :: b :: back) with ((front ++ [a; b]) ++ back) in Hs
      by (rewrite <- app_assoc; reflexivity).
    apply (StronglySorted_app_rel _ _ _ Hs); [|exact Hin].
    apply in_or_app. right. simpl. auto.
Qed.

(** C6.  On a strictly ascending list of Words, and for a Word [w],
    [inList] returns, and returns true exactly when [w] occurs in the
    list: in particular it finds the first and the last word, and rejects
    a word that lies strictly between two neighbours of the list. *)
Theorem inList_iff (w : word) (wordList : list word) :
  Spec.strictly_ascending wordList -> Forall valid_word wordList -> valid_word w ->
  (exists b, inList w wordList = Ok b) /\
  (inList w wordList = Ok true <-> In w wordList) /\
  (forall first rest, wordList = first :: rest -> inList first wordList = Ok true) /\
  (forall front last_, wordList = front ++ [last_] -> inList last_ wordList = Ok true) /\
  (forall front a b back,
     wordList = front ++ a :: b :: back -> Spec.lex_lt a w -> Spec.lex_lt w b ->
     inList w wordList = Ok false).
Proof.
  intros Hs Hv Hw.
  assert (Hmem : forall x, In x wordList -> inList x wordList = Ok true).
  { intros x Hx. assert (Hvx : valid_word x).
    { rewrite Forall_forall in Hv. now apply Hv. }
    destruct (inList_cases x wordList Hs Hv Hvx) as [[H _]|[_ H]];
      [exact H | contradiction]. }
  assert (Habs : forall front a b back,
            wordList = front ++ a :: b :: back -> Spec.lex_lt a w -> Spec.lex_lt w b ->
            ~ In w wordList).
  { intros front a b back -> Ha Hb. now apply between_absent. }
  destruct (inList_cases w wordList Hs Hv Hw) as [[Hrun Hin]|[Hrun Hin]].
  - split; [eauto|]. split; [tauto|].
    split; [intros ? ? ->; apply Hmem; now left|].
    split; [intros ? ? ->; apply Hmem, in_or_app; right; now left|].
    intros front a b back Heq Ha Hb. exfalso.
    exact (Habs front a b back Heq Ha Hb Hin).
  - split; [eauto|]. split; [split; [rewrite Hrun; discriminate | contradiction]|].
    split; [intros ? ? ->; apply Hmem; now left|].
    split; [intros ? ? ->; apply Hmem, in_or_app; right; now left|].
    intros; exact Hrun.
Qed.

Lemma inList_iff_witness :
  inList [98; 97; 107; 101; 114]
    [[97; 112; 112; 108; 101]; [98; 97; 107; 101; 114]; [99; 97; 110; 100; 121]]
  = Ok true.
Proof.
  destruct (inList_iff [98; 97; 107; 101; 114]
    [[97; 112; 112; 108; 101]; [98; 97; 107; 101; 114]; [99; 97; 110; 100; 121]])
    as (_ & H & _).
  - repeat constructor; simpl; lia.
  - repeat constructor; vm_compute; discriminate.
  - repeat constructor; vm_compute; discriminate.
  - apply H. simpl. auto.
Defined.

(** ** Start-up *)

(** C3, as the code has it.  [main] chooses the target before it sorts:
    after a successful load of [n] words and for a non-negative seed, the
    target is the word at index [(seed mod n) * 4611686018453 mod n] of the
    word list in the order of the file.  Only then is the list sorted and
    checked for duplicates, and a duplicate ends start-up before any guess
    is read.  On the source apple, baker, candy and seed 0 the target is
    apple. *)
Theorem startup_target :
  (forall (fuel : nat) (src : FILE) (seed : Z) (wordList : list word) (capacity : Z),
     readWords src = Ok (wordList, capacity) -> 0 <= seed <= LONG_MAX ->
     (length wordList <= fuel)%nat ->
     let n := Zlength wordList in
     exists target,
       nth_error wordList (Z.to_nat ((seed mod n) * 4611686018453 mod n)) = Some target /\
       chooseWord seed wordList = Ok target /\
       ((exists sorted,
           startup fuel src seed = Ok (target, sorted) /\
           Permutation wordList sorted /\ Spec.strictly_ascending sorted /\
           NoDup wordList) \/
        (startup fuel src seed = Exit DuplicateWord /\ ~ NoDup wordList))) /\
  startup 3 (Spec.render [[97; 112; 112; 108; 101]; [98; 97; 107; 101; 114];
                          [99; 97; 110; 100; 121]] true) 0
  = Ok ([97; 112; 112; 108; 101],
        [[97; 112; 112; 108; 101]; [98; 97; 107; 101; 114]; [99; 97; 110; 100; 121]]).
Proof.
  split; [|reflexivity].
  intros fuel src seed wordList capacity Hload Hseed Hfuel n.
  pose proof (readWords_nonempty _ _ _ Hload) as (Hn & Hv & _).
  destruct (chooseWord_at seed wordList Hn Hseed Hv) as (target & Hnth & Hchoose).
  exists target. split; [exact Hnth|]. split; [exact Hchoose|].
  assert (Hne : wordList <> []) by (intros ->; zlen; simpl in Hn; lia).
  unfold startup. rewrite Hload. cbn [bind]. rewrite Hchoose. cbn [bind].
  destruct (sort_cases fuel wordList Hne Hv Hfuel)
    as [(s & Hs & Hperm & Hasc & Hnd)|[Hs Hnd]]; rewrite Hs; cbn [bind].
  - left. exists s. auto.
  - right. auto.
Qed.

Lemma startup_target_witness :
  exists target,
    chooseWord 0 [[98; 97; 107; 101; 114]; [97; 112; 112; 108; 101]] = Ok target /\
    startup 2 [98; 97; 107; 101; 114; 10; 97; 112; 112; 108; 101] 0
    = Ok (target, [[97; 112; 112; 108; 101]; [98; 97; 107; 101; 114]]).
Proof.
  destruct startup_target as [H _].
  destruct (H 2%nat [98; 97; 107; 101; 114; 10; 97; 112; 112; 108; 101] 0
              [[98; 97; 107; 101; 114]; [97; 112; 112; 108; 101]] 10)
    as (target & _ & Hc & [(s & Hs & _)|[Hs _]]).
  - reflexivity.
  - vm_compute. split; discriminate.
  - simpl. lia.
  - exists target. split; [exact Hc|]. rewrite Hs. vm_compute in Hs.
    injection Hs as <- <-. reflexivity.
  - vm_compute in Hs. discriminate.
Defined.

(** C3 as stated fails: with the file baker, apple and seed 0 the index
    is 0; the sorted list has apple there, the target is baker. *)
Lemma startup_target_counterexample :
  startup 2 [98; 97; 107; 101; 114; 10; 97; 112; 112; 108; 101] 0
  = Ok ([98; 97; 107; 101; 114],
        [[97; 112; 112; 108; 101]; [98; 97; 107; 101; 114]]) /\
  Spec.index 0 2 = 0 /\
  nth_error [[97; 112; 112; 108; 101]; [98; 97; 107; 101; 114]]
    (Z.to_nat (Spec.index 0 2)) <> Some [98; 97; 107; 101; 114].
Proof. split; [reflexivity|]. split; [reflexivity|]. discriminate. Qed.

(** ** Feedback: the code against the functional classification *)

Lemma flags_length (used : list bool) : Zlength (map Some used) = Zlength used.
Proof. zlen. reflexivity. Qed.

Lemma str_at_middle (pre post : word) (c : Z) :
  str_at (pre ++ c :: post) (Zlength pre) = c.
Proof.
  unfold str_at. rewrite Zlength_nat, Nat2Z.id, app_nth2 by lia.
  now rewrite Nat.sub_diag.
Qed.

(** The first loop of [processWord] fills the table with the exact
    matches. *)
Lemma init_flags (targetWord : word) (us : word) :
  forall (ts tp : word) (done : flags) (todo : flags),
    targetWord = tp ++ ts -> length us = length ts -> length todo = length us ->
    Zlength done = Zlength tp -> nonzero us ->
    for_str (fun i ch used => aset used i (Some (ch =? str_at targetWord i)))
      us (Zlength done) (done ++ todo)
    = Ok (done ++ map Some (exact_matches us ts)).
Proof.
  induction us as [|u us IH]; intros ts tp done todo Ht Hlen Htodo Hd Hnz.
  - destruct todo; [|discriminate]. reflexivity.
  - destruct ts as [|t ts]; [discriminate|]. destruct todo as [|y todo]; [discriminate|].
    inversion Hnz as [|? ? Hu Hnz']; subst.
    cbn [for_str]. replace (u =? NULL_TERMINATOR) with false
      by (symmetry; now apply Z.eqb_neq).
    rewrite aset_middle. cbn [bind]. rewrite Hd, str_at_middle.
    rewrite <- Hd, <- (Zlength_snoc done (Some (u =? t))), <- (snoc_app done todo).
    rewrite (IH ts (tp ++ [t])); auto.
    + rewrite snoc_app. reflexivity.
    + now rewrite snoc_app.
    + rewrite !Zlength_snoc. lia.
Qed.

(** The inner loop of [processWord] claims the first free cell that faces
    the letter. *)
Lemma scan_target_claim (g : Z) (ts : word) :
  forall (up us : list bool),
    length ts = length us -> nonzero ts ->
    scan_target g ts (Zlength up) (map Some (up ++ us)) =
    match claim g ts us with
    | Some us' => Ok (map Some (up ++ us'), true)
    | None => Ok (map Some (up ++ us), false)
    end.
Proof.
  induction ts as [|t ts IH]; intros up us Hlen Hnz.
  - destruct us; [reflexivity | discriminate].
  - destruct us as [|u us]; [discriminate|].
    inversion Hnz as [|? ? Ht Hnz']; subst.
    cbn [scan_target claim]. replace (t =? NULL_TERMINATOR) with false
      by (symmetry; now apply Z.eqb_neq).
    assert (Hread : read_flag (map Some (up ++ u :: us)) (Zlength up) = Ok u).
    { unfold read_flag. rewrite map_app. cbn [map].
      rewrite <- (flags_length up), aget_middle. reflexivity. }
    assert (Hnext : scan_target g ts (Zlength up + 1) (map Some (up ++ u :: us)) =
                    match option_map (cons u) (claim g ts us) with
                    | Some us' => Ok (map Some (up ++ us'), true)
                    | None => Ok (map Some (up ++ u :: us), false)
                    end).
    { rewrite <- (Zlength_snoc up u), <- (snoc_app up us u), IH
        by (simpl in Hlen; auto; lia).
      destruct (claim g ts us); cbn [option_map]; now rewrite ?snoc_app. }
    destruct (g =? t); cbn [andb].
    + rewrite Hread. cbn [bind]. destruct u; cbn [negb].
      * exact Hnext.
      * rewrite map_app. cbn [map]. rewrite <- (flags_length up), aset_middle.
        cbn [bind]. rewrite map_app. reflexivity.
    + cbn [bind]. exact Hnext.
Qed.

Lemma claim_length (g : Z) (target : word) (used used' : list bool) :
  claim g target used = Some used' -> length used' = length used.
Proof.
  revert used used'. induction target as [|t target IH]; intros [|u used] used';
    simpl; try discriminate.
  destruct ((g =? t) && negb u); [intros [= <-]; reflexivity|].
  destruct (claim g target used) eqn:E; simpl; [|discriminate].
  intros [= <-]. simpl. f_equal. eauto.
Qed.

Lemma shown_app (current : color) (a b : list output) :
  shown current (a ++ b) = shown current a ++ shown (color_after current a) b.
Proof.
  revert current. induction a as [|[c|ch] a IH]; intros current; simpl; auto.
  now rewrite IH.
Qed.

Lemma color_after_app (current : color) (a b : list output) :
  color_after current (a ++ b) = color_after (color_after current a) b.
Proof. revert current. induction a as [|[c|ch] a IH]; intros current; simpl; auto. Qed.

(** Printing one character in colour [c]. *)
Lemma shown_set_color (current c : color) (ch : Z) :
  shown current (set_color current c ++ [Putc ch]) = [(ch, c)] /\
  color_after current (set_color current c ++ [Putc ch]) = c.
Proof. destruct current, c; split; reflexivity. Qed.

(** The main loop of [processWord] shows every letter of the guess in the
    colour of its classification. *)
Lemma processLetters (targetWord : word) (us : word) :
  forall (ts tp : word) (used : list bool) (currentColor : color) (out : list output),
    targetWord = tp ++ ts -> length us = length ts ->
    length used = length targetWord -> nonzero us -> nonzero targetWord ->
    exists used' out',
      for_str (processLetter targetWord) us (Zlength tp)
        (map Some used, currentColor, out)
      = Ok (map Some used', color_after currentColor out', out ++ out') /\
      shown currentColor out'
      = combine us (map color_of (classify_from targetWord (combine us ts) used)).
Proof.
  induction us as [|u us IH]; intros ts tp used cur out Ht Hlen Hused Hnz Hnzt.
  - exists used, []. rewrite app_nil_r. split; reflexivity.
  - destruct ts as [|t ts]; [discriminate|].
    inversion Hnz as [|? ? Hu Hnz']; subst.
    cbn [for_str]. replace (u =? NULL_TERMINATOR) with false
      by (symmetry; now apply Z.eqb_neq).
    cbn [combine classify_from]. unfold processLetter at 1.
    rewrite str_at_middle.
    assert (Hnext : forall used1 c,
      length used1 = length (tp ++ t :: ts) ->
      exists used' out',
        for_str (processLetter (tp ++ t :: ts)) us (Zlength tp + 1)
          (map Some used1, c, out ++ set_color cur c ++ [Putc u])
        = Ok (map Some used', color_after cur out', out ++ out') /\
        shown cur out'
        = (u, c) :: combine us
            (map color_of (classify_from (tp ++ t :: ts) (combine us ts) used1))).
    { intros used1 c Hused1.
      destruct (IH ts (tp ++ [t]) used1 c (out ++ set_color cur c ++ [Putc u]))
        as (used' & out' & Hrun & Hshown); auto.
      - now rewrite snoc_app.
      - rewrite Zlength_snoc in Hrun.
        destruct (shown_set_color cur c u) as [Hs Hc].
        exists used', ((set_color cur c ++ [Putc u]) ++ out').
        rewrite Hrun, color_after_app, shown_app, Hs, Hc, Hshown.
        rewrite <- !app_assoc. split; reflexivity. }
    destruct (u =? t).
    + cbn [bind]. destruct (Hnext used green Hused) as (used' & out' & H1 & H2).
      exists used', out'. auto.
    + pose proof (scan_target_claim u (tp ++ t :: ts) [] used
                    ltac:(simpl; lia) Hnzt) as Hscan.
      cbn [app] in Hscan. change (Zlength (@nil bool)) with 0 in Hscan.
      rewrite Hscan. destruct (claim u (tp ++ t :: ts) used) as [used1|] eqn:Ec;
        cbn [bind].
      * apply claim_length in Ec.
        destruct (Hnext used1 yellow ltac:(lia)) as (used' & out' & H1 & H2).
        exists used', out'. auto.
      * destruct (Hnext used defaultColor Hused) as (used' & out' & H1 & H2).
        exists used', out'. auto.
Qed.

Lemma valid_word_nonzero (w : word) : valid_word w -> nonzero w.
Proof.
  intros [_ H]. unfold nonzero. eapply Forall_impl; [|exact H].
  unfold lowercase, LOWERCASE_A, NULL_TERMINATOR. intros c Hc. lia.
Qed.

Lemma classify_from_length (target : word) (pairs : list (Z * Z)) :
  forall used, length (classify_from target pairs used) = length pairs.
Proof.
  induction pairs as [|[g t] pairs IH]; intros used; simpl; [reflexivity|].
  destruct (g =? t); simpl; [now rewrite IH|].
  destruct (claim g target used); simpl; now rewrite IH.
Qed.

Lemma exact_matches_length (guess target : word) :
  length guess = length target -> length (exact_matches guess target) = length target.
Proof. intros H. unfold exact_matches. rewrite length_map, length_combine. lia. Qed.

(** [processWord] on two Words: what the terminal shows. *)
Lemma processWord_shown (userWord targetWord : word) :
  valid_word userWord -> valid_word targetWord ->
  exists out,
    processWord userWord targetWord = Ok out /\
    shown defaultColor out
    = combine userWord (map color_of (classification userWord targetWord))
      ++ [(LINE_FEED, defaultColor)].
Proof.
  intros Hu Ht.
  pose proof (valid_word_length _ Hu) as Hlu.
  pose proof (valid_word_length _ Ht) as Hlt.
  pose proof (valid_word_nonzero _ Hu) as Hnu.
  pose proof (valid_word_nonzero _ Ht) as Hnt.
  unfold processWord.
  pose proof (init_flags targetWord userWord targetWord [] []
                (repeat None (Z.to_nat WORD_LEN)) eq_refl
                ltac:(lia) ltac:(rewrite repeat_length; lia) eq_refl Hnu) as Hinit.
  cbn [app] in Hinit. change (Zlength (@nil (option bool))) with 0 in Hinit.
  rewrite Hinit. cbn [bind].
  destruct (processLetters targetWord userWord targetWord []
              (exact_matches userWord targetWord) defaultColor [] eq_refl)
    as (used' & out' & Hrun & Hshown); auto; try lia.
  { apply exact_matches_length. lia. }
  change (Zlength (@nil Z)) with 0 in Hrun. rewrite Hrun. cbn [bind app].
  eexists. split; [reflexivity|].
  rewrite shown_app, Hshown. f_equal.
  destruct (color_after defaultColor out'); reflexivity.
Qed.

Lemma removelast_snoc {A : Type} (l : list A) (x : A) : removelast (l ++ [x]) = l.
Proof. rewrite removelast_app by discriminate. simpl. apply app_nil_r. Qed.

Lemma result_of_color_of (rs : list Spec.PerLetterResult) (w : word) :
  length rs = length w ->
  map (fun p : Z * color => result_of (snd p)) (combine w (map color_of rs)) = rs.
Proof.
  revert w. induction rs as [|r rs IH]; intros [|c w] H; try discriminate; [reflexivity|].
  simpl. rewrite IH by (simpl in H; lia). destruct r; reflexivity.
Qed.

(** [processWord] on two Words: it returns, shows the letters of the guess
    in order, and the classification it shows is the functional one. *)
Lemma processWord_feedback (userWord targetWord : word) :
  valid_word userWord -> valid_word targetWord ->
  exists out,
    processWord userWord targetWord = Ok out /\
    map fst (shown defaultColor out) = userWord ++ [LINE_FEED] /\
    feedback out = classification userWord targetWord.
Proof.
  intros Hu Ht.
  destruct (processWord_shown userWord targetWord Hu Ht) as (out & Hrun & Hshown).
  pose proof (valid_word_length _ Hu) as Hlu.
  pose proof (valid_word_length _ Ht) as Hlt.
  assert (Hlen : length (classification userWord targetWord) = length userWord).
  { unfold classification. rewrite classify_from_length, length_combine. lia. }
  exists out. split; [exact Hrun|]. split.
  - rewrite Hshown, map_app. cbn [map fst]. f_equal.
    clear Hshown. revert Hlen. generalize (classification userWord targetWord).
    generalize userWord. clear.
    induction userWord as [|c w IH]; intros [|r rs] H; try discriminate; [reflexivity|].
    simpl. f_equal. apply IH. simpl in H. lia.
  - unfold feedback. rewrite Hshown, removelast_snoc.
    now apply result_of_color_of.
Qed.

(** ** Feedback: the two passes of the specification against the
    functional classification *)

Lemma letter_middle (pre post : word) (c : Z) :
  Spec.letter (pre ++ c :: post) (length pre) = c.
Proof. unfold Spec.letter. apply nth_middle. Qed.

Lemma exact_matches_cons (g t : Z) (gs ts : word) :
  exact_matches (g :: gs) (t :: ts) = (g =? t) :: exact_matches gs ts.
Proof. reflexivity. Qed.

Lemma first_pass_marks (guess target : word) (gs : word) :
  forall (ts gp tp : word) (tdone : list bool)
         (rdone : list (option Spec.PerLetterResult)),
    guess = gp ++ gs -> target = tp ++ ts -> length gs = length ts ->
    length tp = length gp -> length tdone = length gp -> length rdone = length gp ->
    fold_left (Spec.first_pass_at guess target) (seq (length gp) (length gs))
      (tdone ++ repeat false (length gs), rdone ++ repeat None (length gs))
    = (tdone ++ exact_matches gs ts,
       rdone ++ correct_marks (exact_matches gs ts)).
Proof.
  induction gs as [|g gs IH]; intros ts gp tp tdone rdone Hg Ht Hlen Htp Htd Hrd.
  - destruct ts; [reflexivity | discriminate].
  - destruct ts as [|t ts]; [discriminate|].
    cbn [length seq fold_left repeat]. rewrite exact_matches_cons.
    unfold Spec.first_pass_at at 2. cbn [fst snd].
    rewrite Hg, letter_middle, Ht, <- Htp, letter_middle, <- Hg, <- Ht.
    assert (Hnext : forall b : bool,
      fold_left (Spec.first_pass_at guess target) (seq (S (length tp)) (length gs))
        (tdone ++ b :: repeat false (length gs),
         rdone ++ (if b then Some Spec.Correct else None) :: repeat None (length gs))
      = (tdone ++ b :: exact_matches gs ts,
         rdone ++ correct_marks (b :: exact_matches gs ts))).
    { intros b. rewrite <- (snoc_app tdone), <- (snoc_app rdone).
      replace (S (length tp)) with (length (gp ++ [g])) by (zlen; lia).
      rewrite (IH ts (gp ++ [g]) (tp ++ [t])); try (zlen; simpl in *; lia).
      - unfold correct_marks. cbn [map]. now rewrite !snoc_app.
      - now rewrite snoc_app.
      - now rewrite snoc_app. }
    destruct (g =? t); [|exact (Hnext false)].
    rewrite !replace_nth_at by lia. exact (Hnext true).
Qed.

Lemma first_unclaimed_claim (g : Z) (target : word) (ts : word) :
  forall (tp : word) (td tt : list bool),
    target = tp ++ ts -> length td = length tp -> length tt = length ts ->
    match Spec.first_unclaimed g target (td ++ tt) (seq (length tp) (length ts)) with
    | Some j =>
        exists tt', claim g ts tt = Some tt' /\
                    replace_nth j (td ++ tt) true = td ++ tt'
    | None => claim g ts tt = None
    end.
Proof.
  induction ts as [|t ts IH]; intros tp td tt Ht Htd Htt.
  - reflexivity.
  - destruct tt as [|u tt]; [discriminate|].
    cbn [length seq Spec.first_unclaimed claim].
    rewrite Ht, letter_middle, <- Ht. rewrite <- Htd, nth_middle.
    destruct ((g =? t) && negb u).
    + exists (true :: tt). split; [reflexivity | apply replace_nth_middle].
    + specialize (IH (tp ++ [t]) (td ++ [u]) tt).
      rewrite !snoc_app in IH.
      replace (length (tp ++ [t])) with (S (length td)) in IH by (zlen; lia).
      specialize (IH Ht ltac:(zlen; lia) ltac:(simpl in Htt; lia)).
      destruct (Spec.first_unclaimed g target (td ++ u :: tt)
                  (seq (S (length td)) (length ts))) as [j|].
      * destruct IH as (tt' & -> & Hrep). exists (u :: tt'). split; [reflexivity|].
        rewrite Hrep, snoc_app. reflexivity.
      * rewrite IH. reflexivity.
Qed.

Lemma second_pass_classify (guess target : word) (gs : word) :
  forall (ts gp tp : word) (rdone : list (option Spec.PerLetterResult))
         (table : list bool),
    guess = gp ++ gs -> target = tp ++ ts -> length gs = length ts ->
    length rdone = length gp -> length table = length target ->
    map Spec.resolved
      (snd (fold_left (Spec.second_pass_at guess target)
              (seq (length gp) (length gs))
              (table, rdone ++ correct_marks (exact_matches gs ts))))
    = map Spec.resolved rdone ++ classify_from target (combine gs ts) table.
Proof.
  induction gs as [|g gs IH]; intros ts gp tp rdone table Hg Ht Hlen Hrd Htb.
  - destruct ts; [|discriminate]. simpl. now rewrite !app_nil_r.
  - destruct ts as [|t ts]; [discriminate|].
    cbn [length seq fold_left]. rewrite exact_matches_cons.
    unfold correct_marks. cbn [map]. fold (correct_marks (exact_matches gs ts)).
    cbn [combine classify_from].
    unfold Spec.second_pass_at at 2. cbn [fst snd].
    rewrite nth_at by lia.
    rewrite Hg, letter_middle, <- Hg.
    assert (Hnext : forall table' r,
      length table' = length target ->
      map Spec.resolved
        (snd (fold_left (Spec.second_pass_at guess target)
                (seq (S (length gp)) (length gs))
                (table', rdone ++ r :: correct_marks (exact_matches gs ts))))
      = map Spec.resolved rdone ++
        Spec.resolved r :: classify_from target (combine gs ts) table').
    { intros table' r Htb'.
      replace (S (length gp)) with (length (gp ++ [g])) by (zlen; lia).
      rewrite <- (snoc_app rdone).
      rewrite (IH ts (gp ++ [g]) (tp ++ [t])); try (zlen; simpl in *; lia).
      - rewrite map_app, <- app_assoc. reflexivity.
      - now rewrite snoc_app.
      - now rewrite snoc_app. }
    destruct (g =? t).
    + exact (Hnext table (Some Spec.Correct) Htb).
    + pose proof (first_unclaimed_claim g target target [] [] table
                    eq_refl eq_refl Htb) as Hscan.
      cbn [app length] in Hscan.
      destruct (Spec.first_unclaimed g target table (seq 0 (length target))) as [j|].
      * destruct Hscan as (table' & -> & Hrep). rewrite Hrep.
        rewrite replace_nth_at by lia.
        pose proof (replace_nth_length j table true) as Hl. rewrite Hrep in Hl.
        exact (Hnext table' (Some Spec.Present) ltac:(lia)).
      * rewrite Hscan. exact (Hnext table None Htb).
Qed.

(** The two passes of the specification compute the functional
    classification. *)
Lemma classify_classification (guess target : word) :
  length guess = length target ->
  Spec.classify guess target = classification guess target.
Proof.
  intros Hlen. unfold Spec.classify. cbv zeta.
  pose proof (first_pass_marks guess target guess target [] [] [] []
                eq_refl eq_refl Hlen eq_refl eq_refl eq_refl) as H1.
  cbn [app length] in H1. rewrite <- Hlen, H1.
  pose proof (second_pass_classify guess target guess target [] [] []
                (exact_matches guess target) eq_refl eq_refl Hlen eq_refl
                (exact_matches_length guess target Hlen)) as H2.
  cbn [app length map] in H2. exact H2.
Qed.

(** C1.  For a guess and a target that are Words, [processWord] prints
    the letters of the guess in order, each in a colour, and the
    classification read off the colours (green Correct, yellow Present,
    default Absent) is the result of the two-pass algorithm of the
    specification. *)
Theorem processWord_two_pass (userWord targetWord : word) :
  valid_word userWord -> valid_word targetWord ->
  exists out,
    processWord userWord targetWord = Ok out /\
    map fst (shown defaultColor out) = userWord ++ [LINE_FEED] /\
    feedback out = Spec.classify userWord targetWord.
Proof.
  intros Hu Ht.
  destruct (processWord_feedback userWord targetWord Hu Ht) as (out & Hrun & Hl & Hf).
  exists out. split; [exact Hrun|]. split; [exact Hl|].
  rewrite Hf. symmetry. apply classify_classification.
  rewrite (valid_word_length _ Hu), (valid_word_length _ Ht). reflexivity.
Qed.

Lemma processWord_two_pass_witness :
  exists out,
    processWord [100; 101; 101; 100; 115] [115; 112; 101; 101; 100] = Ok out /\
    feedback out = [Spec.Present; Spec.Present; Spec.Correct; Spec.Absent; Spec.Present].
Proof.
  destruct (processWord_two_pass [100; 101; 101; 100; 115] [115; 112; 101; 101; 100])
    as (out & Hrun & _ & Hf).
  - split; [reflexivity | repeat constructor; vm_compute; discriminate].
  - split; [reflexivity | repeat constructor; vm_compute; discriminate].
  - exists out. split; [exact Hrun | exact Hf].
Defined.

(** ** Feedback: counting the matches *)

Lemma free_nonneg (c : Z) (target : word) :
  forall used, 0 <= free c target used.
Proof.
  induction target as [|t target IH]; intros [|u used]; simpl; try lia.
  specialize (IH used). destruct ((c =? t) && negb u); lia.
Qed.

Lemma exact_nonneg (c : Z) (pairs : list (Z * Z)) : 0 <= exact c pairs.
Proof.
  induction pairs as [|[g t] pairs IH]; simpl; [lia|].
  destruct ((g =? c) && (g =? t)); lia.
Qed.

Lemma inexact_nonneg (c : Z) (pairs : list (Z * Z)) : 0 <= inexact c pairs.
Proof.
  induction pairs as [|[g t] pairs IH]; simpl; [lia|].
  destruct ((g =? c) && negb (g =? t)); lia.
Qed.

(** A claim takes one free cell of its own letter and none of another. *)
Lemma claim_free (g : Z) (target : word) :
  forall used,
    match claim g target used with
    | Some used' =>
        free g target used' = free g target used - 1 /\
        (forall c, c <> g -> free c target used' = free c target used)
    | None => free g target used = 0
    end.
Proof.
  induction target as [|t target IH]; intros [|u used]; simpl; trivial.
  specialize (IH used).
  destruct (Z.eqb_spec g t) as [E|E]; destruct u; cbn [andb negb];
    try (destruct (claim g target used) as [used'|]; cbn [option_map];
         [destruct IH as [IH1 IH2]|]);
    cbn [free]; rewrite ?IH1;
    repeat match goal with
           | |- _ /\ _ => split
           | |- forall c, _ => let c := fresh "c" in let Hc := fresh "Hc" in
                               intros c Hc; try rewrite (IH2 c Hc)
           end;
    subst; rewrite ?Z.eqb_refl;
    repeat match goal with
           | H : ?a <> ?b |- context [?a =? ?b] =>
               rewrite (proj2 (Z.eqb_neq a b) H)
           end;
    cbn [andb negb]; lia.
Qed.

(** The matches of the letter [c]: its exact matches, and as many of the
    others as there are free cells facing [c]. *)
Lemma matched_classify_from (c : Z) (target : word) (pairs : list (Z * Z)) :
  forall used,
    matched c (map fst pairs) (classify_from target pairs used)
    = exact c pairs + Z.min (inexact c pairs) (free c target used).
Proof.
  induction pairs as [|[g t] pairs IH]; intros used.
  - simpl. pose proof (free_nonneg c target used). lia.
  - cbn [map fst classify_from exact inexact].
    pose proof (inexact_nonneg c pairs) as Hi.
    pose proof (free_nonneg c target used) as Hf.
    destruct (g =? t) eqn:Egt; cbn [matched negb andb].
    + rewrite IH, !andb_true_r, andb_false_r. destruct (g =? c); lia.
    + rewrite andb_false_r, andb_true_r.
      pose proof (claim_free g target used) as Hc.
      destruct (claim g target used) as [used'|]; cbn [matched negb].
      * destruct Hc as [Hc1 Hc2]. rewrite IH, andb_true_r.
        destruct (Z.eqb_spec g c) as [->|Hne].
        -- rewrite Hc1. lia.
        -- rewrite (Hc2 c) by congruence. lia.
      * rewrite IH, andb_false_r.
        destruct (Z.eqb_spec g c) as [->|Hne]; lia.
Qed.

Lemma occurrences_cons (c x : Z) (w : word) :
  occurrences c (x :: w) = (if x =? c then 1 else 0) + occurrences c w.
Proof.
  unfold occurrences. simpl. destruct (x =? c); [rewrite Zlength_cons|]; lia.
Qed.

Lemma occurrences_pairs (c : Z) (guess : word) :
  forall target,
    length guess = length target ->
    occurrences c guess = exact c (combine guess target) + inexact c (combine guess target) /\
    free c target (exact_matches guess target)
    = occurrences c target - exact c (combine guess target).
Proof.
  induction guess as [|g guess IH]; intros [|t target] Hlen; try discriminate.
  - split; reflexivity.
  - destruct (IH target ltac:(simpl in Hlen; lia)) as [IH1 IH2].
    rewrite !occurrences_cons, exact_matches_cons. cbn [combine exact inexact free].
    rewrite IH1, IH2.
    destruct (Z.eqb_spec g c), (Z.eqb_spec g t), (Z.eqb_spec t c),
      (Z.eqb_spec c t); cbn [andb negb]; try congruence; lia.
Qed.

Lemma matched_classification (c : Z) (guess target : word) :
  length guess = length target ->
  matched c guess (classification guess target)
  = Z.min (occurrences c guess) (occurrences c target).
Proof.
  intros Hlen. destruct (occurrences_pairs c guess target Hlen) as [H1 H2].
  pose proof (matched_classify_from c target (combine guess target)
                (exact_matches guess target)) as H.
  replace (map fst (combine guess target)) with guess in H.
  2:{ clear -Hlen. revert target Hlen.
      induction guess as [|g guess IH]; intros [|t target] Hlen; try discriminate;
        [reflexivity|].
      simpl. f_equal. apply IH. simpl in Hlen. lia. }
  unfold classification. rewrite H, H1, H2. lia.
Qed.

(** C2.  For a guess and a target that are Words and every letter [c],
    the positions of the guess that hold [c] and are shown Correct or
    Present are as many as the smaller of the numbers of [c] in the guess
    and in the target; "deeds" against "speed" is shown Present, Present,
    Correct, Absent, Present. *)
Theorem processWord_min_count :
  (forall (userWord targetWord : word) (c : Z),
     valid_word userWord -> valid_word targetWord ->
     exists out,
       processWord userWord targetWord = Ok out /\
       matched c userWord (feedback out)
       = Z.min (occurrences c userWord) (occurrences c targetWord)) /\
  (exists out,
     processWord [100; 101; 101; 100; 115] [115; 112; 101; 101; 100] = Ok out /\
     feedback out
     = [Spec.Present; Spec.Present; Spec.Correct; Spec.Absent; Spec.Present]).
Proof.
  split.
  - intros userWord targetWord c Hu Ht.
    destruct (processWord_feedback userWord targetWord Hu Ht) as (out & Hrun & _ & Hf).
    exists out. split; [exact Hrun|]. rewrite Hf.
    apply matched_classification.
    rewrite (valid_word_length _ Hu), (valid_word_length _ Ht). reflexivity.
  - eexists. split; reflexivity.
Qed.

Lemma processWord_min_count_witness :
  exists out,
    processWord [100; 101; 101; 100; 115] [115; 112; 101; 101; 100] = Ok out /\
    matched 101 [100; 101; 101; 100; 115] (feedback out) = 2.
Proof.
  destruct processWord_min_count as [H _].
  destruct (H [100; 101; 101; 100; 115] [115; 112; 101; 101; 100] 101)
    as (out & Hrun & Hm).
  - split; [reflexivity | repeat constructor; vm_compute; discriminate].
  - split; [reflexivity | repeat constructor; vm_compute; discriminate].
  - exists out. split; [exact Hrun|]. rewrite Hm. reflexivity.
Defined.

(** ** The examples of the specification, run on the code *)

Example processWord_all_correct :
  option_map feedback
    (match processWord [97; 98; 99; 100; 101] [97; 98; 99; 100; 101] with
     | Ok out => Some out
     | _ => None
     end)
  = Some [Spec.Correct; Spec.Correct; Spec.Correct; Spec.Correct; Spec.Correct].
Proof. reflexivity. Qed.

Example processWord_output :
  processWord [100; 101; 101; 100; 115] [115; 112; 101; 101; 100]
  = Ok [Escape yellow; Putc 100; Putc 101; Escape green; Putc 101;
        Escape defaultColor; Putc 100; Escape yellow; Putc 115;
        Escape defaultColor; Putc 10].
Proof. reflexivity. Qed.

Example readWords_grows :
  readWords (Spec.render (repeat [97; 112; 112; 108; 101] 11) true)
  = Ok (repeat [97; 112; 112; 108; 101] 11, 20).
Proof. vm_compute. reflexivity. Qed.

Example readWords_wrong_length :
  readWords [97; 112; 112; 108; 101; 10; 98; 97; 107; 101; 10] = Exit InvalidWordFormat.
Proof. reflexivity. Qed.

Example sort_duplicate :
  sort 3 [[98; 97; 107; 101; 114]; [97; 112; 112; 108; 101]; [98; 97; 107; 101; 114]]
  = Exit DuplicateWord.
Proof. reflexivity. Qed.

Example sort_idempotent :
  sort 3 [[97; 112; 112; 108; 101]; [98; 97; 107; 101; 114]; [99; 97; 110; 100; 121]]
  = Ok [[97; 112; 112; 108; 101]; [98; 97; 107; 101; 114]; [99; 97; 110; 100; 121]].
Proof. reflexivity. Qed.

(** * Further properties of the code *)

(** ** Sorting and searching together *)

Lemma ascending_unique (a : list word) :
  forall b, Sorted Spec.lex_lt a -> Sorted Spec.lex_lt b -> Permutation a b -> a = b.
Proof.
  induction a as [|x a IH]; intros b Ha Hb Hp.
  - apply Permutation_nil in Hp. now subst.
  - destruct b as [|y b]; [apply Permutation_sym, Permutation_nil in Hp; discriminate|].
    pose proof (Sorted_StronglySorted lex_lt_trans Ha) as Sa.
    pose proof (Sorted_StronglySorted lex_lt_trans Hb) as Sb.
    inversion Sa as [|? ? Sa' Fa]; subst. inversion Sb as [|? ? Sb' Fb]; subst.
    rewrite Forall_forall in Fa, Fb.
    assert (x = y) as ->.
    { assert (Hx : In x (y :: b)) by (eapply Permutation_in; [exact Hp | now left]).
      assert (Hy : In y (x :: a))
        by (eapply Permutation_in; [symmetry; exact Hp | now left]).
      destruct Hx as [Hx|Hx]; [now subst|].
      destruct Hy as [Hy|Hy]; [now subst|].
      exfalso. apply (lex_lt_irrefl x), (lex_lt_trans x y x); auto. }
    f_equal. apply IH.
    + now inversion Ha.
    + now inversion Hb.
    + eapply Permutation_cons_inv; exact Hp.
Qed.

(** More fuel does not change a result of [mergeSort]. *)
Lemma mergeSort_more_fuel (fuel : nat) :
  forall (l sorted : list word) (n : Z) (fuel' : nat),
    mergeSort fuel l n = Ok sorted -> (fuel <= fuel')%nat ->
    mergeSort fuel' l n = Ok sorted.
Proof.
  induction fuel as [|fuel IH]; intros l sorted n fuel' H Hle.
  - simpl in H. destruct fuel'; simpl; destruct (negb (n =? 1)); auto; discriminate.
  - destruct fuel' as [|fuel']; [lia|]. cbn [mergeSort] in *.
    destruct (negb (n =? 1)); [|exact H].
    destruct (copyArray l 0 (Z.quot n 2 - 1)) as [l1| | |]; try discriminate.
    destruct (copyArray l (Z.quot n 2) (n - 1)) as [l2| | |]; try discriminate.
    cbn [bind] in *.
    destruct (mergeSort fuel l1 (leftLength_of n)) as [s1| | |] eqn:E1; try discriminate.
    cbn [bind] in H.
    destruct (mergeSort fuel l2 (rightLength_of n)) as [s2| | |] eqn:E2; try discriminate.
    rewrite (IH _ _ _ fuel' E1), (IH _ _ _ fuel' E2) by lia. exact H.
Qed.

Lemma sort_more_fuel (fuel fuel' : nat) (wordList sorted : list word) :
  sort fuel wordList = Ok sorted -> (fuel <= fuel')%nat ->
  sort fuel' wordList = Ok sorted.
Proof.
  unfold sort. intros H Hle.
  destruct (mergeSort fuel wordList (Zlength wordList)) as [s| | |] eqn:E;
    try discriminate.
  now rewrite (mergeSort_more_fuel _ _ _ _ fuel' E Hle).
Qed.

(** What a successful [sort] of Words has produced, whatever the fuel. *)
Lemma sort_ok (fuel : nat) (wordList sorted : list word) :
  wordList <> [] -> Forall valid_word wordList -> sort fuel wordList = Ok sorted ->
  Permutation wordList sorted /\ Sorted Spec.lex_lt sorted /\
  Forall valid_word sorted /\ sorted <> [].
Proof.
  intros Hne Hv H.
  pose proof (sort_more_fuel fuel (Nat.max fuel (length wordList)) _ _ H
                (Nat.le_max_l _ _)) as H'.
  destruct (sort_cases (Nat.max fuel (length wordList)) wordList Hne Hv
              (Nat.le_max_r _ _)) as [(s & Hs & Hp & Ha & _)|[Hs _]];
    rewrite Hs in H'; [|discriminate].
  injection H' as ->. repeat split; trivial.
  - eapply Permutation_Forall; eassumption.
  - intros ->. apply Permutation_sym, Permutation_nil in Hp. contradiction.
Qed.

(** X1.  [sort] leaves a strictly ascending list of Words as it is, so
    sorting what [sort] has returned gives the same list again. *)
Theorem sort_of_ascending (fuel : nat) (wordList : list word) :
  wordList <> [] -> Forall valid_word wordList -> (length wordList <= fuel)%nat ->
  (Spec.strictly_ascending wordList -> sort fuel wordList = Ok wordList) /\
  (forall sorted, sort fuel wordList = Ok sorted -> sort fuel sorted = Ok sorted).
Proof.
  intros Hne Hv Hfuel.
  assert (Hasc : forall l, l <> [] -> Forall valid_word l -> (length l <= fuel)%nat ->
                           Sorted Spec.lex_lt l -> sort fuel l = Ok l).
  { intros l Hl Hvl Hfl Hs.
    destruct (sort_cases fuel l Hl Hvl Hfl) as [(s & Hrun & Hp & Ha & _)|[_ Hnd]].
    - rewrite Hrun. f_equal. symmetry. now apply ascending_unique.
    - exfalso. apply Hnd. now apply ascending_NoDup. }
  split; [now apply Hasc|].
  intros sorted H. destruct (sort_ok _ _ _ Hne Hv H) as (Hp & Ha & Hvs & Hns).
  apply Hasc; trivial. rewrite <- (Permutation_length Hp). exact Hfuel.
Qed.

Lemma sort_of_ascending_witness :
  sort 2 [[97; 112; 112; 108; 101]; [98; 97; 107; 101; 114]]
  = Ok [[97; 112; 112; 108; 101]; [98; 97; 107; 101; 114]].
Proof.
  destruct (sort_of_ascending 2 [[97; 112; 112; 108; 101]; [98; 97; 107; 101; 114]])
    as [H _].
  - discriminate.
  - repeat constructor; vm_compute; discriminate.
  - simpl. lia.
  - apply H. repeat constructor; simpl; lia.
Defined.

Lemma copyWord_chosen (seed : Z) (wordList : list word) (w : word) :
  Forall valid_word wordList -> chooseWord seed wordList = Ok w -> In w wordList.
Proof.
  intros Hv. unfold chooseWord.
  destruct (randomIndex seed (Zlength wordList)) as [i| | |]; try discriminate.
  cbn [bind]. destruct (aget wordList i) as [x| | |] eqn:E; try discriminate.
  cbn [bind]. intros [= <-]. apply aget_nth_error in E as [_ E].
  apply nth_error_In in E. rewrite copyWord_valid; [exact E|].
  rewrite Forall_forall in Hv. auto.
Qed.

(** X2.  After start-up the target is one of the words of the file and
    [inList] accepts it; and for every Word, [inList] on the sorted list
    answers, with true exactly for the words of the file. *)
Theorem startup_membership (fuel : nat) (src : FILE) (seed : Z)
    (wordList sorted : list word) (capacity : Z) (targetWord : word) :
  readWords src = Ok (wordList, capacity) ->
  startup fuel src seed = Ok (targetWord, sorted) ->
  In targetWord wordList /\ inList targetWord sorted = Ok true /\
  forall w, valid_word w ->
    (inList w sorted = Ok true <-> In w wordList) /\
    (inList w sorted = Ok false <-> ~ In w wordList).
Proof.
  intros Hload Hstart. unfold startup in Hstart. rewrite Hload in Hstart.
  cbn [bind] in Hstart.
  destruct (chooseWord seed wordList) as [t| | |] eqn:Ec; try discriminate.
  cbn [bind] in Hstart.
  destruct (sort fuel wordList) as [s| | |] eqn:Es; try discriminate.
  injection Hstart as -> ->.
  pose proof (readWords_nonempty _ _ _ Hload) as (Hn & Hv & _).
  assert (Hne : wordList <> []) by (intros ->; zlen; simpl in Hn; lia).
  destruct (sort_ok _ _ _ Hne Hv Es) as (Hp & Ha & Hvs & _).
  pose proof (copyWord_chosen _ _ _ Hv Ec) as Hin.
  assert (Hall : forall w, valid_word w ->
            (inList w sorted = Ok true <-> In w wordList) /\
            (inList w sorted = Ok false <-> ~ In w wordList)).
  { intros w Hw.
    destruct (inList_cases w sorted Ha Hvs Hw) as [[Hr Hi]|[Hr Hi]]; rewrite Hr.
    - apply (Permutation_in _ (Permutation_sym Hp)) in Hi.
      split; split; try tauto; discriminate.
    - assert (~ In w wordList)
        by (intros Hw'; apply Hi; eapply Permutation_in; eassumption).
      split; split; try tauto; try discriminate. }
  split; [exact Hin|]. split; [|exact Hall].
  apply Hall; [|exact Hin]. rewrite Forall_forall in Hv. auto.
Qed.

Lemma startup_membership_witness :
  inList [98; 97; 107; 101; 114] [[97; 112; 112; 108; 101]; [98; 97; 107; 101; 114]]
  = Ok true.
Proof.
  destruct (startup_membership 2 [98; 97; 107; 101; 114; 10; 97; 112; 112; 108; 101] 0
              [[98; 97; 107; 101; 114]; [97; 112; 112; 108; 101]]
              [[97; 112; 112; 108; 101]; [98; 97; 107; 101; 114]] 10
              [98; 97; 107; 101; 114]) as (_ & H & _);
    [reflexivity | reflexivity | exact H].
Defined.

(** X3.  [merge] fills the list with a permutation of the two halves,
    whatever the list held before; when both halves hold words of
    lowercase letters in ascending order (no word above its successor),
    so does the result. *)
Theorem merge_ascending (left right list_ : list word) :
  length list_ = (length left + length right)%nat ->
  exists result,
    merge left (Zlength left) right (Zlength right) list_ (Zlength list_) = Ok result /\
    Permutation (left ++ right) result /\
    (all_letters left -> all_letters right ->
     Sorted word_le left -> Sorted word_le right -> Sorted word_le result).
Proof.
  intros Hlen. exists (merged left right). split; [now apply merge_merged|].
  split; [apply merged_perm|]. intros. now apply merged_sorted.
Qed.

Lemma merge_ascending_witness :
  exists result,
    merge [[97]; [99]] 2 [[98]; [100]] 2 [[0]; [0]; [0]; [0]] 4 = Ok result /\
    Permutation [[97]; [99]; [98]; [100]] result.
Proof.
  destruct (merge_ascending [[97]; [99]] [[98]; [100]] [[0]; [0]; [0]; [0]])
    as (result & H1 & H2 & _); [reflexivity|].
  exists result. split; [exact H1 | exact H2].
Defined.

(** X4.  [copyArray] returns the elements from index [start] to index
    [end] inclusive when these lie in the list, and the empty array when
    [end = start - 1]. *)
Theorem copyArray_range (origList : list word) (start end_ : Z) :
  0 <= start -> start <= end_ + 1 -> end_ < Zlength origList ->
  copyArray origList start end_
  = Ok (firstn (Z.to_nat (end_ - start + 1)) (skipn (Z.to_nat start) origList)).
Proof.
  intros H0 H1 H2.
  set (seg := firstn (Z.to_nat (end_ - start + 1)) (skipn (Z.to_nat start) origList)).
  assert (Hsplit : origList = firstn (Z.to_nat start) origList ++ seg ++
                     skipn (Z.to_nat (end_ - start + 1)) (skipn (Z.to_nat start) origList)).
  { unfold seg. now rewrite !firstn_skipn. }
  assert (Hpre : Zlength (firstn (Z.to_nat start) origList) = start).
  { rewrite Zlength_nat, length_firstn. zlen. lia. }
  assert (Hseg : Zlength seg = end_ - start + 1).
  { unfold seg. rewrite Zlength_nat, length_firstn, length_skipn. zlen. lia. }
  pose proof (copyArray_segment (firstn (Z.to_nat start) origList) seg
                (skipn (Z.to_nat (end_ - start + 1)) (skipn (Z.to_nat start) origList)))
    as H.
  rewrite <- Hsplit, Hpre, Hseg in H.
  replace (start + (end_ - start + 1) - 1) with end_ in H by lia. exact H.
Qed.

Lemma copyArray_range_witness :
  copyArray [[97]; [98]; [99]; [100]] 1 2 = Ok [[98]; [99]].
Proof.
  apply (copyArray_range [[97]; [98]; [99]; [100]] 1 2); vm_compute; congruence.
Defined.

(** ** Loading: the byte 0xFF *)

Lemma readLine_cut (w : word) (junk : FILE) :
  valid_word w ->
  readLine (w ++ 255 :: junk) WORD_LEN = Ok (false, w, junk) /\
  readLine (w ++ LINE_FEED :: 255 :: junk) WORD_LEN = Ok (false, w, junk).
Proof.
  intros Hv. pose proof (valid_word_length w Hv) as Hlen. destruct Hv as [_ Hall].
  unfold readLine. rewrite <- Hlen.
  split; rewrite readLetters_letters by assumption; reflexivity.
Qed.

Lemma readWords_loop_cut (ws : list word) (t : bool) (junk : FILE) :
  ws <> [] -> Forall valid_word ws ->
  forall (fuel1 fuel2 : nat) (acc : list word) (capacity : Z),
    (length ws <= fuel1)%nat -> (length ws <= fuel2)%nat ->
    readWords_loop fuel1 (Spec.render ws t ++ 255 :: junk) acc capacity
    = readWords_loop fuel2 (Spec.render ws t) acc capacity.
Proof.
  intros Hne Hv. induction Hv as [|w ws Hw Hws IH]; [congruence|].
  intros fuel1 fuel2 acc capacity H1 H2.
  destruct fuel1 as [|fuel1]; [simpl in H1; lia|].
  destruct fuel2 as [|fuel2]; [simpl in H2; lia|].
  destruct (readLine_record w Hw) as (R1 & R2 & R3).
  destruct (readLine_cut w junk Hw) as (C1 & C2).
  cbn [readWords_loop]. destruct ws as [|w' ws].
  - assert (Ha : readLine (Spec.render [w] t ++ 255 :: junk) WORD_LEN = Ok (false, w, junk)).
    { destruct t; simpl; rewrite <- app_assoc; [exact C2 | exact C1]. }
    assert (Hb : readLine (Spec.render [w] t) WORD_LEN = Ok (false, w, [])).
    { destruct t; simpl; [exact R2 | now rewrite app_nil_r]. }
    rewrite Ha, Hb. reflexivity.
  - destruct (render_starts (w' :: ws) t) as (u & rest & Hu & Hrest);
      [discriminate | assumption |].
    rewrite render_cons by discriminate.
    rewrite <- app_assoc. cbn [app]. rewrite Hrest. cbn [app].
    rewrite !(R3 u _ Hu). cbn [bind].
    destruct (Zlength acc =? WORD_LIMIT); [reflexivity|].
    destruct (Zlength acc <? _); [|reflexivity].
    change (u :: rest ++ 255 :: junk) with ((u :: rest) ++ 255 :: junk).
    rewrite <- Hrest. apply IH; [discriminate | simpl in *; lia | simpl in *; lia].
Qed.

(** X5.  A byte 0xFF where a record ends, or right after its line feed,
    ends the load as the end of the file does: everything behind it is
    ignored, and [readWords] returns what it returns on the records before
    it. *)
Theorem readWords_cut (records : list word) (final_terminator : bool) (junk : FILE) :
  records <> [] -> Forall valid_word records ->
  readWords (Spec.render records final_terminator ++ 255 :: junk)
  = readWords (Spec.render records final_terminator).
Proof.
  intros Hne Hv. unfold readWords.
  pose proof (render_length records final_terminator Hv) as Hlen.
  apply readWords_loop_cut; trivial; rewrite ?length_app; lia.
Qed.

Lemma readWords_cut_witness :
  readWords ([97; 112; 112; 108; 101] ++ 255 :: [1; 2; 3])
  = Ok ([[97; 112; 112; 108; 101]], 10).
Proof.
  assert (Hv : Forall valid_word [[97; 112; 112; 108; 101]])
    by (repeat constructor; vm_compute; discriminate).
  exact (readWords_cut [[97; 112; 112; 108; 101]] false [1; 2; 3]
           ltac:(discriminate) Hv).
Defined.

(** ** Choosing with a negative seed *)

Lemma rem_nonpos_bound (a b : Z) : a <= 0 -> 0 < b -> - b < Z.rem a b <= 0.
Proof.
  intros Ha Hb. replace a with (- (- a)) by lia. rewrite Z.rem_opp_l by lia.
  pose proof (Z.rem_bound_pos (- a) b ltac:(lia) Hb). lia.
Qed.

(** X6.  For a negative seed the index that [chooseWord] computes is never
    positive: either it is 0 and the first word is chosen, or it is
    negative and [chooseWord] reads in front of the word list. *)
Theorem chooseWord_negative_seed (seed : Z) (wordList : list word) :
  1 <= Zlength wordList <= WORD_LIMIT -> LONG_MIN <= seed < 0 ->
  Forall valid_word wordList ->
  exists i,
    randomIndex seed (Zlength wordList) = Ok i /\ - Zlength wordList < i <= 0 /\
    (i = 0 -> chooseWord seed wordList = Ok (nth 0 wordList [])) /\
    (i < 0 -> chooseWord seed wordList = Undefined).
Proof.
  unfold WORD_LIMIT, LONG_MIN. intros Hn Hs Hv.
  set (n := Zlength wordList) in *.
  assert (Hr1 : - n < Z.rem seed n <= 0).
  { apply rem_nonpos_bound; lia. }
  assert (Hp : - n * MULTIPLIER < Z.rem seed n * MULTIPLIER <= 0)
    by (unfold MULTIPLIER; nia).
  assert (Hr2 : - n < Z.rem (Z.rem seed n * MULTIPLIER) n <= 0).
  { apply rem_nonpos_bound; lia. }
  assert (Hi : randomIndex seed n = Ok (Z.rem (Z.rem seed n * MULTIPLIER) n)).
  { unfold randomIndex, long_rem.
    replace (n =? 0) with false by (symmetry; apply Z.eqb_neq; lia).
    replace (n =? -1) with false by (symmetry; apply Z.eqb_neq; lia).
    rewrite !andb_false_r. cbn [bind]. unfold long_mul, in_long, LONG_MIN, LONG_MAX.
    replace (_ && _) with true
      by (symmetry; apply andb_true_iff; split; apply Z.leb_le;
          unfold MULTIPLIER in *; lia).
    cbn [bind]. rewrite andb_false_r. reflexivity. }
  exists (Z.rem (Z.rem seed n * MULTIPLIER) n).
  split; [exact Hi|]. split; [exact Hr2|]. unfold chooseWord. fold n. rewrite Hi.
  cbn [bind]. split.
  - intros ->. destruct wordList as [|w wordList]; [subst n; zlen; simpl in *; lia|].
    assert (Hw : aget (w :: wordList) 0 = Ok w) by (apply (aget_middle [] wordList w)).
    rewrite Hw. cbn [bind nth]. rewrite copyWord_valid; [reflexivity|].
    now inversion Hv.
  - intros Hneg. unfold aget.
    replace (0 <=? Z.rem (Z.rem seed n * MULTIPLIER) n) with false
      by (symmetry; apply Z.leb_gt; lia).
    reflexivity.
Qed.

Lemma chooseWord_negative_seed_witness :
  chooseWord (-1) [[97; 112; 112; 108; 101]; [98; 97; 107; 101; 114]] = Undefined.
Proof.
  destruct (chooseWord_negative_seed (-1)
              [[97; 112; 112; 108; 101]; [98; 97; 107; 101; 114]])
    as (i & Hi & _ & _ & H).
  - vm_compute. split; discriminate.
  - vm_compute. split; [discriminate | reflexivity].
  - repeat constructor; vm_compute; discriminate.
  - apply H. vm_compute in Hi. injection Hi as <-. reflexivity.
Defined.

(** ** The seed argument *)

Lemma decimal_from_ge (ds : list Z) :
  forall v, 0 <= v -> Forall is_digit ds -> v <= decimal_from v ds.
Proof.
  induction ds as [|d ds IH]; intros v Hv Hd; [simpl; lia|].
  inversion Hd as [|? ? Hd1 Hd2]; subst. unfold is_digit, NUMBER_0, NUMBER_9 in Hd1.
  unfold decimal_from in *. cbn [fold_left].
  specialize (IH (v * BASE_10 + (d - NUMBER_0))).
  unfold BASE_10, NUMBER_0 in *. specialize (IH ltac:(lia) Hd2). lia.
Qed.

(** A [long] holds the mathematical result less a multiple of [2 ^ 64]. *)
Lemma to_long_wraps (z k : Z) :
  LONG_MIN <= z - k * 2 ^ 64 <= LONG_MAX -> to_long z = z - k * 2 ^ 64.
Proof.
  unfold to_long, LONG_MIN, LONG_MAX. change (2 ^ 64) with 18446744073709551616.
  intros H. Z.div_mod_to_equations. lia.
Qed.

Lemma to_long_fits (z : Z) : LONG_MIN <= z <= LONG_MAX -> to_long z = z.
Proof. intros H. rewrite (to_long_wraps z 0); lia. Qed.

Lemma to_long_range (z : Z) : LONG_MIN <= to_long z <= LONG_MAX.
Proof.
  unfold to_long, LONG_MIN, LONG_MAX. change (2 ^ 64) with 18446744073709551616.
  Z.div_mod_to_equations. lia.
Qed.

Lemma to_long_congruent (a b : Z) :
  a mod 2 ^ 64 = b mod 2 ^ 64 -> to_long a = to_long b.
Proof.
  intros H. unfold to_long. f_equal.
  rewrite (Zminus_mod a), (Zminus_mod b), H. reflexivity.
Qed.

Lemma to_long_mod (z : Z) : to_long z mod 2 ^ 64 = z mod 2 ^ 64.
Proof.
  unfold to_long, LONG_MIN. change (2 ^ 64) with 18446744073709551616.
  Z.div_mod_to_equations. lia.
Qed.

Lemma decimal_from_congruent (ds : list Z) :
  forall a b, a mod 2 ^ 64 = b mod 2 ^ 64 ->
    decimal_from a ds mod 2 ^ 64 = decimal_from b ds mod 2 ^ 64.
Proof.
  induction ds as [|d ds IH]; intros a b H; [exact H|].
  unfold decimal_from in *. cbn [fold_left]. apply IH.
  rewrite (Zplus_mod (a * BASE_10)), (Zplus_mod (b * BASE_10)).
  rewrite (Zmult_mod a), (Zmult_mod b), H. reflexivity.
Qed.

Lemma digit_tests (d : Z) :
  is_digit d ->
  (d =? NULL_TERMINATOR) = false /\ ((d <? NUMBER_0) || (d >? NUMBER_9)) = false /\
  0 <= d - NUMBER_0 <= 9.
Proof.
  unfold is_digit, NULL_TERMINATOR, NUMBER_0, NUMBER_9. intros H.
  split; [apply Z.eqb_neq; lia|]. split; [|lia].
  apply orb_false_iff. split; [apply Z.ltb_ge | rewrite Z.gtb_ltb; apply Z.ltb_ge]; lia.
Qed.

(** The loop of [getSeed] over digits that spell a number that fits. *)
Lemma getSeed_loop_app (tail : word) (ds : list Z) :
  forall v, 0 <= v <= LONG_MAX -> Forall is_digit ds ->
    decimal_from v ds <= LONG_MAX ->
    getSeed_loop (ds ++ tail) v = getSeed_loop tail (decimal_from v ds).
Proof.
  induction ds as [|d ds IH]; intros v Hv Hd Hmax; [reflexivity|].
  inversion Hd as [|? ? Hd1 Hd2]; subst.
  destruct (digit_tests d Hd1) as (E1 & E2 & Hk).
  pose proof (decimal_from_ge ds (v * BASE_10 + (d - NUMBER_0))) as Hge.
  cbn [app getSeed_loop]. rewrite E1, E2.
  unfold decimal_from in *. cbn [fold_left] in *.
  unfold BASE_10, LONG_MAX in *. specialize (Hge ltac:(lia) Hd2).
  rewrite (to_long_fits (v * 10)) by (unfold LONG_MIN, LONG_MAX; lia).
  replace (v * 10 <? 0) with false by (symmetry; apply Z.ltb_ge; lia).
  rewrite to_long_fits by (unfold LONG_MIN, LONG_MAX; lia).
  apply IH; [lia | exact Hd2 | exact Hmax].
Qed.

(** What [getSeed] stores for digits is the number they spell, wrapped
    around. *)
Lemma getSeed_loop_stored (ds : list Z) :
  forall v seed, Forall is_digit ds -> LONG_MIN <= v <= LONG_MAX ->
    getSeed_loop ds v = Seed seed -> seed = to_long (decimal_from v ds).
Proof.
  induction ds as [|d ds IH]; intros v seed Hd Hv.
  - cbn [getSeed_loop]. intros [= <-]. symmetry. now apply to_long_fits.
  - inversion Hd as [|? ? Hd1 Hd2]; subst.
    destruct (digit_tests d Hd1) as (E1 & E2 & Hk).
    cbn [getSeed_loop]. rewrite E1, E2.
    destruct (to_long (v * BASE_10) <? 0); [discriminate|].
    intros H. apply IH in H; [|exact Hd2 | apply to_long_range].
    rewrite H.
    change (decimal_from v (d :: ds))
      with (decimal_from (v * BASE_10 + (d - NUMBER_0)) ds).
    apply to_long_congruent, decimal_from_congruent.
    rewrite to_long_mod.
    rewrite (Zplus_mod (to_long (v * BASE_10))), to_long_mod, <- Zplus_mod.
    reflexivity.
Qed.

(** X7.  On an argument made of decimal digits [getSeed] stores the
    number they spell when it is at most [LONG_MAX] (0 for the empty
    argument).  Whatever the number, a seed that [getSeed] stores for
    such an argument is that number wrapped around to 64 bits. *)
Theorem getSeed_digits (str : word) :
  Forall is_digit str ->
  (decimal_from 0 str <= LONG_MAX -> getSeed str = Seed (decimal_from 0 str)) /\
  (forall seed, getSeed str = Seed seed -> seed = to_long (decimal_from 0 str)).
Proof.
  intros Hd. unfold getSeed. split.
  - intros Hmax. rewrite <- (app_nil_r str) at 1.
    now rewrite getSeed_loop_app by (first [assumption | unfold LONG_MAX; lia]).
  - intros seed. apply getSeed_loop_stored; [exact Hd | unfold LONG_MIN, LONG_MAX; lia].
Qed.

Lemma getSeed_digits_witness : getSeed [52; 50] = Seed 42.
Proof.
  destruct (getSeed_digits [52; 50]) as [H _].
  - repeat constructor; vm_compute; discriminate.
  - apply H. vm_compute. discriminate.
Defined.

(** X8.  A character that is no digit, behind digits that spell a number
    of at most [LONG_MAX], makes [getSeed] end in the usage error. *)
Theorem getSeed_not_a_digit (ds : list Z) (c : Z) (rest : word) :
  Forall is_digit ds -> decimal_from 0 ds <= LONG_MAX ->
  c <> NULL_TERMINATOR -> ~ is_digit c ->
  getSeed (ds ++ c :: rest) = UsageError.
Proof.
  intros Hd Hmax Hc Hnd. unfold getSeed.
  rewrite getSeed_loop_app by (first [assumption | unfold LONG_MAX; lia]).
  cbn [getSeed_loop].
  replace (c =? NULL_TERMINATOR) with false by (symmetry; now apply Z.eqb_neq).
  replace ((c <? NUMBER_0) || (c >? NUMBER_9)) with true; [reflexivity|].
  symmetry. apply orb_true_iff. rewrite Z.ltb_lt, Z.gtb_ltb, Z.ltb_lt.
  unfold is_digit in Hnd. lia.
Qed.

Lemma getSeed_not_a_digit_witness : getSeed [52; 50; 45; 49] = UsageError.
Proof.
  apply (getSeed_not_a_digit [52; 50] 45 [49]).
  - repeat constructor; vm_compute; discriminate.
  - vm_compute. discriminate.
  - discriminate.
  - vm_compute. intros [H _]. apply H. reflexivity.
Defined.



(** X22.  The check of [getSeed] for an overflow catches a product that
    has wrapped around to a negative number, and nothing else.  Behind
    digits that spell a number [v] of at most [LONG_MAX], a further digit
    gives the usage error when [10 * v] lies between [LONG_MAX] and
    [2 ^ 64]; when only the addition of the last digit passes
    [LONG_MAX], a negative seed is stored; and when [10 * v] has passed
    [2 ^ 64] and wrapped to a number that is not negative, a seed other
    than the number spelled is stored. *)
Theorem getSeed_overflow (ds : list Z) (d : Z) (rest : word) :
  Forall is_digit ds -> is_digit d -> decimal_from 0 ds <= LONG_MAX ->
  (LONG_MAX < decimal_from 0 ds * 10 < 2 ^ 64 ->
   getSeed (ds ++ d :: rest) = UsageError) /\
  (decimal_from 0 ds * 10 <= LONG_MAX < decimal_from 0 (ds ++ [d]) ->
   getSeed (ds ++ [d]) = Seed (decimal_from 0 (ds ++ [d]) - 2 ^ 64) /\
   decimal_from 0 (ds ++ [d]) - 2 ^ 64 < 0) /\
  (2 ^ 64 <= decimal_from 0 ds * 10 ->
   decimal_from 0 (ds ++ [d]) <= 2 ^ 64 + LONG_MAX ->
   getSeed (ds ++ [d]) = Seed (decimal_from 0 (ds ++ [d]) - 2 ^ 64) /\
   0 <= decimal_from 0 (ds ++ [d]) - 2 ^ 64).
Proof.
  intros Hd Hd1 Hmax.
  destruct (digit_tests d Hd1) as (E1 & E2 & Hk).
  assert (Hv : 0 <= decimal_from 0 ds) by (apply decimal_from_ge; [lia | exact Hd]).
  assert (Hlast : decimal_from 0 (ds ++ [d]) = decimal_from 0 ds * 10 + (d - NUMBER_0)).
  { unfold decimal_from. rewrite fold_left_app. reflexivity. }
  unfold getSeed.
  rewrite !getSeed_loop_app by (first [assumption | unfold LONG_MAX; lia]).
  rewrite Hlast. cbn [getSeed_loop]. rewrite E1, E2. change BASE_10 with 10.
  change (2 ^ 64) with 18446744073709551616. unfold LONG_MAX in *.
  split; [|split].
  - intros H. rewrite (to_long_wraps _ 1) by (unfold LONG_MIN, LONG_MAX; lia).
    replace (_ <? 0) with true by (symmetry; apply Z.ltb_lt; lia). reflexivity.
  - intros H. rewrite to_long_fits by (unfold LONG_MIN, LONG_MAX; lia).
    replace (_ <? 0) with false by (symmetry; apply Z.ltb_ge; lia).
    rewrite (to_long_wraps _ 1) by (unfold LONG_MIN, LONG_MAX; lia).
    split; [f_equal; lia | lia].
  - intros H1 H2. rewrite (to_long_wraps _ 1) by (unfold LONG_MIN, LONG_MAX; lia).
    replace (_ <? 0) with false by (symmetry; apply Z.ltb_ge; lia).
    rewrite to_long_fits by (unfold LONG_MIN, LONG_MAX; lia).
    split; [f_equal; lia | lia].
Qed.

Lemma getSeed_overflow_witness :
  getSeed [57; 50; 50; 51; 51; 55; 50; 48; 51; 54; 56; 53; 52; 55; 55; 53; 56; 48; 56]
  = Seed LONG_MIN /\
  getSeed [57; 50; 50; 51; 51; 55; 50; 48; 51; 54; 56; 53; 52; 55; 55; 53; 56; 49; 48]
  = UsageError.
Proof.
  split.
  - destruct (getSeed_overflow
                [57; 50; 50; 51; 51; 55; 50; 48; 51; 54; 56; 53; 52; 55; 55; 53; 56; 48]
                56 []) as (_ & H & _).
    + repeat constructor; vm_compute; discriminate.
    + vm_compute. split; discriminate.
    + vm_compute. discriminate.
    + destruct H as [H _]; [vm_compute; split; [discriminate | reflexivity]|].
      exact H.
  - destruct (getSeed_overflow
                [57; 50; 50; 51; 51; 55; 50; 48; 51; 54; 56; 53; 52; 55; 55; 53; 56; 49]
                48 []) as (H & _).
    + repeat constructor; vm_compute; discriminate.
    + vm_compute. split; discriminate.
    + vm_compute. discriminate.
    + apply H. vm_compute. split; reflexivity.
Defined.

(** ** The score history *)

Lemma decimal_from_app (v : Z) (a b : list Z) :
  decimal_from v (a ++ b) = decimal_from (decimal_from v a) b.
Proof. unfold decimal_from. apply fold_left_app. Qed.

Lemma digits_of_value (fuel : nat) :
  forall n, 0 <= n < 10 ^ Z.of_nat fuel ->
    decimal_from 0 (digits_of fuel n) = n /\ Forall is_digit (digits_of fuel n).
Proof.
  induction fuel as [|fuel IH]; intros n Hn.
  - change (10 ^ Z.of_nat 0) with 1 in Hn.
    split; [unfold decimal_from; cbn [digits_of fold_left]; lia | constructor].
  - rewrite Nat2Z.inj_succ, Z.pow_succ_r in Hn by lia.
    cbn [digits_of]. unfold BASE_10, NUMBER_0.
    destruct (Z.ltb_spec n 10) as [Hlt|Hge].
    + split; [unfold decimal_from, BASE_10, NUMBER_0; cbn [fold_left]; lia|].
      constructor; [unfold is_digit, NUMBER_0, NUMBER_9; lia | constructor].
    + destruct (IH (n / 10)) as [IH1 IH2]; [Z.div_mod_to_equations; lia|].
      split.
      * rewrite decimal_from_app, IH1. unfold decimal_from, BASE_10, NUMBER_0.
        cbn [fold_left]. Z.div_mod_to_equations. lia.
      * apply Forall_app. split; [exact IH2|].
        constructor; [|constructor].
        unfold is_digit, NUMBER_0, NUMBER_9. Z.div_mod_to_equations. lia.
Qed.

Lemma digits_of_nonempty (fuel : nat) (n : Z) : digits_of (S fuel) n <> [].
Proof.
  cbn [digits_of]. destruct (n <? BASE_10); [discriminate|].
  intros H. apply app_eq_nil in H as [_ H]. discriminate.
Qed.

(** The text that [printf( "%d" )] writes for a number an [int] holds and
    that is not negative. *)
Lemma print_d_digits (n : Z) :
  0 <= n <= INT_MAX ->
  exists d ds, print_d n = d :: ds /\ Forall is_digit (d :: ds) /\
               decimal_from 0 (d :: ds) = n.
Proof.
  intros Hn. unfold print_d.
  replace (n <? 0) with false by (symmetry; apply Z.ltb_ge; lia).
  destruct (digits_of_value 10 n) as [Hv Hd]; [unfold INT_MAX in Hn; simpl; lia|].
  pose proof (digits_of_nonempty 9 n) as Hne.
  destruct (digits_of 10 n) as [|d ds]; [congruence|]. eauto.
Qed.

Lemma digit_char (d : Z) : is_digit d -> to_char d = d /\ d <> SPACE_CHAR.
Proof.
  unfold is_digit, NUMBER_0, NUMBER_9, SPACE_CHAR. intros H.
  split; [apply to_char_small; lia | lia].
Qed.

Lemma is_digit_test (c : Z) :
  ((c >=? NUMBER_0) && (c <=? NUMBER_9) = true <-> is_digit c).
Proof. unfold is_digit. rewrite andb_true_iff, Z.geb_le, Z.leb_le. tauto. Qed.

Lemma int_op_ok (z : Z) : INT_MIN <= z <= INT_MAX -> int_op z = Ok z.
Proof.
  intros H. unfold int_op.
  replace (_ && _) with true; [reflexivity|].
  symmetry. apply andb_true_iff. rewrite !Z.leb_le. exact H.
Qed.

(** The digit loop of [nextInt] on digits followed by another character. *)
Lemma parseInt_digits (ds : list Z) :
  forall (d v sep : Z) (rest : FILE),
    is_digit d -> Forall is_digit ds -> 0 <= v ->
    decimal_from v (d :: ds) <= INT_MAX -> ~ is_digit (to_char sep) ->
    parseInt d (ds ++ sep :: rest) v = Ok (decimal_from v (d :: ds), rest).
Proof.
  induction ds as [|d' ds IH]; intros d v sep rest Hd Hds Hv Hmax Hsep.
  - pose proof Hd as Hd'. unfold is_digit, NUMBER_0, NUMBER_9 in Hd'.
    unfold decimal_from, BASE_10, NUMBER_0 in Hmax. cbn [fold_left] in Hmax.
    cbn [app parseInt]. rewrite (proj2 (is_digit_test d) Hd).
    unfold BASE_10, NUMBER_0 at 1.
    rewrite int_op_ok by (unfold INT_MIN, INT_MAX in *; lia). cbn [bind].
    rewrite int_op_ok by (unfold INT_MIN, INT_MAX in *; lia). cbn [bind].
    destruct rest as [|b rest]; cbn [parseInt];
      destruct ((to_char sep >=? NUMBER_0) && (to_char sep <=? NUMBER_9)) eqn:E;
      try (apply is_digit_test in E; contradiction); reflexivity.
  - inversion Hds as [|? ? Hd1 Hd2]; subst.
    pose proof Hd as Hd'. unfold is_digit, NUMBER_0, NUMBER_9 in Hd'.
    pose proof (decimal_from_ge (d' :: ds) (v * BASE_10 + (d - NUMBER_0))) as Hge.
    unfold BASE_10, NUMBER_0 in Hge. specialize (Hge ltac:(lia) Hds).
    assert (Hstep : decimal_from v (d :: d' :: ds)
                    = decimal_from (v * 10 + (d - 48)) (d' :: ds)) by reflexivity.
    rewrite Hstep in *.
    cbn [app parseInt]. rewrite (proj2 (is_digit_test d) Hd).
    unfold BASE_10, NUMBER_0 at 1.
    rewrite int_op_ok by (unfold INT_MIN, INT_MAX in *; lia). cbn [bind].
    rewrite int_op_ok by (unfold INT_MIN, INT_MAX in *; lia). cbn [bind].
    rewrite (proj1 (digit_char d' Hd1)).
    apply IH; trivial. lia.
Qed.

Lemma skipSpaces_spaces (k : nat) :
  forall (c : Z) (rest : FILE),
    to_char c <> SPACE_CHAR ->
    skipSpaces SPACE_CHAR (repeat SPACE_CHAR k ++ c :: rest) = (to_char c, rest).
Proof.
  induction k as [|k IH]; intros c rest Hc; cbn [repeat app skipSpaces].
  - change (SPACE_CHAR =? SPACE_CHAR) with true. cbv iota.
    destruct rest; cbn [skipSpaces];
      replace (to_char c =? SPACE_CHAR) with false by (symmetry; now apply Z.eqb_neq);
      reflexivity.
  - change (SPACE_CHAR =? SPACE_CHAR) with true. cbv iota.
    change (to_char SPACE_CHAR) with SPACE_CHAR. now apply IH.
Qed.

(** The digits of a non-negative [int], behind spaces and before a
    character that is no digit, are read as that number. *)
Lemma nextInt_digits (k : nat) (n sep : Z) (rest : FILE) :
  0 <= n <= INT_MAX -> ~ is_digit (to_char sep) ->
  nextInt (repeat SPACE_CHAR k ++ print_d n ++ sep :: rest) = Ok (n, rest).
Proof.
  intros Hn Hsep. destruct (print_d_digits n Hn) as (d & ds & -> & Hd & Hv).
  pose proof (proj1 (Forall_cons_iff _ _ _) Hd) as [Hd1 Hd2].
  destruct (digit_char d Hd1) as [Hc Hs].
  assert (Hskip : forall file, skipSpaces d file = (d, file)).
  { intros file. destruct file; cbn [skipSpaces];
      replace (d =? SPACE_CHAR) with false by (symmetry; now apply Z.eqb_neq);
      reflexivity. }
  unfold nextInt. destruct k as [|k].
  - cbn [repeat app getc]. rewrite Hc, Hskip.
    rewrite parseInt_digits; trivial; [now rewrite Hv | lia | rewrite Hv; lia].
  - cbn [repeat app getc]. change (to_char SPACE_CHAR) with SPACE_CHAR.
    change ((d :: ds) ++ sep :: rest) with (d :: ds ++ sep :: rest).
    rewrite skipSpaces_spaces by (rewrite Hc; exact Hs). rewrite Hc.
    rewrite parseInt_digits; trivial; [now rewrite Hv | lia | rewrite Hv; lia].
Qed.

(** X10.  [nextInt] reads back what [printf( "%d" )] writes: behind any
    number of spaces, the digits of a non-negative [int] followed by a
    character that is no digit give that number, and the file is left
    behind that character. *)
Theorem nextInt_print_d (k : nat) (n sep : Z) (rest : FILE) :
  0 <= n <= INT_MAX -> ~ is_digit (to_char sep) ->
  nextInt (repeat SPACE_CHAR k ++ print_d n ++ sep :: rest) = Ok (n, rest).
Proof. exact (nextInt_digits k n sep rest). Qed.

Lemma nextInt_print_d_witness :
  nextInt (repeat SPACE_CHAR 2 ++ print_d 1234 ++ 10 :: [55]) = Ok (1234, [55]).
Proof.
  apply (nextInt_print_d 2 1234 10 [55]).
  - vm_compute. split; discriminate.
  - vm_compute. intros [H _]. apply H. reflexivity.
Defined.

Lemma int_op_inv (z y : Z) : int_op z = Ok y -> y = z /\ INT_MIN <= z <= INT_MAX.
Proof.
  unfold int_op. destruct (Z.leb_spec INT_MIN z); cbn [andb]; [|discriminate].
  destruct (Z.leb_spec z INT_MAX); [|discriminate].
  intros [= <-]. lia.
Qed.

Lemma parseInt_range (file : FILE) :
  forall (ch v x : Z) (file' : FILE),
    0 <= v <= INT_MAX -> parseInt ch file v = Ok (x, file') -> 0 <= x <= INT_MAX.
Proof.
  induction file as [|b file IH]; intros ch v x file' Hv; cbn [parseInt];
    (destruct ((ch >=? NUMBER_0) && (ch <=? NUMBER_9)) eqn:E;
     [apply is_digit_test in E; unfold is_digit, NUMBER_0, NUMBER_9 in E
     | intros [= <- _]; exact Hv]);
    (destruct (int_op (v * BASE_10)) as [p| | |] eqn:Ep; try discriminate;
     apply int_op_inv in Ep as [-> Hp]; cbn [bind];
     destruct (int_op (v * BASE_10 + (ch - NUMBER_0))) as [q| | |] eqn:Eq;
     try discriminate; apply int_op_inv in Eq as [-> Hq]; cbn [bind];
     unfold BASE_10, NUMBER_0 in *).
  - intros [= <- _]. lia.
  - apply IH. lia.
Qed.

Lemma nextInt_range (file file' : FILE) (x : Z) :
  nextInt file = Ok (x, file') -> 0 <= x <= INT_MAX.
Proof.
  unfold nextInt. destruct (getc file) as [c f]. destruct (skipSpaces (to_char c) f) as [ch f'].
  apply parseInt_range. unfold INT_MAX. lia.
Qed.

Lemma readScores_range (k : nat) :
  forall (fp rest : FILE) (scores : list Z),
    readScores k fp = Ok (scores, rest) ->
    length scores = k /\ Forall (fun s => 0 <= s <= INT_MAX) scores.
Proof.
  induction k as [|k IH]; intros fp rest scores; cbn [readScores].
  - intros [= <- _]. split; [reflexivity | constructor].
  - destruct (nextInt fp) as [[x f]| | |] eqn:E; try discriminate. cbn [bind].
    destruct (readScores k f) as [[ss f']| | |] eqn:E'; try discriminate. cbn [bind].
    intros [= <- _]. apply IH in E' as [Hl Hr]. apply nextInt_range in E.
    split; [simpl; now rewrite Hl | now constructor].
Qed.

Lemma not_digit_space : ~ is_digit (to_char SPACE_CHAR).
Proof. vm_compute. intros [H _]. apply H. reflexivity. Qed.

Lemma not_digit_line_feed : ~ is_digit (to_char LINE_FEED).
Proof. vm_compute. intros [H _]. apply H. reflexivity. Qed.

(** Reading back the text of the scores file. *)
Lemma readScores_text (scores : list Z) (last_score : Z) :
  Forall (fun s => 0 <= s <= INT_MAX) scores -> 0 <= last_score <= INT_MAX ->
  readScores (S (length scores))
    (scores_text scores ++ print_d last_score ++ [LINE_FEED])
  = Ok (scores ++ [last_score], []).
Proof.
  intros Hs Hl. induction Hs as [|s scores Hs1 Hs2 IH].
  - cbn [scores_text map concat app length readScores].
    pose proof (nextInt_digits 0 last_score LINE_FEED [] Hl not_digit_line_feed) as H.
    cbn [repeat app] in H. rewrite H. reflexivity.
  - cbn [length]. remember (S (length scores)) as k eqn:Hk.
    cbn [readScores]. subst k. unfold scores_text. cbn [map concat].
    rewrite <- !app_assoc. cbn [app].
    pose proof (nextInt_digits 0 s SPACE_CHAR
                  (scores_text scores ++ print_d last_score ++ [LINE_FEED])
                  Hs1 not_digit_space) as H.
    cbn [repeat app] in H. fold (scores_text scores). rewrite H. cbn [bind].
    rewrite IH. reflexivity.
Qed.

(** What the first printing loop of [updateScore] writes to the file. *)
Lemma printRows_file (seg : list Z) :
  forall pre post : list Z,
    exists out,
      printRows (length seg) (pre ++ seg ++ post) (Zlength pre)
      = Ok (out, scores_text seg).
Proof.
  induction seg as [|s seg IH]; intros pre post.
  - exists []. reflexivity.
  - cbn [length printRows app]. rewrite aget_middle. cbn [bind].
    destruct (IH (pre ++ [s]) post) as [out Hout].
    rewrite snoc_app, Zlength_snoc in Hout. rewrite Hout. cbn [bind].
    eexists. unfold scores_text. cbn [map concat]. rewrite <- app_assoc.
    reflexivity.
Qed.

Lemma aget_nth {A : Type} (a : list A) (i : Z) (d : A) :
  0 <= i < Zlength a -> aget a i = Ok (nth (Z.to_nat i) a d).
Proof.
  intros Hi. apply aget_nth_error. split; [exact Hi|].
  apply nth_error_nth'. zlen. lia.
Qed.

Lemma replace_nth_Forall {A : Type} (P : A -> Prop) (n : nat) (l : list A) (x : A) :
  Forall P l -> P x -> Forall P (replace_nth n l x).
Proof.
  intros Hl Hx. revert n. induction Hl as [|y l Hy Hl IH]; intros [|n]; simpl;
    constructor; auto.
Qed.

Lemma bucket_index (guessCount : Z) (scores : list Z) :
  (if guessCount <? MAX_NUM_GUESSES
   then incrementScore scores (guessCount - 1)
   else incrementScore scores (MAX_NUM_GUESSES - 1))
  = incrementScore scores (bucket guessCount).
Proof.
  unfold bucket, MAX_NUM_GUESSES.
  destruct (Z.ltb_spec guessCount 10); f_equal; lia.
Qed.

(** [updateScore] on scores that have been read. *)
Lemma updateScore_written (guessCount : Z) (scores_txt : option FILE)
    (scores : list Z) (rest : FILE) :
  readScores (Z.to_nat MAX_NUM_GUESSES)
    (match scores_txt with Some f => f | None => zero_scores end) = Ok (scores, rest) ->
  1 <= guessCount ->
  nth (Z.to_nat (bucket guessCount)) scores 0 < INT_MAX ->
  exists out file,
    updateScore guessCount scores_txt = Ok (out, file) /\
    readScores (Z.to_nat MAX_NUM_GUESSES) file
    = Ok (replace_nth (Z.to_nat (bucket guessCount)) scores
            (nth (Z.to_nat (bucket guessCount)) scores 0 + 1), []).
Proof.
  intros Hread Hg Hmax. unfold updateScore. rewrite Hread. cbn [bind].
  rewrite bucket_index.
  pose proof (readScores_range _ _ _ _ Hread) as [Hlen Hrange].
  change (Z.to_nat MAX_NUM_GUESSES) with 10%nat in *.
  assert (Hb : 0 <= bucket guessCount < Zlength scores).
  { unfold bucket, MAX_NUM_GUESSES. zlen. lia. }
  set (b := bucket guessCount) in *.
  assert (Hx : 0 <= nth (Z.to_nat b) scores 0 <= INT_MAX).
  { rewrite Forall_forall in Hrange. apply Hrange, nth_In. zlen. lia. }
  unfold incrementScore. rewrite (aget_nth scores b 0 Hb). cbn [bind].
  rewrite int_op_ok by (unfold INT_MIN, INT_MAX in *; lia). cbn [bind].
  unfold aset. replace ((0 <=? b) && (b <? Zlength scores)) with true
    by (symmetry; apply andb_true_iff; rewrite Z.leb_le, Z.ltb_lt; exact Hb).
  cbn [bind].
  set (scores' := replace_nth (Z.to_nat b) scores (nth (Z.to_nat b) scores 0 + 1)).
  assert (Hlen' : length scores' = 10%nat)
    by (unfold scores'; now rewrite replace_nth_length).
  assert (Hrange' : Forall (fun s => 0 <= s <= INT_MAX) scores').
  { unfold scores'. apply replace_nth_Forall; [exact Hrange | lia]. }
  destruct (exists_last (l := scores')) as (seg & last_score & Hsplit).
  { intros E. rewrite E in Hlen'. discriminate. }
  rewrite Hsplit in *. rewrite length_app in Hlen'. cbn [length] in Hlen'.
  apply Forall_app in Hrange' as [Hseg Hlast]. inversion Hlast as [|? ? Hlast' _]; subst.
  destruct (printRows_file seg [] [last_score]) as [out Hout].
  cbn [app] in Hout. change (Zlength (@nil Z)) with 0 in Hout.
  replace (Z.to_nat (MAX_NUM_GUESSES - 1)) with (length seg)
    by (unfold MAX_NUM_GUESSES; lia).
  rewrite Hout. cbn [bind].
  replace (MAX_NUM_GUESSES - 1) with (Zlength seg)
    by (unfold MAX_NUM_GUESSES; zlen; lia).
  rewrite aget_middle. cbn [bind].
  eexists. eexists. split; [reflexivity|].
  replace 10%nat with (S (length seg)) by lia.
  now apply readScores_text.
Qed.

(** X11.  [updateScore] with a count of at least 1, on a file whose ten
    numbers have been read without overflow: it writes a file that reads
    back as the same ten scores, except that the score of the bucket
    [min (guessCount, 10) - 1] has gone up by one. *)
Theorem updateScore_bucket (guessCount : Z) (scores_txt : FILE)
    (scores : list Z) (rest : FILE) :
  readScores 10 scores_txt = Ok (scores, rest) -> 1 <= guessCount ->
  nth (Z.to_nat (Z.min guessCount 10 - 1)) scores 0 < INT_MAX ->
  exists out file,
    updateScore guessCount (Some scores_txt) = Ok (out, file) /\
    readScores 10 file
    = Ok (replace_nth (Z.to_nat (Z.min guessCount 10 - 1)) scores
            (nth (Z.to_nat (Z.min guessCount 10 - 1)) scores 0 + 1), []).
Proof. exact (updateScore_written guessCount (Some scores_txt) scores rest). Qed.

Lemma updateScore_bucket_witness :
  exists out file,
    updateScore 12 (Some [49; 32; 50]) = Ok (out, file) /\
    readScores 10 file = Ok ([1; 2; 0; 0; 0; 0; 0; 0; 0; 1], []).
Proof.
  apply (updateScore_bucket 12 [49; 32; 50] [1; 2; 0; 0; 0; 0; 0; 0; 0; 0] []).
  - reflexivity.
  - lia.
  - vm_compute. reflexivity.
Defined.

(** X12.  Without a scores file [updateScore] starts from ten zeros, and
    so does it with an empty file: the file written reads back as zeros
    with a single 1 in the bucket of the game. *)
Theorem updateScore_first_game (guessCount : Z) :
  1 <= guessCount ->
  updateScore guessCount (Some []) = updateScore guessCount None /\
  exists out file,
    updateScore guessCount None = Ok (out, file) /\
    readScores 10 file
    = Ok (replace_nth (Z.to_nat (Z.min guessCount 10 - 1)) (repeat 0 10) 1, []).
Proof.
  intros Hg. split; [reflexivity|].
  destruct (updateScore_written guessCount None (repeat 0 10) []) as (out & file & H1 & H2).
  - reflexivity.
  - exact Hg.
  - assert (Hn : forall k, nth k (repeat 0 10) 0 = 0)
      by (intros k; do 11 (destruct k as [|k]; [reflexivity|]); reflexivity).
    rewrite Hn. unfold INT_MAX. lia.
  - exists out, file. split; [exact H1|].
    change (Z.to_nat MAX_NUM_GUESSES) with 10%nat in H2. rewrite H2.
    assert (Hn : forall k, nth k (repeat 0 10) 0 = 0)
      by (intros k; do 11 (destruct k as [|k]; [reflexivity|]); reflexivity).
    unfold bucket, MAX_NUM_GUESSES. rewrite Hn. reflexivity.
Qed.

Lemma updateScore_first_game_witness :
  exists out file,
    updateScore 3 None = Ok (out, file) /\
    readScores 10 file = Ok ([0; 0; 1; 0; 0; 0; 0; 0; 0; 0], []).
Proof.
  destruct (updateScore_first_game 3) as (_ & out & file & H1 & H2); [lia|].
  exists out, file. split; [exact H1 | exact H2].
Defined.

(** X13.  For a count below 1 [updateScore], once it has read the file,
    increments a cell in front of the array of scores. *)
Theorem updateScore_needs_a_guess (guessCount : Z) (scores_txt : FILE)
    (scores : list Z) (rest : FILE) :
  readScores 10 scores_txt = Ok (scores, rest) -> guessCount <= 0 ->
  updateScore guessCount (Some scores_txt) = Undefined.
Proof.
  intros Hread Hg. unfold updateScore.
  change (Z.to_nat MAX_NUM_GUESSES) with 10%nat. rewrite Hread. cbn [bind].
  rewrite bucket_index. unfold incrementScore, aget, bucket, MAX_NUM_GUESSES.
  replace (0 <=? Z.min guessCount 10 - 1) with false
    by (symmetry; apply Z.leb_gt; lia).
  reflexivity.
Qed.

Lemma updateScore_needs_a_guess_witness : updateScore 0 (Some [49; 32; 50]) = Undefined.
Proof.
  apply (updateScore_needs_a_guess 0 [49; 32; 50] [1; 2; 0; 0; 0; 0; 0; 0; 0; 0] []);
    [reflexivity | lia].
Defined.

(** ** Reading a guess *)

Lemma to_char_range (b : Z) : -128 <= to_char b <= 127.
Proof. unfold to_char. pose proof (Z.mod_pos_bound (b + 128) 256). lia. Qed.

Lemma typed_char (b : Z) : typed b -> line_byte b /\ cchar (to_char b).
Proof.
  unfold typed, line_byte, cchar, LINE_FEED, EOF, CARRIAGE_RETURN.
  intros (Hb & Hlf & Hcr). pose proof (to_char_range b).
  assert (Hc : to_char b = b \/ to_char b = b - 256).
  { unfold to_char. destruct (Z_lt_dec b 128).
    - left. rewrite Z.mod_small; lia.
    - right. replace (b + 128) with ((b - 128) + 1 * 256) by lia.
      rewrite Z.mod_add by lia. rewrite Z.mod_small; lia. }
  lia.
Qed.

(** The line-reading loop of [main] on the bytes of a line and what
    follows them: nothing, or a byte that ends the line. *)
Lemma readGuess_line (content : list Z) :
  forall (tail : FILE) (userWord : list Z) (userWordLen : Z) (wordIsValid : bool),
    Forall line_byte content ->
    (tail = [] \/ exists t rest, tail = t :: rest /\ ~ line_byte t) ->
    0 <= userWordLen -> userWordLen + Zlength content <= INT_MAX ->
    readGuess (content ++ tail) userWord userWordLen wordIsValid
    = Ok (match tail with [] => to_char EOF | t :: _ => to_char t end,
          match tail with [] => [] | _ :: rest => rest end,
          typed_into userWord userWordLen (map to_char content),
          userWordLen + Zlength content,
          wordIsValid && forallb is_lowercase (map to_char content)).
Proof.
  induction content as [|b content IH];
    intros tail userWord userWordLen wordIsValid Hc Ht Hl Hmax.
  - cbn [app map typed_into forallb]. rewrite andb_true_r.
    replace (userWordLen + Zlength (@nil Z)) with userWordLen
      by (rewrite Zlength_nil; lia).
    destruct Ht as [->|(t & rest & -> & Ht)]; [reflexivity|].
    cbn [readGuess].
    replace ((to_char t =? LINE_FEED) || (to_char t =? EOF)
             || (to_char t =? CARRIAGE_RETURN)) with true; [reflexivity|].
    symmetry. rewrite !orb_true_iff, !Z.eqb_eq. unfold line_byte in Ht. lia.
  - inversion Hc as [|? ? Hb Hc']; subst. destruct Hb as (H1 & H2 & H3).
    cbn [app readGuess map typed_into forallb].
    replace ((to_char b =? LINE_FEED) || (to_char b =? EOF)
             || (to_char b =? CARRIAGE_RETURN)) with false
      by (symmetry; rewrite !orb_false_iff, !Z.eqb_neq; auto).
    assert (Hlen : Zlength (b :: content) = Zlength content + 1)
      by (rewrite Zlength_cons; lia).
    assert (0 <= Zlength content) by (rewrite Zlength_nat; lia).
    rewrite int_op_ok by (unfold INT_MIN; lia). cbn [bind].
    rewrite IH; trivial; try lia.
    rewrite Hlen. unfold is_lowercase at 2.
    destruct ((to_char b <? LOWERCASE_A) || (to_char b >? LOWERCASE_Z));
      cbn [negb andb]; rewrite ?andb_false_r;
      replace (userWordLen + 1 + Zlength content)
        with (userWordLen + (Zlength content + 1)) by lia;
      reflexivity.
Qed.

Lemma typed_into_full (chars : list Z) :
  forall (userWord : list Z) (userWordLen : Z),
    WORD_LEN <= userWordLen -> typed_into userWord userWordLen chars = userWord.
Proof.
  induction chars as [|c chars IH]; intros userWord userWordLen H; [reflexivity|].
  cbn [typed_into].
  replace (userWordLen <? WORD_LEN) with false by (symmetry; apply Z.ltb_ge; lia).
  apply IH. lia.
Qed.

(** The buffer after a line: the characters that fit, then what the cells
    behind them held. *)
Lemma typed_into_cells (chars : list Z) :
  forall (done todo : list Z) (last_cell : Z),
    Zlength (done ++ todo) = WORD_LEN ->
    typed_into (done ++ todo ++ [last_cell]) (Zlength done) chars
    = done ++ firstn (length todo) chars ++ skipn (length chars) todo ++ [last_cell].
Proof.
  induction chars as [|c chars IH]; intros done todo last_cell Hlen.
  - now destruct todo.
  - destruct todo as [|t todo].
    + rewrite typed_into_full by (rewrite app_nil_r in Hlen; lia). reflexivity.
    + cbn [typed_into].
      replace (Zlength done <? WORD_LEN) with true
        by (symmetry; apply Z.ltb_lt; zlen; lia).
      rewrite Zlength_nat, Nat2Z.id. cbn [app]. rewrite replace_nth_middle.
      rewrite <- Zlength_nat, <- (Zlength_snoc done c), <- (snoc_app done _ c).
      rewrite (IH (done ++ [c]) todo last_cell) by (zlen; lia).
      cbn [length firstn skipn]. now rewrite snoc_app.
Qed.

Lemma string_of_buffer_app (a b : list Z) :
  Forall (fun c => c <> 0) a ->
  string_of_buffer (a ++ b) = a ++ string_of_buffer b.
Proof.
  induction 1 as [|c a Hc Ha IH]; [reflexivity|]. cbn [app string_of_buffer].
  replace (c =? NULL_TERMINATOR) with false by (symmetry; now apply Z.eqb_neq).
  now rewrite IH.
Qed.

(** A string equal to another under [strcmp] is the same string. *)
Lemma strcmp_zero (a : word) :
  forall b, Forall cchar a -> Forall cchar b -> strcmp a b = 0 -> a = b.
Proof.
  assert (Hu : forall c, cchar c -> 0 < to_uchar c < 256).
  { intros c [Hr Hn]. unfold to_uchar. pose proof (Z.mod_pos_bound c 256 ltac:(lia)).
    assert (c mod 256 <> 0); [|lia]. intros E.
    apply Z.mod_divide in E; [|lia]. destruct E as [k Hk]. lia. }
  assert (Hinj : forall c d, cchar c -> cchar d -> to_uchar c = to_uchar d -> c = d).
  { intros c d [Hc _] [Hd _] E. unfold to_uchar in E.
    assert (Hm : (c - d) mod 256 = 0).
    { rewrite Zminus_mod, E, Z.sub_diag. reflexivity. }
    apply Z.mod_divide in Hm; [|lia]. destruct Hm as [k Hk]. lia. }
  induction a as [|x a IH]; intros [|y b] Ha Hb; cbn [strcmp]; trivial.
  - inversion Hb; subst. pose proof (Hu y ltac:(assumption)). lia.
  - inversion Ha; subst. pose proof (Hu x ltac:(assumption)). lia.
  - inversion Ha as [|? ? Hx Ha']; subst. inversion Hb as [|? ? Hy Hb']; subst.
    destruct (Z.eqb_spec (to_uchar x) (to_uchar y)) as [E|E]; [|lia].
    intros H. f_equal; [now apply Hinj | now apply IH].
Qed.

Lemma lowercase_cchar (c : Z) : lowercase c -> cchar c.
Proof. unfold lowercase, cchar, LOWERCASE_A, LOWERCASE_Z. lia. Qed.

Lemma valid_word_cchar (w : word) : valid_word w -> Forall cchar w.
Proof. intros [_ H]. eapply Forall_impl; [|exact H]. exact lowercase_cchar. Qed.

Lemma is_lowercase_spec (c : Z) : is_lowercase c = true <-> lowercase c.
Proof.
  unfold is_lowercase. rewrite negb_true_iff. apply not_letter.
Qed.

Lemma valid_word_chars (w : word) :
  valid_word w ->
  map to_char w = w /\ Forall line_byte w /\ forallb is_lowercase w = true /\
  Zlength w = WORD_LEN.
Proof.
  intros [Hlen Hall]. split; [|split; [|split; [|exact Hlen]]].
  - clear Hlen. induction Hall as [|c w Hc Hw IH]; [reflexivity|].
    simpl. now rewrite IH, lowercase_char.
  - eapply Forall_impl; [|exact Hall]. intros c Hc.
    apply typed_char. unfold typed, lowercase, LOWERCASE_A, LOWERCASE_Z,
      LINE_FEED, CARRIAGE_RETURN in *. lia.
  - clear Hlen. induction Hall as [|c w Hc Hw IH]; [reflexivity|].
    simpl. rewrite IH, andb_true_r. now apply is_lowercase_spec.
Qed.

(** The buffer after a Word has been typed. *)
Lemma typed_into_word (w : word) (last_cell : Z) :
  Zlength w = WORD_LEN ->
  typed_into (repeat NULL_TERMINATOR (Z.to_nat WORD_LEN) ++ [last_cell]) 0 w
  = w ++ [last_cell].
Proof.
  intros Hlen.
  pose proof (typed_into_cells w [] (repeat NULL_TERMINATOR (Z.to_nat WORD_LEN))
                last_cell eq_refl) as H.
  cbn [app] in H. change (Zlength (@nil Z)) with 0 in H. rewrite H.
  rewrite repeat_length.
  replace (Z.to_nat WORD_LEN) with (length w) by (zlen; lia).
  rewrite firstn_all, skipn_all2 by (rewrite repeat_length; lia). reflexivity.
Qed.

Lemma terminator_not_line_byte (term : Z) :
  term = LINE_FEED \/ term = CARRIAGE_RETURN ->
  ~ line_byte term /\ to_char term <> EOF.
Proof.
  intros [->| ->]; split; try (vm_compute; discriminate);
    intros (H1 & H2 & H3); [apply H1 | apply H3]; reflexivity.
Qed.

Lemma strcmp_quit_word (w : word) (tail : list Z) :
  Zlength w = WORD_LEN -> Forall cchar w -> Forall cchar tail ->
  (strcmp quit_command (w ++ tail) =? 0) = false.
Proof.
  intros Hlen Hw Ht. apply Z.eqb_neq. intros E.
  apply strcmp_zero in E.
  - apply (f_equal (@length Z)) in E. rewrite length_app in E.
    unfold WORD_LEN in Hlen. zlen. simpl in E. lia.
  - repeat constructor; vm_compute; intuition discriminate.
  - apply Forall_app. auto.
Qed.

(** One attempt on a line that holds a Word. *)
Lemma guessAttempt_word (last_cell : Z) (wordList : list word) (w : word)
    (term : Z) (rest : FILE) :
  valid_word w -> term = LINE_FEED \/ term = CARRIAGE_RETURN ->
  cchar last_cell \/ last_cell = 0 ->
  guessAttempt last_cell wordList (w ++ term :: rest) =
  (wordIsValid <- inList (w ++ string_of_buffer [last_cell]) wordList ;;
   if wordIsValid : bool
   then Ok (ValidGuess (w ++ string_of_buffer [last_cell]) rest)
   else Ok (InvalidGuess rest)).
Proof.
  intros Hw Hterm Hcell.
  destruct (valid_word_chars w Hw) as (Hmap & Hline & Hlow & Hlen).
  destruct (terminator_not_line_byte term Hterm) as [Hnl Hne].
  unfold guessAttempt.
  rewrite (readGuess_line w (term :: rest)); trivial;
    [|right; eauto | lia | rewrite Hlen; unfold WORD_LEN, INT_MAX; lia].
  cbn [bind]. rewrite Hmap, Hlow, typed_into_word by exact Hlen.
  rewrite string_of_buffer_app
    by (eapply Forall_impl; [|exact (valid_word_nonzero w Hw)]; auto).
  replace (to_char term =? EOF) with false by (symmetry; now apply Z.eqb_neq).
  rewrite strcmp_quit_word; trivial.
  - cbn [orb andb]. rewrite Z.add_0_l, Hlen, Z.eqb_refl. reflexivity.
  - now apply valid_word_cchar.
  - destruct Hcell as [Hc| ->]; [|constructor].
    cbn [string_of_buffer]. destruct Hc as [Hr Hn].
    replace (last_cell =? NULL_TERMINATOR) with false
      by (symmetry; now apply Z.eqb_neq).
    constructor; [split; assumption | constructor].
Qed.

(** A line of five lowercase letters, with NUL behind the five letters
    of [userWord]: the guess is looked up in the word list. *)
Lemma guessAttempt_lookup (wordList : list word) (w : word) (term : Z) (rest : FILE) :
  Spec.strictly_ascending wordList -> Forall valid_word wordList -> valid_word w ->
  term = LINE_FEED \/ term = CARRIAGE_RETURN ->
  (In w wordList -> guessAttempt 0 wordList (w ++ term :: rest) = Ok (ValidGuess w rest)) /\
  (~ In w wordList -> guessAttempt 0 wordList (w ++ term :: rest) = Ok (InvalidGuess rest)).
Proof.
  intros Hs Hv Hw Hterm.
  rewrite (guessAttempt_word 0 wordList w term rest Hw Hterm (or_intror eq_refl)).
  cbn [string_of_buffer]. change (0 =? NULL_TERMINATOR) with true. cbv iota.
  rewrite app_nil_r.
  destruct (inList_cases w wordList Hs Hv Hw) as [[Hr Hi]|[Hr Hi]]; rewrite Hr;
    cbn [bind]; split; intros; try contradiction; reflexivity.
Qed.

(** X14.  When the cell behind the five letters of [userWord] holds NUL,
    a line of five lowercase letters, ended by a line feed or a carriage
    return, is a valid guess exactly when the word is in the sorted word
    list; the input goes on behind the character that ended the line. *)
Theorem guessAttempt_accepts (wordList : list word) (w : word) (term : Z) (rest : FILE) :
  Spec.strictly_ascending wordList -> Forall valid_word wordList -> valid_word w ->
  term = LINE_FEED \/ term = CARRIAGE_RETURN ->
  (In w wordList -> guessAttempt 0 wordList (w ++ term :: rest) = Ok (ValidGuess w rest)) /\
  (~ In w wordList -> guessAttempt 0 wordList (w ++ term :: rest) = Ok (InvalidGuess rest)).
Proof. exact (guessAttempt_lookup wordList w term rest). Qed.

Lemma guessAttempt_accepts_witness :
  guessAttempt 0 [[97; 112; 112; 108; 101]; [98; 97; 107; 101; 114]]
    ([98; 97; 107; 101; 114] ++ 13 :: [10; 120])
  = Ok (ValidGuess [98; 97; 107; 101; 114] [10; 120]).
Proof.
  destruct (guessAttempt_accepts [[97; 112; 112; 108; 101]; [98; 97; 107; 101; 114]]
              [98; 97; 107; 101; 114] 13 [10; 120]) as [H _].
  - repeat constructor; simpl; lia.
  - repeat constructor; vm_compute; discriminate.
  - repeat constructor; vm_compute; discriminate.
  - right. reflexivity.
  - apply H. simpl. auto.
Defined.

(** A search for a string that no word of the list equals fails. *)
Lemma binarySearch_no_match (wordList : list word) (w : word) :
  (forall x, In x wordList -> strcmp x w <> 0) ->
  forall (m : nat) (low high : Z),
    (Z.to_nat (high - low + 1) <= m)%nat -> 0 <= low -> high < Zlength wordList ->
    binarySearch wordList w low high = Ok false.
Proof.
  intros Hno. induction m as [|m IH]; intros low high Hm Hlow Hhigh;
    rewrite binarySearch_body.
  - replace (low >? high) with true by (symmetry; apply Z.gtb_gt; lia). reflexivity.
  - destruct (Z.gtb_spec low high) as [Hgt|Hle]; [reflexivity|].
    cbv zeta. rewrite Z.quot_div_nonneg by lia.
    set (mid := (low + high) / 2).
    assert (Hmid : low <= mid <= high) by (unfold mid; Z.div_mod_to_equations; lia).
    destruct (aget_in_range wordList mid ltac:(lia)) as [x Hx].
    rewrite Hx. cbn [bind]. apply aget_nth_error in Hx as [_ Hx].
    apply nth_error_In in Hx.
    replace (strcmp x w =? 0) with false
      by (symmetry; apply Z.eqb_neq; now apply Hno).
    destruct (strcmp x w >? 0); apply IH; lia.
Qed.

(** X15.  When the cell behind the five letters of [userWord] holds
    anything but NUL, no line of five lowercase letters is a valid guess,
    whatever the word list holds. *)
Theorem guessAttempt_needs_nul (last_cell : Z) (wordList : list word) (w : word)
    (term : Z) (rest : FILE) :
  -128 <= last_cell <= 127 -> last_cell <> 0 ->
  Forall valid_word wordList -> valid_word w ->
  term = LINE_FEED \/ term = CARRIAGE_RETURN ->
  guessAttempt last_cell wordList (w ++ term :: rest) = Ok (InvalidGuess rest).
Proof.
  intros Hr Hn Hv Hw Hterm.
  rewrite (guessAttempt_word last_cell wordList w term rest Hw Hterm
             (or_introl (conj Hr Hn))).
  cbn [string_of_buffer].
  replace (last_cell =? NULL_TERMINATOR) with false by (symmetry; now apply Z.eqb_neq).
  unfold inList.
  rewrite (binarySearch_no_match wordList (w ++ [last_cell])) with
    (m := Z.to_nat (Zlength wordList - 1 - 0 + 1)); try lia; [reflexivity|].
  intros x Hx E. rewrite Forall_forall in Hv. specialize (Hv x Hx).
  apply strcmp_zero in E.
  - apply (f_equal (@length Z)) in E. rewrite length_app in E.
    rewrite (valid_word_length x Hv), (valid_word_length w Hw) in E. simpl in E. lia.
  - now apply valid_word_cchar.
  - apply Forall_app. split; [now apply valid_word_cchar|].
    constructor; [split; assumption | constructor].
Qed.

Lemma guessAttempt_needs_nul_witness :
  guessAttempt 7 [[97; 112; 112; 108; 101]] ([97; 112; 112; 108; 101] ++ 10 :: [])
  = Ok (InvalidGuess []).
Proof.
  apply (guessAttempt_needs_nul 7 [[97; 112; 112; 108; 101]] [97; 112; 112; 108; 101] 10 []).
  - lia.
  - discriminate.
  - repeat constructor; vm_compute; discriminate.
  - repeat constructor; vm_compute; discriminate.
  - left. reflexivity.
Defined.









(** X17.  Input that ends without a line terminator (after fewer than
    [INT_MAX] characters) ends the game, even when the line spells a word
    of the list; so does a byte 0xFF, read as the end of the input; and so
    does the line "quit". *)
Theorem guessAttempt_quits (last_cell : Z) (wordList : list word)
    (content : list Z) (rest : FILE) :
  Forall line_byte content -> Zlength content <= INT_MAX ->
  guessAttempt last_cell wordList content = Ok QuitGame /\
  guessAttempt last_cell wordList (content ++ 255 :: rest) = Ok QuitGame /\
  (forall term, term = LINE_FEED \/ term = CARRIAGE_RETURN ->
     guessAttempt last_cell wordList (quit_command ++ term :: rest) = Ok QuitGame).
Proof.
  intros Hline Hmax. split; [|split].
  - unfold guessAttempt. rewrite <- (app_nil_r content) at 1.
    rewrite (readGuess_line content [])
      by (first [assumption | left; reflexivity | lia]).
    reflexivity.
  - assert (H255 : ~ line_byte 255) by (intros (_ & H & _); apply H; reflexivity).
    unfold guessAttempt.
    rewrite (readGuess_line content (255 :: rest))
      by (first [assumption | right; eauto | lia]).
    reflexivity.
  - intros term [->| ->]; reflexivity.
Qed.

Lemma guessAttempt_quits_witness :
  guessAttempt 0 [[97; 112; 112; 108; 101]] [97; 112; 112; 108; 101] = Ok QuitGame.
Proof.
  destruct (guessAttempt_quits 0 [[97; 112; 112; 108; 101]] [97; 112; 112; 108; 101] [])
    as [H _].
  - repeat constructor; vm_compute; discriminate.
  - vm_compute. discriminate.
  - exact H.
Defined.

(** ** The game *)

Lemma line_byte_dec (b : Z) : {line_byte b} + {~ line_byte b}.
Proof.
  unfold line_byte.
  destruct (Z.eq_dec (to_char b) LINE_FEED); [right; tauto|].
  destruct (Z.eq_dec (to_char b) EOF); [right; tauto|].
  destruct (Z.eq_dec (to_char b) CARRIAGE_RETURN); [right; tauto|].
  left. auto.
Qed.

(** The input splits into the bytes of its first line and what follows. *)
Lemma split_line (stdin : FILE) :
  exists content tail,
    stdin = content ++ tail /\ Forall line_byte content /\
    (tail = [] \/ exists t rest, tail = t :: rest /\ ~ line_byte t).
Proof.
  induction stdin as [|b stdin (content & tail & -> & Hc & Ht)].
  - exists [], []. auto.
  - destruct (line_byte_dec b) as [Hb|Hb].
    + exists (b :: content), tail. auto.
    + exists [], (b :: content ++ tail). split; [reflexivity|].
      split; [constructor|]. right. eauto.
Qed.

(** One attempt, with NUL behind the buffer, on any input. *)
Lemma guessAttempt_cases (wordList : list word) (stdin : FILE) :
  Sorted Spec.lex_lt wordList -> Forall valid_word wordList ->
  Zlength stdin <= INT_MAX ->
  guessAttempt 0 wordList stdin = Ok QuitGame \/
  (exists rest,
     guessAttempt 0 wordList stdin = Ok (InvalidGuess rest) /\
     (length rest < length stdin)%nat) \/
  (exists w rest,
     guessAttempt 0 wordList stdin = Ok (ValidGuess w rest) /\
     valid_word w /\ In w wordList /\ (length rest < length stdin)%nat).
Proof.
  intros Hs Hv Hmax.
  destruct (split_line stdin) as (content & tail & -> & Hc & Ht).
  assert (Hcl : Zlength content <= INT_MAX) by (zlen; lia).
  unfold guessAttempt.
  rewrite (readGuess_line content tail) by (first [assumption | lia]).
  cbn [bind]. rewrite Z.add_0_l. cbn [andb].
  destruct Ht as [->|(t & rest & -> & Ht)]; [left; reflexivity|].
  destruct (to_char t =? EOF); [left; reflexivity|].
  destruct (strcmp quit_command _ =? 0) eqn:Eq; [left; reflexivity|]. cbn [orb].
  assert (Hshort : (length rest < length (content ++ t :: rest))%nat)
    by (rewrite length_app; simpl; lia).
  destruct (Z.eqb_spec (Zlength content) WORD_LEN) as [E|E]; cbn [negb];
    [|right; left; exists rest; split; [reflexivity | exact Hshort]].
  destruct (forallb is_lowercase (map to_char content)) eqn:El;
    [|right; left; exists rest; split; [reflexivity | exact Hshort]].
  assert (Hw : valid_word (map to_char content)).
  { split; [zlen; lia|]. apply Forall_forall. intros c Hin.
    apply is_lowercase_spec. rewrite forallb_forall in El. now apply El. }
  rewrite typed_into_word in * by (zlen; lia).
  rewrite string_of_buffer_app in *
    by (eapply Forall_impl; [|exact (valid_word_nonzero _ Hw)]; auto).
  cbn [string_of_buffer] in *. change (0 =? NULL_TERMINATOR) with true in *.
  cbv iota in *. rewrite app_nil_r in *.
  destruct (inList_cases _ wordList Hs Hv Hw) as [[Hr Hi]|[Hr Hi]]; rewrite Hr;
    cbn [bind]; right; [right | left].
  - exists (map to_char content), rest. auto.
  - exists rest. auto.
Qed.

(** X18.  With NUL behind the buffer, a sorted list of Words and a Word
    as target, the game on any input of fewer than [INT_MAX] bytes comes
    to an end without undefined behaviour.  Until then it prints only
    "Invalid guess" lines and feedback for words of the list other than
    the target.  Then either it reveals the target and stops, or it
    reports the number of valid guesses, which is at least 1 (as
    [updateScore] needs it) and one more than the number of feedback
    lines. *)
Theorem play_ends (fuel : nat) (wordList : list word) (targetWord : word) :
  Spec.strictly_ascending wordList -> Forall valid_word wordList ->
  valid_word targetWord ->
  forall (stdin : FILE) (numValidGuesses : Z),
    (length stdin < fuel)%nat -> 0 <= numValidGuesses ->
    numValidGuesses + Zlength stdin <= INT_MAX ->
    exists log,
      Forall (round_message wordList targetWord) log /\
      (play fuel 0 wordList targetWord stdin numValidGuesses
       = Ok (log ++ [TheWordWas targetWord], None) \/
       exists n,
         play fuel 0 wordList targetWord stdin numValidGuesses
         = Ok (log ++ [SolvedIn n], Some n) /\
         n = numValidGuesses + feedback_lines log + 1 /\ 1 <= n).
Proof.
  intros Hs Hv Ht. induction fuel as [|fuel IH]; intros stdin n Hfuel Hn Hmax; [lia|].
  assert (Hlen : 0 <= Zlength stdin) by (rewrite Zlength_nat; lia).
  cbn [play].
  destruct (guessAttempt_cases wordList stdin Hs Hv ltac:(lia))
    as [Hq|[(rest & Hr & Hshort)|(w & rest & Hr & Hw & Hin & Hshort)]].
  - rewrite Hq. cbn [bind]. exists []. split; [constructor|]. left. reflexivity.
  - rewrite Hr. cbn [bind].
    destruct (IH rest n) as (log & Hlog & [Hp|(k & Hp & Hk & Hk1)]);
      try lia; [zlen; lia| |]; rewrite Hp; cbn [bind];
      exists (InvalidGuessLine :: log);
      (split; [constructor; [exact I | exact Hlog]|]).
    + left. reflexivity.
    + right. exists k. auto.
  - rewrite Hr. cbn [bind].
    assert (Hn1 : int_op (n + 1) = Ok (n + 1)).
    { apply int_op_ok. unfold INT_MIN. zlen. lia. }
    destruct (Z.eqb_spec (strcmp w targetWord) 0) as [E|E].
    + rewrite Hn1. cbn [bind]. exists []. split; [constructor|].
      right. exists (n + 1). split; [reflexivity|]. simpl. lia.
    + destruct (processWord_shown w targetWord Hw Ht) as (out & Hout & _).
      rewrite Hout. cbn [bind]. rewrite Hn1. cbn [bind].
      assert (Hm : round_message wordList targetWord (FeedbackLine out)).
      { exists w. split; [exact Hin|]. split; [|exact Hout].
        intros ->. apply E. apply strcmp_eq; auto using valid_word_letters. }
      destruct (IH rest (n + 1)) as (log & Hlog & [Hp|(k & Hp & Hk & Hk1)]);
        try lia; [zlen; lia| |]; rewrite Hp; cbn [bind];
        exists (FeedbackLine out :: log); (split; [constructor; assumption|]).
      * left. reflexivity.
      * right. exists k. split; [reflexivity|]. cbn [feedback_lines]. lia.
Qed.

Lemma play_ends_witness :
  exists log n,
    play 20 0 [[97; 112; 112; 108; 101]; [98; 97; 107; 101; 114]]
      [98; 97; 107; 101; 114]
      [97; 112; 112; 108; 101; 10; 98; 97; 107; 101; 114; 10] 0
    = Ok (log ++ [SolvedIn n], Some n) /\ n = 2.
Proof.
  destruct (play_ends 20 [[97; 112; 112; 108; 101]; [98; 97; 107; 101; 114]]
              [98; 97; 107; 101; 114]) with
    (stdin := [97; 112; 112; 108; 101; 10; 98; 97; 107; 101; 114; 10])
    (numValidGuesses := 0) as (log & _ & [Hp|(n & Hp & Hn & _)]).
  - repeat constructor; simpl; lia.
  - repeat constructor; vm_compute; discriminate.
  - repeat constructor; vm_compute; discriminate.
  - simpl. lia.
  - lia.
  - vm_compute. discriminate.
  - exfalso. vm_compute in Hp. injection Hp as Hp. 
    apply (f_equal (fun l => last l InvalidGuessLine)) in Hp.
    rewrite last_last in Hp. discriminate.
  - exists log, n. split; [exact Hp|].
    pose proof Hp as Hp'. vm_compute in Hp'. injection Hp' as _ Hn'. congruence.
Defined.

(** X19.  When the target is typed, the game ends at once: no feedback is
    printed for it, and the number of valid guesses reported is one more
    than before. *)
Theorem play_solved (fuel : nat) (wordList : list word) (targetWord : word)
    (term : Z) (rest : FILE) (numValidGuesses : Z) :
  Spec.strictly_ascending wordList -> Forall valid_word wordList ->
  In targetWord wordList -> term = LINE_FEED \/ term = CARRIAGE_RETURN ->
  0 <= numValidGuesses < INT_MAX ->
  play (S fuel) 0 wordList targetWord (targetWord ++ term :: rest) numValidGuesses
  = Ok ([SolvedIn (numValidGuesses + 1)], Some (numValidGuesses + 1)).
Proof.
  intros Hs Hv Hin Hterm Hn.
  assert (Ht : valid_word targetWord) by (rewrite Forall_forall in Hv; auto).
  destruct (guessAttempt_lookup wordList targetWord term rest Hs Hv Ht Hterm) as [Ha _].
  cbn [play]. rewrite (Ha Hin). cbn [bind].
  replace (strcmp targetWord targetWord =? 0) with true
    by (symmetry; apply Z.eqb_eq, strcmp_eq; auto using valid_word_letters).
  rewrite int_op_ok by (unfold INT_MIN; lia). reflexivity.
Qed.

Lemma play_solved_witness :
  play 1 0 [[97; 112; 112; 108; 101]] [97; 112; 112; 108; 101]
    ([97; 112; 112; 108; 101] ++ 10 :: [120]) 0
  = Ok ([SolvedIn (0 + 1)], Some (0 + 1)).
Proof.
  apply (play_solved 0 [[97; 112; 112; 108; 101]] [97; 112; 112; 108; 101] 10 [120] 0).
  - repeat constructor.
  - repeat constructor; vm_compute; discriminate.
  - left. reflexivity.
  - left. reflexivity.
  - vm_compute. split; [discriminate | reflexivity].
Defined.

(** ** Feedback: green and absent letters *)

Lemma classify_from_correct (target : word) (pairs : list (Z * Z)) :
  forall used,
    map is_correct (classify_from target pairs used)
    = map (fun p => fst p =? snd p) pairs.
Proof.
  induction pairs as [|[g t] pairs IH]; intros used; [reflexivity|].
  cbn [classify_from map fst snd]. destruct (g =? t); cbn [map is_correct].
  - now rewrite IH.
  - destruct (claim g target used); cbn [map is_correct]; now rewrite IH.
Qed.

(** X20.  [processWord] shows a letter of the guess in green exactly
    where the target has the same letter at the same position. *)
Theorem processWord_green (userWord targetWord : word) :
  valid_word userWord -> valid_word targetWord ->
  exists out,
    processWord userWord targetWord = Ok out /\
    map is_correct (feedback out)
    = map (fun p => fst p =? snd p) (combine userWord targetWord).
Proof.
  intros Hu Ht.
  destruct (processWord_feedback userWord targetWord Hu Ht) as (out & Hrun & _ & Hf).
  exists out. split; [exact Hrun|]. rewrite Hf. apply classify_from_correct.
Qed.

Lemma processWord_green_witness :
  exists out,
    processWord [100; 101; 101; 100; 115] [115; 112; 101; 101; 100] = Ok out /\
    map is_correct (feedback out) = [false; false; true; false; false].
Proof.
  destruct (processWord_green [100; 101; 101; 100; 115] [115; 112; 101; 101; 100])
    as (out & H1 & H2).
  - split; [reflexivity | repeat constructor; vm_compute; discriminate].
  - split; [reflexivity | repeat constructor; vm_compute; discriminate].
  - exists out. split; [exact H1 | exact H2].
Defined.

Lemma claim_in (g : Z) (target : word) :
  forall used used', claim g target used = Some used' -> In g target.
Proof.
  induction target as [|t target IH]; intros [|u used] used'; simpl; try discriminate.
  destruct (Z.eqb_spec g t) as [->|Hne]; [intros _; now left|]. cbn [andb].
  destruct (claim g target used) eqn:E; simpl; [|discriminate].
  intros _. right. eapply IH. exact E.
Qed.

Lemma classify_from_absent (target : word) (pairs : list (Z * Z)) :
  Forall (fun p => In (snd p) target) pairs ->
  forall used,
    Forall2 (fun g r => ~ In g target -> r = Spec.Absent)
      (map fst pairs) (classify_from target pairs used).
Proof.
  induction 1 as [|[g t] pairs Hp Hps IH]; intros used; [constructor|].
  cbn [map fst classify_from]. cbn [snd] in Hp.
  destruct (Z.eqb_spec g t) as [->|Hne].
  - constructor; [intros H; contradiction | apply IH].
  - destruct (claim g target used) eqn:E.
    + constructor; [|apply IH]. intros H. exfalso. apply H. eapply claim_in. exact E.
    + constructor; [reflexivity | apply IH].
Qed.

(** X21.  [processWord] shows in the default colour every letter of the
    guess that does not occur in the target. *)
Theorem processWord_absent (userWord targetWord : word) :
  valid_word userWord -> valid_word targetWord ->
  exists out,
    processWord userWord targetWord = Ok out /\
    Forall2 (fun g r => ~ In g targetWord -> r = Spec.Absent) userWord (feedback out).
Proof.
  intros Hu Ht.
  destruct (processWord_feedback userWord targetWord Hu Ht) as (out & Hrun & _ & Hf).
  exists out. split; [exact Hrun|]. rewrite Hf. unfold classification.
  assert (Hlen : length userWord = length targetWord)
    by (rewrite (valid_word_length _ Hu), (valid_word_length _ Ht); reflexivity).
  assert (Hfst : map fst (combine userWord targetWord) = userWord).
  { clear -Hlen. revert targetWord Hlen.
    induction userWord as [|g u IH]; intros [|t w] H; try discriminate; [reflexivity|].
    simpl. f_equal. apply IH. simpl in H. lia. }
  rewrite <- Hfst at 1. apply classify_from_absent.
  apply Forall_forall. intros [g t] Hin. apply in_combine_r in Hin. exact Hin.
Qed.

Lemma processWord_absent_witness :
  exists out,
    processWord [120; 121; 122; 122; 122] [97; 97; 97; 97; 97] = Ok out /\
    Forall2 (fun g r => ~ In g [97; 97; 97; 97; 97] -> r = Spec.Absent)
      [120; 121; 122; 122; 122] (feedback out).
Proof.
  apply (processWord_absent [120; 121; 122; 122; 122] [97; 97; 97; 97; 97]).
  - split; [reflexivity | repeat constructor; vm_compute; discriminate].
  - split; [reflexivity | repeat constructor; vm_compute; discriminate].
Defined.
